(** * Shortest paths on weighted graphs: Bellman-Ford, Floyd-Warshall and
    the random connected graph generator of [discrete_lab.py].

    The development is a shallow embedding.  Python values are modelled as
    follows.
    - A distance is either an integer or [float('inf')]: type [dist].
      Integers are unbounded and their sums are exact.  A sum with
      [float('inf')] converts the integer operand to a float, which raises
      [OverflowError] when the integer is too large: [dist_add], [dist_plus].
    - A raised exception is a value of [exn]; a computation that may raise
      returns a [result].
    - A networkx graph object is a [Graph]: the insertion-ordered adjacency
      dictionary [_adj], whose keys are the nodes.  The object is threaded
      through every function as the state of the monad [M], so that reading
      it and mutating it are different things.
    - The dictionary [distances] of [bellman_ford] is a [gmap nat dist]; the
      matrix [distances] of [floyd_warshall] is a [list (list dist)]. *)

From stdpp Require Import base gmap list strings.
From Stdlib Require Import ZArith QArith Lia.

Local Close Scope Q_scope.

Local Open Scope Z_scope.

(** ** Distances: integers and +infinity *)

Inductive dist := Fin (z : Z) | Inf.

#[global] Instance dist_eq_dec : EqDecision dist.
Proof. solve_decision. Defined.

(** [a < b]. *)
Definition dist_ltb (a b : dist) : bool :=
  match a, b with
  | Fin x, Fin y => x <? y
  | Fin _, Inf => true
  | Inf, _ => false
  end.

(** [min(a, b)]: the first argument unless the second is strictly less. *)
Definition dist_min (a b : dist) : dist :=
  if dist_ltb b a then b else a.

(** The order [a <= b] used in the statements. *)
Definition dist_le (a b : dist) : Prop :=
  match a, b with
  | Fin x, Fin y => x <= y
  | _, Inf => True
  | Inf, Fin _ => False
  end.

(** ** Exceptions and the two monads *)

Inductive exn :=
  | KeyError (k : nat)
  | IndexError
  | ValueError (msg : string)
  | OverflowError.

Inductive result (A : Type) :=
  | Ok (a : A)
  | Raise (e : exn).
Arguments Ok {A} a.
Arguments Raise {A} e.

#[global] Instance result_ret : MRet result := @Ok.
#[global] Instance result_bind : MBind result := λ A B f r,
  match r with
  | Ok a => f a
  | Raise e => Raise e
  end.

(** ** Sums with +infinity

    In [float('inf') + n] and [n + float('inf')] the integer [n] is
    converted to a float before the addition.  The conversion rounds to
    the nearest float and raises [OverflowError] ("int too large to convert
    to float") when the result would be 2^1024 or more in magnitude, that
    is when [|n| >= 2^1024 - 2^970].  The sum of two integers is exact, and
    [float('inf') + float('inf')] converts nothing.  Comparing an integer
    with [float('inf')] converts nothing either. *)

Definition float_limit : Z := 2 ^ 1024 - 2 ^ 970.

(** [float(n)] does not raise. *)
Definition converts (n : Z) : bool := Z.abs n <? float_limit.

(** [a + w] where [a] is a distance and [w] an integer weight. *)
Definition dist_add (a : dist) (w : Z) : result dist :=
  match a with
  | Fin x => Ok (Fin (x + w))
  | Inf => if converts w then Ok Inf else Raise OverflowError
  end.

(** [a + b] on two distances. *)
Definition dist_plus (a b : dist) : result dist :=
  match a, b with
  | Fin x, Fin y => Ok (Fin (x + y))
  | Inf, Fin y => if converts y then Ok Inf else Raise OverflowError
  | Fin x, Inf => if converts x then Ok Inf else Raise OverflowError
  | Inf, Inf => Ok Inf
  end.

(** [for x in l: s = body(s, x)], leaving at the first exception. *)
Fixpoint for_each {A S : Type} (body : S → A → result S) (l : list A) (s : S)
  : result S :=
  match l with
  | [] => Ok s
  | x :: l' => s' ← body s x; for_each body l' s'
  end.

(** A computation over a mutable object of type [S]. *)
Definition M (S A : Type) : Type := S → S * result A.

#[global] Instance M_ret {S} : MRet (M S) := λ A a s, (s, Ok a).
#[global] Instance M_bind {S} : MBind (M S) := λ A B f m s,
  match m s with
  | (s', Ok a) => f a s'
  | (s', Raise e) => (s', Raise e)
  end.

(** A computation that does not touch the object. *)
Definition lift {S A : Type} (r : result A) : M S A := λ s, (s, r).

(** ** The graph object *)

(** [adj] is networkx's [_adj]: for every node, in insertion order, the
    insertion-ordered dictionary from neighbour to edge attribute.  For a
    [DiGraph] it holds the successors.  For a [Graph] both [adj[u][v]] and
    [adj[v][u]] are present and hold the same attribute. *)
Record Graph (A : Type) := mkGraph {
  directed : bool;
  adj : list (nat * list (nat * A))
}.
Arguments mkGraph {A} directed adj.
Arguments directed {A} g.
Arguments adj {A} g.

(** [graph.nodes()] *)
Definition nodes {A} (g : Graph A) : list nat := (adj g).*1.

Definition out_edges {A} (n : nat) (nbrs : list (nat * A)) : list (nat * nat * A) :=
  (λ va : nat * A, (n, va.1, va.2)) <$> nbrs.

(** Edges of an undirected graph: each edge is reported once, from the
    endpoint that comes first in node order. *)
Fixpoint edges_undirected {A} (seen : list nat) (l : list (nat * list (nat * A)))
  : list (nat * nat * A) :=
  match l with
  | [] => []
  | (n, nbrs) :: l' =>
      out_edges n (filter (λ va : nat * A, va.1 ∉ seen) nbrs)
        ++ edges_undirected (n :: seen) l'
  end.

(** [graph.edges(data=...)] *)
Definition edges {A} (g : Graph A) : list (nat * nat * A) :=
  if directed g
  then flat_map (λ na : nat * list (nat * A), out_edges na.1 na.2) (adj g)
  else edges_undirected [] (adj g).

(** The two read accessors, as computations on the graph object. *)
Definition nx_nodes {A} : M (Graph A) (list nat) := λ g, (g, Ok (nodes g)).
Definition nx_edges {A} : M (Graph A) (list (nat * nat * A)) :=
  λ g, (g, Ok (edges g)).

(** ** bellman_ford *)

Definition getitem (d : gmap nat dist) (k : nat) : result dist :=
  match d !! k with
  | Some x => Ok x
  | None => Raise (KeyError k)
  end.

(** [{node: float('inf') for node in graph.nodes()}] *)
Definition inf_dict (ns : list nat) : gmap nat dist :=
  foldl (λ d n, <[n := Inf]> d) ∅ ns.

(** Body of the relaxation loop:
    [if distances[u] + weight < distances[v]:
         distances[v] = distances[u] + weight]. *)
Definition relax (d : gmap nat dist) (e : nat * nat * Z) : result (gmap nat dist) :=
  let '(u, v, weight) := e in
  du ← getitem d u;
  x ← dist_add du weight;
  dv ← getitem d v;
  if dist_ltb x dv
  then du' ← getitem d u; x' ← dist_add du' weight; Ok (<[v := x']> d)
  else Ok d.

Definition negative_cycle_msg : string := "Graph contains a negative cycle".

(** Body of the checking loop:
    [if distances[u] + weight < distances[v]: raise ValueError(...)]. *)
Definition check (d : gmap nat dist) (e : nat * nat * Z) : result (gmap nat dist) :=
  let '(u, v, weight) := e in
  du ← getitem d u;
  x ← dist_add du weight;
  dv ← getitem d v;
  if dist_ltb x dv
  then Raise (ValueError negative_cycle_msg)
  else Ok d.

(** [for _ in range(n): for u, v, weight in graph.edges(data='weight'): ...] *)
Fixpoint relax_passes (n : nat) (d : gmap nat dist) : M (Graph Z) (gmap nat dist) :=
  match n with
  | O => mret d
  | S n' =>
      es ← nx_edges;
      d' ← lift (for_each relax es d);
      relax_passes n' d'
  end.

Definition bellman_ford (source : nat) : M (Graph Z) (gmap nat dist) :=
  ns ← nx_nodes;
  let distances := <[source := Fin 0]> (inf_dict ns) in
  ns' ← nx_nodes;
  distances ← relax_passes (length ns' - 1)%nat distances;
  es ← nx_edges;
  distances ← lift (for_each check es distances);
  mret distances.

(** ** floyd_warshall *)

Definition getcell (m : list (list dist)) (i j : nat) : result dist :=
  match m !! i with
  | None => Raise IndexError
  | Some row =>
      match row !! j with
      | None => Raise IndexError
      | Some x => Ok x
      end
  end.

Definition setcell (m : list (list dist)) (i j : nat) (x : dist)
  : result (list (list dist)) :=
  match m !! i with
  | None => Raise IndexError
  | Some row =>
      if decide (j < length row)%nat
      then Ok (<[i := <[j := x]> row]> m)
      else Raise IndexError
  end.

(** [distances[i][j] = min(distances[i][j], distances[i][k] + distances[k][j])] *)
Definition relax_cell (k i : nat) (m : list (list dist)) (j : nat)
  : result (list (list dist)) :=
  dij ← getcell m i j;
  dik ← getcell m i k;
  dkj ← getcell m k j;
  x ← dist_plus dik dkj;
  setcell m i j (dist_min dij x).

Definition fw_row (n k : nat) (m : list (list dist)) (i : nat) :=
  for_each (relax_cell k i) (seq 0 n) m.

Definition fw_stage (n : nat) (m : list (list dist)) (k : nat) :=
  for_each (fw_row n k) (seq 0 n) m.

(** Lines 52-58: the matrix before the triple loop. *)
Definition fw_init (n : nat) (es : list (nat * nat * Z)) : result (list (list dist)) :=
  let distances := replicate n (replicate n Inf) in
  distances ← for_each (λ m (e : nat * nat * Z), setcell m e.1.1 e.1.2 (Fin e.2))
                 es distances;
  for_each (λ m i, setcell m i i (Fin 0)) (seq 0 n) distances.

Definition floyd_warshall : M (Graph Z) (list (list dist)) :=
  ns ← nx_nodes;
  let num_nodes := length ns in
  es ← nx_edges;
  distances ← lift (fw_init num_nodes es);
  distances ← lift (for_each (fw_stage num_nodes) (seq 0 num_nodes) distances);
  mret distances.

(** ** Building a graph *)

(** [G.add_node(n)] *)
Definition add_node {A} (g : Graph A) (n : nat) : Graph A :=
  if decide (n ∈ nodes g) then g
  else mkGraph (directed g) (adj g ++ [(n, [])]).

(** [nbrs[v] = nbrs.get(v, a)]: an existing entry keeps its place and its
    attribute. *)
Definition put_nbr {A} (v : nat) (a : A) (nbrs : list (nat * A)) : list (nat * A) :=
  if decide (v ∈ nbrs.*1) then nbrs else nbrs ++ [(v, a)].

(** The same, in the dictionary of node [u]. *)
Definition adj_put {A} (u v : nat) (a : A) (l : list (nat * list (nat * A)))
  : list (nat * list (nat * A)) :=
  (λ na : nat * list (nat * A),
     if decide (na.1 = u) then (na.1, put_nbr v a na.2) else na) <$> l.

(** [G.add_edge(u, v)] with the attribute [a] of a new edge. *)
Definition add_edge {A} (g : Graph A) (u v : nat) (a : A) : Graph A :=
  let g' := add_node (add_node g u) v in
  mkGraph (directed g')
    (if directed g' then adj_put u v a (adj g')
     else adj_put v u a (adj_put u v a (adj g'))).

(** [nbrs[v] = a] for a neighbour that is present. *)
Definition set_nbr {A} (v : nat) (a : A) (nbrs : list (nat * A)) : list (nat * A) :=
  (λ va : nat * A, if decide (va.1 = v) then (va.1, a) else va) <$> nbrs.

Definition adj_set {A} (u v : nat) (a : A) (l : list (nat * list (nat * A)))
  : list (nat * list (nat * A)) :=
  (λ na : nat * list (nat * A),
     if decide (na.1 = u) then (na.1, set_nbr v a na.2) else na) <$> l.

(** Assigning the attribute of the edge [(u, v)]: in an undirected graph
    the attribute object is shared by [adj[u][v]] and [adj[v][u]]. *)
Definition set_attr {A} (g : Graph A) (u v : nat) (a : A) : Graph A :=
  mkGraph (directed g)
    (if directed g then adj_set u v a (adj g)
     else adj_set v u a (adj_set u v a (adj g))).

Definition nx_add_nodes_from {A} (l : list nat) : M (Graph A) unit :=
  λ g, (foldl add_node g l, Ok tt).
Definition nx_add_edge (u v : nat) : M (Graph (option Z)) unit :=
  λ g, (add_edge g u v None, Ok tt).
Definition nx_set_weight (u v : nat) (w : Z) : M (Graph (option Z)) unit :=
  λ g, (set_attr g u v (Some w), Ok tt).

(** ** The random generator *)

(** The state of the random module is the stream of its future raw draws;
    every function of the module consumes one. *)
Definition rng : Type := nat → N.

Definition draw (r : rng) : N * rng := (r O, λ i, r (S i)).

Definition on_graph {A B} (f : M (Graph A) B) : M (Graph A * rng) B :=
  λ st, let '(g', res) := f st.1 in ((g', st.2), res).

(** [random.choice(l)] *)
Definition random_choice {S A} (l : list A) : M (S * rng) A :=
  λ st,
    match l with
    | [] => (st, Raise IndexError)
    | x :: _ =>
        let '(raw, r') := draw st.2 in
        ((st.1, r'), Ok (nth (N.to_nat (raw mod N.of_nat (length l))) l x))
    end.

(** [random.random()]: a multiple of 2^-53 in [0, 1). *)
Definition random_random {S} : M (S * rng) Q :=
  λ st,
    let '(raw, r') := draw st.2 in
    ((st.1, r'), Ok (Qmake (Z.of_N (raw mod 2 ^ 53)) (2 ^ 53))).

(** [random.randint(a, b)] *)
Definition random_randint {S} (a b : Z) : M (S * rng) Z :=
  λ st,
    let '(raw, r') := draw st.2 in
    ((st.1, r'), Ok (a + Z.of_N raw mod (b - a + 1))).

Definition Qltb (x y : Q) : bool := negb (Qle_bool y x).

(** [for x in l: body(x)] on a mutable object. *)
Fixpoint for_eachM {S A} (l : list A) (body : A → M S unit) : M S unit :=
  match l with
  | [] => mret tt
  | x :: l' => body x;; for_eachM l' body
  end.

(** ** gnp_random_connected_graph *)

(** [itertools.combinations(l, 2)] *)
Fixpoint combinations2 (l : list nat) : list (nat * nat) :=
  match l with
  | [] => []
  | x :: l' => (pair x <$> l') ++ combinations2 l'
  end.

(** [itertools.groupby(l, key)]: the maximal runs of equal key. *)
Fixpoint groupby {A} (key : A → nat) (l : list A) : list (nat * list A) :=
  match l with
  | [] => []
  | x :: l' =>
      match groupby key l' with
      | (k, grp) :: gs =>
          if decide (k = key x) then (k, x :: grp) :: gs
          else (key x, [x]) :: (k, grp) :: gs
      | [] => [(key x, [x])]
      end
  end.

(** The inner loop of lines 96-98. *)
Definition completeness_loop (completeness : Q) (node_edges : list (nat * nat))
  : M (Graph (option Z) * rng) unit :=
  for_eachM node_edges (λ e,
    r ← random_random;
    if Qltb r completeness then on_graph (nx_add_edge e.1 e.2) else mret tt).

(** The body of the loop over the groups, lines 91-98. *)
Definition group_body (completeness : Q) (node_edges : list (nat * nat))
  : M (Graph (option Z) * rng) unit :=
  random_edge ← random_choice node_edges;
  r ← random_random;
  let random_edge :=
    if Qltb r (Qmake 1 2) then (random_edge.2, random_edge.1) else random_edge in
  on_graph (nx_add_edge random_edge.1 random_edge.2);;
  completeness_loop completeness node_edges.

(** Lines 87-101, on the graph object [G] and the random state. *)
Definition gnp_body (num_of_nodes : nat) (completeness : Q)
  : M (Graph (option Z) * rng) unit :=
  let edges := combinations2 (seq 0 num_of_nodes) in
  on_graph (nx_add_nodes_from (seq 0 num_of_nodes));;
  for_eachM (groupby fst edges) (λ grp, group_body completeness grp.2);;
  es ← on_graph nx_edges;
  for_eachM es (λ e : nat * nat * option Z,
    w ← random_randint (-5) 20;
    on_graph (nx_set_weight e.1.1 e.1.2 w)).

(** The function itself; [draw] is left at its default, drawing nothing. *)
Definition gnp_random_connected_graph
    (num_of_nodes : nat) (completeness : Q) (directed : bool)
  : M rng (Graph (option Z)) :=
  λ r,
    match gnp_body num_of_nodes completeness (mkGraph directed [], r) with
    | ((g, r'), Ok _) => (r', Ok g)
    | ((_, r'), Raise e) => (r', Raise e)
    end.

(** ** Walks in the graph seen by the engines *)

Section Walks.
Variable E : list (nat * nat * Z).

(** [walk u l v c]: starting at [u] and visiting the nodes of [l] in turn
    along edges of [E] ends at [v], with total weight [c]. *)
Inductive walk : nat → list nat → nat → Z → Prop :=
| walk_nil u : walk u [] u 0
| walk_cons u x l v w c :
    (u, x, w) ∈ E → walk x l v c → walk u (x :: l) v (w + c).

Definition reachable (s v : nat) : Prop := ∃ l c, walk s l v c.

(** A negative cycle: a closed walk of negative weight. *)
Definition negative_cycle_at (u : nat) : Prop := ∃ l c, walk u l u c ∧ c < 0.

Definition no_negative_cycle : Prop := ∀ u l c, walk u l u c → 0 ≤ c.

Definition negative_cycle_reachable (s : nat) : Prop :=
  ∃ u, reachable s u ∧ negative_cycle_at u.

Definition no_negative_cycle_from (s : nat) : Prop :=
  ∀ u l c, reachable s u → walk u l u c → 0 ≤ c.

(** [walkK k u v c]: a walk of at least one edge from [u] to [v] all of
    whose intermediate nodes are below [k]. *)
Inductive walkK (k : nat) : nat → nat → Z → Prop :=
| walkK_edge u v w : (u, v, w) ∈ E → walkK k u v w
| walkK_step u x v w c :
    (u, x, w) ∈ E → (x < k)%nat → walkK k x v c → walkK k u v (w + c).
End Walks.

(** ** What the claims talk about *)

(** The invariants networkx keeps: distinct nodes, distinct neighbours, and
    every neighbour is a node. *)
Definition wf_graph {A} (g : Graph A) : Prop :=
  NoDup (nodes g) ∧
  Forall (λ na : nat * list (nat * A),
            NoDup (na.2.*1) ∧ Forall (λ va : nat * A, va.1 ∈ nodes g) na.2)
         (adj g).

(** The node labels are exactly 0 .. N-1. *)
Definition nodes_range {A} (g : Graph A) : Prop :=
  ∀ v, v ∈ nodes g ↔ (v < length (nodes g))%nat.

(** [m[i][j]] of a matrix, when in range. *)
Definition cell (m : list (list dist)) (i j : nat) : option dist :=
  m !! i ≫= (.!! j).

Definition square (n : nat) (m : list (list dist)) : Prop :=
  length m = n ∧ Forall (λ row, length row = n) m.

(** ** The engines as functions of what they read *)

Fixpoint passes (es : list (nat * nat * Z)) (n : nat) (d : gmap nat dist)
  : result (gmap nat dist) :=
  match n with
  | O => Ok d
  | S n' => d' ← for_each relax es d; passes es n' d'
  end.

(** What [bellman_ford] returns, as a function of what it reads. *)
Definition bellman_ford_result (ns : list nat) (es : list (nat * nat * Z))
    (source : nat) : result (gmap nat dist) :=
  d ← passes es (length ns - 1) (<[source := Fin 0]> (inf_dict ns));
  for_each check es d.

(** What [floyd_warshall] returns, as a function of what it reads. *)
Definition floyd_warshall_result (n : nat) (es : list (nat * nat * Z))
  : result (list (list dist)) :=
  m ← fw_init n es;
  for_each (fw_stage n) (seq 0 n) m.

(** ** The engines in exact arithmetic

    The sum in the integers extended with +infinity, where +infinity
    absorbs every integer and nothing raises, and the loops of the engines
    with that sum in place of Python's.  The statements use the sum; the
    proofs go through the loops: an engine either behaves as its exact
    counterpart or raises [OverflowError]. *)

(** [a + w] in the extended integers. *)
Definition ext_add (a : dist) (w : Z) : dist :=
  match a with
  | Fin x => Fin (x + w)
  | Inf => Inf
  end.

(** [a + b] in the extended integers. *)
Definition ext_plus (a b : dist) : dist :=
  match a, b with
  | Fin x, Fin y => Fin (x + y)
  | _, _ => Inf
  end.

(** A distance that can be added to +infinity. *)
Definition dist_converts (a : dist) : bool :=
  match a with
  | Fin x => converts x
  | Inf => true
  end.

Definition ideal_relax (d : gmap nat dist) (e : nat * nat * Z)
  : result (gmap nat dist) :=
  let '(u, v, weight) := e in
  du ← getitem d u;
  dv ← getitem d v;
  if dist_ltb (ext_add du weight) dv
  then Ok (<[v := ext_add du weight]> d)
  else Ok d.

Definition ideal_check (d : gmap nat dist) (e : nat * nat * Z)
  : result (gmap nat dist) :=
  let '(u, v, weight) := e in
  du ← getitem d u;
  dv ← getitem d v;
  if dist_ltb (ext_add du weight) dv
  then Raise (ValueError negative_cycle_msg)
  else Ok d.

Fixpoint ideal_passes (es : list (nat * nat * Z)) (n : nat) (d : gmap nat dist)
  : result (gmap nat dist) :=
  match n with
  | O => Ok d
  | S n' => d' ← for_each ideal_relax es d; ideal_passes es n' d'
  end.

Definition ideal_bellman_ford (ns : list nat) (es : list (nat * nat * Z))
    (source : nat) : result (gmap nat dist) :=
  d ← ideal_passes es (length ns - 1) (<[source := Fin 0]> (inf_dict ns));
  for_each ideal_check es d.

Definition ideal_relax_cell (k i : nat) (m : list (list dist)) (j : nat)
  : result (list (list dist)) :=
  dij ← getcell m i j;
  dik ← getcell m i k;
  dkj ← getcell m k j;
  setcell m i j (dist_min dij (ext_plus dik dkj)).

Definition ideal_fw_row (n k : nat) (m : list (list dist)) (i : nat) :=
  for_each (ideal_relax_cell k i) (seq 0 n) m.

Definition ideal_fw_stage (n : nat) (m : list (list dist)) (k : nat) :=
  for_each (ideal_fw_row n k) (seq 0 n) m.

Definition ideal_floyd_warshall (n : nat) (es : list (nat * nat * Z))
  : result (list (list dist)) :=
  m ← fw_init n es;
  for_each (ideal_fw_stage n) (seq 0 n) m.

(** The weights of a graph are bounded by [W], and [W] times the number of
    nodes converts to a float: no sum along a path without repeated node is
    too large to be added to +infinity. *)
Definition weights_within (g : Graph Z) (W : Z) : Prop :=
  (∀ u v w, (u, v, w) ∈ edges g → - W ≤ w ≤ W) ∧
  Z.of_nat (length (nodes g)) * W < float_limit.

(** Every weight converts to a float. *)
Definition weights_convert (g : Graph Z) : Prop :=
  ∀ u v w, (u, v, w) ∈ edges g → converts w = true.

(** The edges as a walk may take them: an undirected edge is reported once
    and can be taken in both directions. *)
Definition traversals (g : Graph Z) : list (nat * nat * Z) :=
  if directed g then edges g
  else edges g ++ ((λ e : nat * nat * Z, (e.1.2, e.1.1, e.2)) <$> edges g).

(** ** Invariants of Bellman-Ford *)

(** [d[v]], read as +infinity for an absent key. *)
Definition dval (d : gmap nat dist) (v : nat) : dist := default Inf (d !! v).

(** The dictionary before the first pass. *)
Definition bf_init (ns : list nat) (source : nat) : gmap nat dist :=
  <[source := Fin 0]> (inf_dict ns).

Section BellmanFordInvariants.
Variable E : list (nat * nat * Z).
Variable s : nat.

(** Every finite entry is the weight of a walk from the source. *)
Definition sound (d : gmap nat dist) : Prop :=
  ∀ v c, d !! v = Some (Fin c) → ∃ l, walk E s l v c.

(** The dictionary [d] has the keys of [d0] and entries no larger. *)
Definition below (d0 d : gmap nat dist) : Prop :=
  dom d = dom d0 ∧ ∀ v, dist_le (dval d v) (dval d0 v).

Definition keys_ok (d : gmap nat dist) (es : list (nat * nat * Z)) : Prop :=
  ∀ u v w, (u, v, w) ∈ es → u ∈ dom d ∧ v ∈ dom d.

(** Entries bounded by the weight of every walk of at most [j] edges. *)
Definition within (j : nat) (d : gmap nat dist) : Prop :=
  ∀ l v c, walk E s l v c → (length l ≤ j)%nat → dist_le (dval d v) (Fin c).
End BellmanFordInvariants.

(** ** Invariants of Floyd-Warshall *)

(** [m[i][j]], read as +infinity out of range. *)
Definition mval (m : list (list dist)) (i j : nat) : dist := default Inf (cell m i j).

Section FloydWarshallInvariants.
Variable E : list (nat * nat * Z).
Variable n : nat.

(** Every finite cell is the weight of a walk. *)
Definition msound (m : list (list dist)) : Prop :=
  ∀ i j c, mval m i j = Fin c → ∃ l, walk E i l j c.

Definition mle (m m0 : list (list dist)) : Prop :=
  ∀ i j, dist_le (mval m i j) (mval m0 i j).

(** Cells bounded by the weight of the empty walk and of every walk whose
    intermediate nodes are below [k]. *)
Definition mwithin (k : nat) (m : list (list dist)) : Prop :=
  (∀ i, (i < n)%nat → dist_le (mval m i i) (Fin 0)) ∧
  ∀ i j c, (i < n)%nat → (j < n)%nat → walkK E k i j c →
           dist_le (mval m i j) (Fin c).

(** A finite cell off the diagonal joins two nodes linked by a walk whose
    intermediate nodes are below [k]. *)
Definition mreach (k : nat) (m : list (list dist)) : Prop :=
  ∀ i j c, (i < n)%nat → (j < n)%nat → mval m i j = Fin c →
           i = j ∨ ∃ c', walkK E k i j c'.
End FloydWarshallInvariants.

Definition msym (n : nat) (m : list (list dist)) : Prop :=
  ∀ a b, (a < n)%nat → (b < n)%nat → mval m a b = mval m b a.

(** A stage of the triple loop updates the matrix in place, so a cell read
    during stage [k] may already have been rewritten in that stage.  Only
    row [k] and column [k] are read, and a cell is rewritten before another
    reads it exactly when it comes first in row-major order. *)
Section Stage.
Variable n k : nat.
Variable m0 : list (list dist).

(** Cell (k,k) as read from a cell that comes after it ([true]) or before
    it ([false]). *)
Definition kk_read (after : bool) : dist :=
  if after
  then dist_min (mval m0 k k) (ext_plus (mval m0 k k) (mval m0 k k))
  else mval m0 k k.

(** Cell (i,k) and cell (k,j) once rewritten. *)
Definition col_val (i : nat) : dist :=
  dist_min (mval m0 i k) (ext_plus (mval m0 i k) (kk_read (k <? i)%nat)).
Definition row_val (j : nat) : dist :=
  dist_min (mval m0 k j) (ext_plus (kk_read (k <? j)%nat) (mval m0 k j)).

(** Cell (i,j) once rewritten. *)
Definition stage_val (i j : nat) : dist :=
  dist_min (mval m0 i j)
    (ext_plus (if (k <? j)%nat then col_val i else mval m0 i k)
               (if (k <? i)%nat then row_val j else mval m0 k j)).

(** The matrix when the cells before (i', j') have been rewritten. *)
Definition stage_at (i' j' : nat) (m : list (list dist)) : Prop :=
  square n m ∧
  ∀ a b, (a < n)%nat → (b < n)%nat →
    mval m a b
    = if decide (a < i' ∨ a = i' ∧ b < j')%nat then stage_val a b else mval m0 a b.
End Stage.

(** ** Adjacency, connectivity and the per-pair check *)

(** [v in adj[u]] *)
Definition has_adj {A} (l : list (nat * list (nat * A))) (u v : nat) : Prop :=
  ∃ nbrs, (u, nbrs) ∈ l ∧ v ∈ nbrs.*1.

Definition has_edge {A} (g : Graph A) (u v : nat) : Prop := has_adj (adj g) u v.

(** The graph during generation: its kind, its nodes 0 .. n-1, and, when
    undirected, a symmetric adjacency. *)
Definition ginv {A} (n : nat) (d : bool) (g : Graph A) : Prop :=
  directed g = d ∧ nodes g = seq 0 n ∧
  (d = false → ∀ x y, has_edge g x y → has_edge g y x).

Definition sub_graph {A} (g g' : Graph A) : Prop :=
  ∀ x y, has_edge g x y → has_edge g' x y.

(** Two nodes joined by an edge, in either direction. *)
Definition linked {A} (g : Graph A) (u v : nat) : Prop :=
  (u, v) ∈ (edges g).*1 ∨ (v, u) ∈ (edges g).*1.

(** One connected component: there is a node, and any two nodes are joined
    by a chain of edges. *)
Definition connected {A} (g : Graph A) : Prop :=
  nodes g ≠ [] ∧ ∀ u v, u ∈ nodes g → v ∈ nodes g → rtc (linked g) u v.

(** The pairs of [l] whose draw of [random.random()] is below
    [completeness], one draw per pair, in the order of [l]. *)
Fixpoint accepted (completeness : Q) (l : list (nat * nat)) (r : rng)
  : list (nat * nat) :=
  match l with
  | [] => []
  | e :: l' =>
      if Qltb (Qmake (Z.of_N ((draw r).1 mod 2 ^ 53)) (2 ^ 53)) completeness
      then e :: accepted completeness l' (draw r).2
      else accepted completeness l' (draw r).2
  end.

#[global] Instance wf_graph_dec {A} (g : Graph A) : Decision (wf_graph g).
Proof. unfold wf_graph. apply _. Defined.

(** ** Examples *)

Definition digraph (l : list (nat * list (nat * Z))) : Graph Z := mkGraph true l.
Definition ungraph (l : list (nat * list (nat * Z))) : Graph Z := mkGraph false l.

(** Nodes 0, 1, 2 and edges 0->1 (4), 1->2 (3), 0->2 (10). *)
Definition fixture : Graph Z :=
  digraph [(0%nat, [(1%nat, 4); (2%nat, 10)]); (1%nat, [(2%nat, 3)]); (2%nat, [])].

(** Nodes 0, 1, 2 and edges 0->1 (1), 1->2 (-3), 2->0 (1). *)
Definition neg_triangle : Graph Z :=
  digraph [(0%nat, [(1%nat, 1)]); (1%nat, [(2%nat, -3)]); (2%nat, [(0%nat, 1)])].

(** Nodes 0, 1 and edges 0->1 (-1), 1->0 (-1): a negative cycle. *)
Definition neg_pair : Graph Z :=
  digraph [(0%nat, [(1%nat, -1)]); (1%nat, [(0%nat, -1)])].

(** The undirected graph on nodes 0, 1 with the single edge {0, 1} of
    weight 1. *)
Definition un_pair : Graph Z :=
  ungraph [(0%nat, [(1%nat, 1)]); (1%nat, [(0%nat, 1)])].

(** Nodes 0, 1 and edges 0->1 (1), 1->0 (1). *)
Definition di_pair : Graph Z :=
  digraph [(0%nat, [(1%nat, 1)]); (1%nat, [(0%nat, 1)])].

(** The fixture graph built in another order. *)
Definition fixture_rev : Graph Z :=
  digraph [(2%nat, []); (1%nat, [(2%nat, 3)]); (0%nat, [(2%nat, 10); (1%nat, 4)])].

(** The undirected path 0 - 1 - 2 with weights -1 and -2. *)
Definition un_path : Graph Z :=
  ungraph [(0%nat, [(1%nat, -1)]); (1%nat, [(0%nat, -1); (2%nat, -2)]);
           (2%nat, [(1%nat, -2)])].

(** Nodes 0 and 5 and the edge 0->5 (1): the labels are not 0, 1. *)
Definition gap_graph : Graph Z :=
  digraph [(0%nat, [(5%nat, 1)]); (5%nat, [])].

(** An integer that does not convert to a float. *)
Definition heavy : Z := 2 ^ 1100.

(** Nodes 0, 1 and the edge 0->1 ([heavy]). *)
Definition heavy_pair : Graph Z :=
  digraph [(0%nat, [(1%nat, heavy)]); (1%nat, [])].

(** Nodes 0, 1, 2 and the edge 1->2 ([heavy]), out of reach of node 0. *)
Definition heavy_far : Graph Z :=
  digraph [(0%nat, []); (1%nat, [(2%nat, heavy)]); (2%nat, [])].

(** ** Properties kept during generation *)

(** The graph after [G.add_nodes_from(range(n))]. *)
Definition empty_graph (n : nat) (d : bool) : Graph (option Z) :=
  mkGraph d ((λ i, (i, [])) <$> seq 0 n).

(** A property that survives adding an edge between two distinct nodes of a
    graph on the nodes 0 .. n-1. *)
Definition add_stable (n : nat) (P : Graph (option Z) → Prop) : Prop :=
  ∀ g u v, nodes g = seq 0 n → (u < n)%nat → (v < n)%nat → u ≠ v →
           P g → P (add_edge g u v None).

(** [adj[u][v]] holds the attribute [a]. *)
Definition entry {A} (g : Graph A) (u v : nat) (a : A) : Prop :=
  ∃ nbrs, (u, nbrs) ∈ adj g ∧ (v, a) ∈ nbrs.

(** The adjacency without the attributes. *)
Definition skeleton {A} (g : Graph A) : list (nat * list nat) :=
  (λ na : nat * list (nat * A), (na.1, na.2.*1)) <$> adj g.

(** The body of the loop of lines 100-101. *)
Definition weight_body (e : nat * nat * option Z) : M (Graph (option Z) * rng) unit :=
  w ← random_randint (-5) 20;
  on_graph (nx_set_weight e.1.1 e.1.2 w).

(** The graph as the engines read it: [edges(data='weight')] gives the
    weight of every edge, so a graph all of whose edges carry one is read
    as a graph with integer weights. *)
Definition weighted_nbrs (nbrs : list (nat * option Z)) : option (list (nat * Z)) :=
  mapM (λ va : nat * option Z, w ← va.2; Some (va.1, w)) nbrs.

Definition weighted (g : Graph (option Z)) : option (Graph Z) :=
  l ← mapM (λ na : nat * list (nat * option Z),
              nbrs ← weighted_nbrs na.2; Some (na.1, nbrs)) (adj g);
  Some (mkGraph (directed g) l).

(** No self-loop, and only nodes below [n]. *)
Definition loop_free {A} (n : nat) (g : Graph A) : Prop :=
  ∀ x y, has_edge g x y → x ≠ y ∧ (x < n)%nat ∧ (y < n)%nat.

(** Two nodes with an entry in the adjacency, in one direction or the
    other. *)
Definition adjacent {A} (g : Graph A) (x y : nat) : Prop :=
  has_edge g x y ∨ has_edge g y x.

(** Only nodes below [t] have a higher neighbour, and they have one. *)
Definition tree_upto {A} (n t : nat) (g : Graph A) : Prop :=
  nodes g = seq 0 n ∧
  ∀ x y, adjacent g x y → (x < y)%nat →
         (x < t)%nat ∧ (y < n)%nat ∧
         ∀ y', adjacent g x y' → (x < y')%nat → y' = y.

(** * Proofs *)

(** ** The examples of the specification *)

Example fixture_bellman_ford :
  (bellman_ford 0 fixture).2
  = Ok (<[0%nat := Fin 0]> (<[1%nat := Fin 4]> (<[2%nat := Fin 7]> ∅))).
Proof. vm_compute. reflexivity. Qed.

Example fixture_floyd_warshall :
  (floyd_warshall fixture).2
  = Ok [[Fin 0; Fin 4; Fin 7]; [Inf; Fin 0; Fin 3]; [Inf; Inf; Fin 0]].
Proof. vm_compute. reflexivity. Qed.

(** ** Arithmetic on distances *)

Lemma dist_le_refl a : dist_le a a.
Proof. destruct a; simpl; lia. Qed.

Lemma dist_le_trans a b c : dist_le a b → dist_le b c → dist_le a c.
Proof. destruct a, b, c; simpl; try lia; tauto. Qed.

Lemma dist_le_antisym a b : dist_le a b → dist_le b a → a = b.
Proof. destruct a, b; simpl; try tauto. intros. f_equal. lia. Qed.

Lemma dist_le_Inf a : dist_le a Inf.
Proof. by destruct a. Qed.

Lemma dist_ltb_false a b : dist_ltb a b = false ↔ dist_le b a.
Proof. destruct a, b; simpl; rewrite ?Z.ltb_ge; intuition congruence. Qed.

Lemma dist_ltb_true a b : dist_ltb a b = true → dist_le a b.
Proof. destruct a, b; simpl; rewrite ?Z.ltb_lt; try done. lia. Qed.

Lemma ext_add_mono a b w : dist_le a b → dist_le (ext_add a w) (ext_add b w).
Proof. destruct a, b; simpl; try done. lia. Qed.

Lemma ext_plus_mono a a' b b' :
  dist_le a a' → dist_le b b' → dist_le (ext_plus a b) (ext_plus a' b').
Proof. destruct a, a', b, b'; simpl; try done. lia. Qed.

Lemma ext_plus_comm a b : ext_plus a b = ext_plus b a.
Proof. destruct a, b; simpl; try done. f_equal. lia. Qed.

Lemma dist_min_le_l a b : dist_le (dist_min a b) a.
Proof.
  unfold dist_min. destruct (dist_ltb b a) eqn:H.
  - by apply dist_ltb_true.
  - apply dist_le_refl.
Qed.

Lemma dist_min_le_r a b : dist_le (dist_min a b) b.
Proof.
  unfold dist_min. destruct (dist_ltb b a) eqn:H.
  - apply dist_le_refl.
  - by apply dist_ltb_false.
Qed.

Lemma dist_min_cases a b : dist_min a b = a ∨ dist_min a b = b.
Proof. unfold dist_min. destruct (dist_ltb b a); auto. Qed.

(** ** Loops *)

(** A loop whose body keeps an invariant of the state and never raises
    does not raise and keeps the invariant. *)
Lemma for_each_inv {A S} (P : S → Prop) (body : S → A → result S) l s :
  P s →
  (∀ s x, x ∈ l → P s → ∃ s', body s x = Ok s' ∧ P s') →
  ∃ s', for_each body l s = Ok s' ∧ P s'.
Proof.
  revert s. induction l as [|x l IH]; intros s Hs Hbody; simpl.
  - eauto.
  - destruct (Hbody s x) as (s' & -> & Hs'); [left | done |].
    simpl. apply IH; [done |]. intros s0 y Hy. apply Hbody. by right.
Qed.

(** The same with an invariant that follows the elements already
    processed. *)
Lemma for_each_inv_prefix {A S} (P : list A → S → Prop)
    (body : S → A → result S) l s :
  P [] s →
  (∀ pre x post s, l = pre ++ x :: post → P pre s →
     ∃ s', body s x = Ok s' ∧ P (pre ++ [x]) s') →
  ∃ s', for_each body l s = Ok s' ∧ P l s'.
Proof.
  intros H0 Hbody.
  cut (∀ pre post s, l = pre ++ post → P pre s →
         ∃ s', for_each body post s = Ok s' ∧ P l s').
  { intros Hcut. by apply (Hcut [] l s). }
  intros pre post. revert pre. induction post as [|x post IH]; intros pre s1 Hl Hs1.
  - rewrite app_nil_r in Hl. subst pre. simpl. eauto.
  - destruct (Hbody pre x post s1 Hl Hs1) as (s' & Hb & Hs'). simpl. rewrite Hb. simpl.
    apply (IH (pre ++ [x])); [| done]. by rewrite <- app_assoc.
Qed.

(** ** The engines only read the graph *)




Lemma relax_passes_run n d g :
  relax_passes n d g = (g, passes (edges g) n d).
Proof.
  revert d. induction n as [|n IH]; intros d; simpl; [done |].
  unfold mbind, M_bind, nx_edges, lift. simpl.
  destruct (for_each relax (edges g) d) as [d' | e]; simpl; [apply IH | done].
Qed.

Lemma bellman_ford_run source g :
  bellman_ford source g = (g, bellman_ford_result (nodes g) (edges g) source).
Proof.
  unfold bellman_ford, bellman_ford_result, mbind, M_bind, nx_nodes, nx_edges, lift.
  simpl. rewrite relax_passes_run.
  destruct (passes _ _ _) as [d | e]; simpl; [| done].
  by destruct (for_each check (edges g) d).
Qed.

Lemma floyd_warshall_run g :
  floyd_warshall g = (g, floyd_warshall_result (length (nodes g)) (edges g)).
Proof.
  unfold floyd_warshall, floyd_warshall_result, mbind, M_bind, nx_nodes, nx_edges, lift.
  simpl. destruct (fw_init _ _) as [m | e]; simpl; [| done].
  by destruct (for_each _ _ m).
Qed.

(** ** The engines and their exact counterparts *)

Lemma float_limit_pos : 0 < float_limit.
Proof. by vm_compute. Qed.

Lemma converts_spec n : converts n = true ↔ - float_limit < n < float_limit.
Proof. unfold converts. rewrite Z.ltb_lt. lia. Qed.

Lemma dist_add_sim a w :
  dist_add a w = Ok (ext_add a w) ∨ dist_add a w = Raise OverflowError.
Proof. destruct a; simpl; [by left |]. destruct (converts w); auto. Qed.

Lemma dist_add_converts a w :
  converts w = true → dist_add a w = Ok (ext_add a w).
Proof. intros H. destruct a; simpl; [done |]. by rewrite H. Qed.

Lemma dist_plus_sim a b :
  dist_plus a b = Ok (ext_plus a b) ∨ dist_plus a b = Raise OverflowError.
Proof. destruct a, b; simpl; auto; destruct (converts _); auto. Qed.

Lemma dist_plus_converts a b :
  dist_converts a = true → dist_converts b = true →
  dist_plus a b = Ok (ext_plus a b).
Proof. destruct a, b; simpl; intros Ha Hb; rewrite ?Ha, ?Hb; done. Qed.

(** A loop whose body behaves as another one or raises [e] behaves as the
    loop of the other one or raises [e]. *)
Lemma for_each_sim {A S} (body ibody : S → A → result S) e l s :
  (∀ s x, x ∈ l → body s x = ibody s x ∨ body s x = Raise e) →
  for_each body l s = for_each ibody l s ∨ for_each body l s = Raise e.
Proof.
  revert s. induction l as [|x l IH]; intros s Hbody; simpl; [by left |].
  destruct (Hbody s x) as [-> | ->]; [left | | by right].
  destruct (ibody s x) as [s' | e']; simpl; [| by left].
  apply IH. intros s0 y Hy. apply Hbody. by right.
Qed.

Lemma for_each_ext {A S} (body ibody : S → A → result S) l s :
  (∀ s x, x ∈ l → body s x = ibody s x) →
  for_each body l s = for_each ibody l s.
Proof.
  revert s. induction l as [|x l IH]; intros s Hbody; simpl; [done |].
  rewrite (Hbody s x) by left.
  destruct (ibody s x) as [s' | e']; simpl; [| done].
  apply IH. intros s0 y Hy. apply Hbody. by right.
Qed.

(** Two bodies that agree along the run of the second one, which keeps an
    invariant following the elements already processed. *)
Lemma for_each_agree {A S} (P : list A → S → Prop)
    (body ibody : S → A → result S) l s :
  P [] s →
  (∀ pre x post s, l = pre ++ x :: post → P pre s →
     body s x = ibody s x ∧ ∃ s', ibody s x = Ok s' ∧ P (pre ++ [x]) s') →
  for_each body l s = for_each ibody l s.
Proof.
  intros H0 Hbody.
  cut (∀ pre post s, l = pre ++ post → P pre s →
         for_each body post s = for_each ibody post s).
  { intros Hcut. by apply (Hcut [] l s). }
  intros pre post. revert pre. induction post as [|x post IH]; intros pre s1 Hl Hs1.
  - done.
  - destruct (Hbody pre x post s1 Hl Hs1) as (Heq & s' & Hb & Hs'). simpl.
    rewrite Heq, Hb. simpl.
    apply (IH (pre ++ [x])); [| done]. by rewrite <- app_assoc.
Qed.

Lemma relax_sim d e :
  relax d e = ideal_relax d e ∨ relax d e = Raise OverflowError.
Proof.
  destruct e as [[u v] w]. unfold relax, ideal_relax, getitem.
  destruct (d !! u) as [[x|]|]; cbn [mbind result_bind dist_add ext_add];
    [| | by left].
  - destruct (d !! v) as [dv|]; cbn [mbind result_bind]; [| by left].
    destruct (dist_ltb (Fin (x + w)) dv); by left.
  - destruct (converts w); cbn [mbind result_bind]; [| by right].
    destruct (d !! v) as [dv|]; cbn [mbind result_bind dist_ltb]; by left.
Qed.

Lemma check_sim d e :
  check d e = ideal_check d e ∨ check d e = Raise OverflowError.
Proof.
  destruct e as [[u v] w]. unfold check, ideal_check, getitem.
  destruct (d !! u) as [[x|]|]; simpl; [| | by left].
  - destruct (d !! v) as [dv|]; simpl; by left.
  - destruct (converts w); simpl; [| by right].
    destruct (d !! v) as [dv|]; simpl; by left.
Qed.

Lemma relax_converts d u v w :
  converts w = true → relax d (u, v, w) = ideal_relax d (u, v, w).
Proof.
  intros Hw. unfold relax, ideal_relax, getitem.
  destruct (d !! u) as [[x|]|]; cbn [mbind result_bind dist_add ext_add];
    [| | done].
  - destruct (d !! v) as [dv|]; cbn [mbind result_bind]; [| done].
    by destruct (dist_ltb (Fin (x + w)) dv).
  - rewrite Hw. cbn [mbind result_bind]. by destruct (d !! v).
Qed.

Lemma check_converts d u v w :
  converts w = true → check d (u, v, w) = ideal_check d (u, v, w).
Proof.
  intros Hw. unfold check, ideal_check, getitem.
  destruct (d !! u) as [[x|]|]; simpl; [| | done].
  - by destruct (d !! v).
  - rewrite Hw. simpl. by destruct (d !! v).
Qed.

Lemma passes_sim es n d :
  passes es n d = ideal_passes es n d ∨ passes es n d = Raise OverflowError.
Proof.
  revert d. induction n as [|n IH]; intros d; simpl; [by left |].
  destruct (for_each_sim relax ideal_relax OverflowError es d) as [-> | ->];
    [intros; apply relax_sim | | by right].
  destruct (for_each ideal_relax es d) as [d' | e]; simpl; [apply IH | by left].
Qed.

Lemma passes_converts es n d :
  (∀ u v w, (u, v, w) ∈ es → converts w = true) →
  passes es n d = ideal_passes es n d.
Proof.
  intros Hes. revert d. induction n as [|n IH]; intros d; simpl; [done |].
  rewrite (for_each_ext relax ideal_relax).
  - destruct (for_each ideal_relax es d) as [d' | e]; simpl; [apply IH | done].
  - intros d0 [[u v] w] Hin. apply relax_converts. by apply (Hes u v w).
Qed.

(** [bellman_ford] behaves as in exact arithmetic or raises
    [OverflowError]. *)
Lemma bellman_ford_sim ns es s :
  bellman_ford_result ns es s = ideal_bellman_ford ns es s ∨
  bellman_ford_result ns es s = Raise OverflowError.
Proof.
  unfold bellman_ford_result, ideal_bellman_ford.
  destruct (passes_sim es (length ns - 1) (<[s := Fin 0]> (inf_dict ns)))
    as [-> | ->]; [| by right].
  destruct (ideal_passes _ _ _) as [d | e]; simpl; [| by left].
  apply for_each_sim. intros; apply check_sim.
Qed.

(** It behaves as in exact arithmetic when every weight converts to a
    float. *)
Lemma bellman_ford_converts ns es s :
  (∀ u v w, (u, v, w) ∈ es → converts w = true) →
  bellman_ford_result ns es s = ideal_bellman_ford ns es s.
Proof.
  intros Hes. unfold bellman_ford_result, ideal_bellman_ford.
  rewrite passes_converts by done.
  destruct (ideal_passes _ _ _) as [d | e]; simpl; [| done].
  apply for_each_ext. intros d0 [[u v] w] Hin. apply check_converts.
  by apply (Hes u v w).
Qed.

Lemma relax_cell_sim k i m j :
  relax_cell k i m j = ideal_relax_cell k i m j ∨
  relax_cell k i m j = Raise OverflowError.
Proof.
  unfold relax_cell, ideal_relax_cell.
  destruct (getcell m i j) as [dij | e]; simpl; [| by left].
  destruct (getcell m i k) as [dik | e]; simpl; [| by left].
  destruct (getcell m k j) as [dkj | e]; simpl; [| by left].
  destruct (dist_plus_sim dik dkj) as [-> | ->]; [by left | by right].
Qed.

Lemma fw_row_sim n k m i :
  fw_row n k m i = ideal_fw_row n k m i ∨ fw_row n k m i = Raise OverflowError.
Proof. apply for_each_sim. intros; apply relax_cell_sim. Qed.

Lemma fw_stage_sim n m k :
  fw_stage n m k = ideal_fw_stage n m k ∨ fw_stage n m k = Raise OverflowError.
Proof. apply for_each_sim. intros; apply fw_row_sim. Qed.

(** [floyd_warshall] behaves as in exact arithmetic or raises
    [OverflowError]. *)
Lemma floyd_warshall_sim n es :
  floyd_warshall_result n es = ideal_floyd_warshall n es ∨
  floyd_warshall_result n es = Raise OverflowError.
Proof.
  unfold floyd_warshall_result, ideal_floyd_warshall.
  destruct (fw_init n es) as [m | e]; simpl; [| by left].
  apply for_each_sim. intros; apply fw_stage_sim.
Qed.

(** ** Walks *)

Section WalkFacts.
Variable E : list (nat * nat * Z).

Lemma walk_app u l1 x c1 l2 v c2 :
  walk E u l1 x c1 → walk E x l2 v c2 → walk E u (l1 ++ l2) v (c1 + c2).
Proof.
  induction 1 as [u | u y l x w c Hin Hw IH]; intros H2; simpl.
  - by replace (0 + c2) with c2 by lia.
  - replace (w + c + c2) with (w + (c + c2)) by lia.
    apply walk_cons; [done | by apply IH].
Qed.

Lemma walk_edge u v w : (u, v, w) ∈ E → walk E u [v] v w.
Proof.
  intros. replace w with (w + 0) by lia. apply walk_cons; [done | constructor].
Qed.

Lemma walk_snoc u l x c v w :
  walk E u l x c → (x, v, w) ∈ E → walk E u (l ++ [v]) v (c + w).
Proof. intros H1 H2. eapply walk_app; [done | by apply walk_edge]. Qed.

Lemma walk_last u l v c : walk E u l v c → last l = None ∧ u = v ∨ last l = Some v.
Proof.
  induction 1 as [u | u y l x w c Hin Hw IH]; [by left |].
  right. destruct IH as [[Hl ->] | Hl].
  - destruct l; [done |]. by rewrite last_cons in Hl; destruct (last l).
  - rewrite last_cons. by rewrite Hl.
Qed.

Lemma walk_split u l1 x l2 v c :
  walk E u (l1 ++ x :: l2) v c →
  ∃ c1 c2, walk E u (l1 ++ [x]) x c1 ∧ walk E x l2 v c2 ∧ c = c1 + c2.
Proof.
  revert u c. induction l1 as [|y l1 IH]; intros u c H; simpl in *.
  - inversion H as [| ? ? ? ? w c' Hin Hw]; subst.
    exists w, c'. split_and!; [by apply walk_edge | done | done].
  - inversion H as [| ? ? ? ? w c' Hin Hw]; subst.
    destruct (IH _ _ Hw) as (c1 & c2 & H1 & H2 & ->).
    exists (w + c1), c2. split_and!; [by apply walk_cons | done | lia].
Qed.

Lemma walk_snoc_inv u l v c :
  walk E u l v c → l ≠ [] →
  ∃ l' x c' w, l = l' ++ [v] ∧ walk E u l' x c' ∧ (x, v, w) ∈ E ∧ c = c' + w.
Proof.
  induction 1 as [u | u y l x w c Hin Hw IH]; intros Hne; [done |].
  destruct l as [|z l].
  - inversion Hw; subst. exists [], u, 0, w.
    split_and!; [done | constructor | done | lia].
  - destruct IH as (l' & x' & c' & w' & Hl & Hw' & Hin' & ->); [done |].
    exists (y :: l'), x', (w + c'), w'. rewrite Hl.
    split_and!; [done | by apply walk_cons | done | lia].
Qed.

(** Every node visited is the target of an edge; a walk that moves starts
    at the source of an edge. *)
Lemma walk_targets u l v c :
  walk E u l v c → Forall (λ x, ∃ y w, (y, x, w) ∈ E) l.
Proof. induction 1; constructor; eauto. Qed.

Lemma walk_source u l v c :
  walk E u l v c → l ≠ [] → ∃ x w, (u, x, w) ∈ E.
Proof. destruct 1; [done | eauto]. Qed.

Lemma reachable_refl s : reachable E s s.
Proof. exists [], 0. constructor. Qed.

Lemma reachable_trans s u v : reachable E s u → reachable E u v → reachable E s v.
Proof. intros (l1 & c1 & H1) (l2 & c2 & H2). eexists _, _. by eapply walk_app. Qed.

Lemma reachable_edge s u v w : reachable E s u → (u, v, w) ∈ E → reachable E s v.
Proof.
  intros Hs Hin. eapply reachable_trans; [done |].
  eexists _, _. by apply walk_edge.
Qed.

Lemma walkK_walk k u v c : walkK E k u v c → ∃ l, l ≠ [] ∧ walk E u l v c.
Proof.
  induction 1 as [u v w Hin | u x v w c Hin Hlt Hw (l & Hl & IH)].
  - exists [v]. split; [done | by apply walk_edge].
  - exists (x :: l). split; [done | by apply walk_cons].
Qed.

Lemma walkK_mono k k' u v c : (k ≤ k')%nat → walkK E k u v c → walkK E k' u v c.
Proof.
  intros Hk. induction 1; [by apply walkK_edge |].
  eapply walkK_step; [done | lia | done].
Qed.

Lemma walkK_app k u x v c1 c2 :
  (x < k)%nat → walkK E k u x c1 → walkK E k x v c2 → walkK E k u v (c1 + c2).
Proof.
  intros Hx H1 H2. induction H1 as [u x w Hin | u y x w c Hin Hlt Hw IH].
  - by eapply walkK_step.
  - replace (w + c + c2) with (w + (c + c2)) by lia.
    eapply walkK_step; [done | done | by apply IH].
Qed.

(** A walk all of whose nodes are below [n] is a [walkK n]. *)
Lemma walk_walkK n u l v c :
  walk E u l v c → l ≠ [] → Forall (λ x, (x < n)%nat) l → walkK E n u v c.
Proof.
  induction 1 as [u | u y l x w c Hin Hw IH]; intros Hne Hall; [done |].
  apply Forall_cons in Hall as [Hy Hall].
  destruct l as [|z l].
  - inversion Hw; subst. replace (w + 0) with w by lia. by apply walkK_edge.
  - eapply walkK_step; [done | done | by apply IH].
Qed.

(** Without negative cycles, going through [k] again never pays: a walk
    with intermediate nodes up to [k] either avoids [k] or is no better
    than a walk to [k] followed by a walk from [k], both avoiding it. *)
Lemma walkK_S k u v c :
  no_negative_cycle E → walkK E (S k) u v c →
  walkK E k u v c ∨
  ∃ c1 c2, walkK E k u k c1 ∧ walkK E k k v c2 ∧ c1 + c2 ≤ c.
Proof.
  intros Hneg. induction 1 as [u v w Hin | u x v w c Hin Hlt Hw IH].
  - left. by apply walkK_edge.
  - destruct (decide (x = k)) as [-> | Hxk].
    + right. destruct IH as [IH | (c1 & c2 & H1 & H2 & Hle)].
      * exists w, c. split_and!; [by apply walkK_edge | done | lia].
      * exists w, c2. split_and!; [by apply walkK_edge | done |].
        destruct (walkK_walk _ _ _ _ H1) as (l & _ & Hl).
        specialize (Hneg _ _ _ Hl). lia.
    + assert (x < k)%nat by lia.
      destruct IH as [IH | (c1 & c2 & H1 & H2 & Hle)].
      * left. by eapply walkK_step.
      * right. exists (w + c1), c2.
        split_and!; [by eapply walkK_step | done | lia].
Qed.

(** Every walk either contains a negative cycle or can be replaced by a
    walk that visits no node twice and weighs no more. *)
Lemma walk_simple s u l v c :
  reachable E s u → walk E u l v c →
  negative_cycle_reachable E s ∨
  ∃ l' c', walk E u l' v c' ∧ c' ≤ c ∧ NoDup (u :: l').
Proof.
  intros Hs H. induction H as [u | u x l v w c Hin Hw IH].
  - right. exists [], 0. split_and!; [constructor | lia |].
    apply NoDup_singleton.
  - destruct IH as [Hneg | (l' & c' & Hw' & Hle & Hnd)];
      [by eapply reachable_edge | by left |].
    destruct (decide (u ∈ x :: l')) as [Hu | Hu].
    + apply list_elem_of_split in Hu as (l1 & l2 & Hl).
      assert (walk E u (l1 ++ u :: l2) v (w + c')) as Hfull.
      { rewrite <- Hl. by apply walk_cons. }
      apply walk_split in Hfull as (c1 & c2 & H1 & H2 & Hc).
      destruct (decide (c1 < 0)) as [Hc1 | Hc1].
      * left. exists u. split; [done |]. by exists (l1 ++ [u]), c1.
      * right. exists l2, c2. split_and!; [done | lia |].
        rewrite Hl in Hnd. by apply NoDup_app in Hnd as (_ & _ & Hnd).
    + right. exists (x :: l'), (w + c').
      split_and!; [by apply walk_cons | lia | by apply NoDup_cons].
Qed.

Lemma no_negative_cycle_from_not s :
  no_negative_cycle_from E s → ¬ negative_cycle_reachable E s.
Proof.
  intros Hno (u & Hu & l & c & Hw & Hc). specialize (Hno u l c Hu Hw). lia.
Qed.

Lemma no_negative_cycle_from_all s :
  no_negative_cycle E → no_negative_cycle_from E s.
Proof. intros H u l c _. apply H. Qed.

(** Non-negative weights leave no negative cycle. *)
Lemma walk_nonneg u l v c :
  Forall (λ e : nat * nat * Z, 0 ≤ e.2) E → walk E u l v c → 0 ≤ c.
Proof.
  intros Hall. induction 1 as [| u x l v w c Hin Hw IH]; [lia |].
  rewrite Forall_forall in Hall. specialize (Hall _ Hin). simpl in Hall. lia.
Qed.

Lemma nonneg_no_negative_cycle :
  Forall (λ e : nat * nat * Z, 0 ≤ e.2) E → no_negative_cycle E.
Proof. intros Hall u l c. by apply walk_nonneg. Qed.
End WalkFacts.

(** ** Bellman-Ford in exact arithmetic *)


Lemma inf_dict_lookup ns v :
  inf_dict ns !! v = if decide (v ∈ ns) then Some Inf else None.
Proof.
  unfold inf_dict.
  cut (∀ d0 : gmap nat dist,
         foldl (λ d n, <[n := Inf]> d) d0 ns !! v
         = if decide (v ∈ ns) then Some Inf else d0 !! v).
  { intros H. rewrite H. by rewrite lookup_empty. }
  induction ns as [|n ns IH]; intros d0; cbn [foldl].
  - case_decide as Hin; [by apply elem_of_nil in Hin | done].
  - rewrite IH. destruct (decide (v ∈ ns)) as [Hin | Hin].
    + rewrite decide_True; [done | by right].
    + destruct (decide (v = n)) as [-> | Hne].
      * rewrite decide_True by left. by rewrite lookup_insert_eq.
      * rewrite decide_False by (by intros [? | ?]%elem_of_cons).
        by rewrite lookup_insert_ne.
Qed.

Lemma inf_dict_dom ns : dom (inf_dict ns) = list_to_set ns.
Proof.
  apply set_eq. intros v. rewrite elem_of_dom, inf_dict_lookup, elem_of_list_to_set.
  destruct (decide (v ∈ ns)) as [Hin | Hin]; split; intros H; try done.
Qed.

Section BellmanFord.
Variable E : list (nat * nat * Z).
Variable s : nat.

Local Abbreviation sound := (sound E s).
Local Abbreviation within := (within E s).





Lemma below_refl d : below d d.
Proof. split; [done |]. intros. apply dist_le_refl. Qed.

Lemma below_trans d0 d1 d2 : below d0 d1 → below d1 d2 → below d0 d2.
Proof.
  intros [Hd1 H1] [Hd2 H2]. split; [congruence |].
  intros v. eapply dist_le_trans; [apply H2 | apply H1].
Qed.

Lemma dval_Some d v x : d !! v = Some x → dval d v = x.
Proof. unfold dval. by intros ->. Qed.

Lemma dval_insert d v x u :
  dval (<[v := x]> d) u = if decide (v = u) then x else dval d u.
Proof. unfold dval. rewrite lookup_insert. by destruct (decide (v = u)). Qed.

Lemma lookup_dval d v : v ∈ dom d → d !! v = Some (dval d v).
Proof. intros [x Hx]%elem_of_dom. by rewrite (dval_Some _ _ _ Hx). Qed.

Lemma relax_eq d u v w :
  u ∈ dom d → v ∈ dom d →
  ideal_relax d (u, v, w)
  = Ok (if dist_ltb (ext_add (dval d u) w) (dval d v)
        then <[v := ext_add (dval d u) w]> d else d).
Proof.
  intros Hu Hv. unfold ideal_relax, getitem.
  rewrite (lookup_dval _ _ Hu), (lookup_dval _ _ Hv). simpl.
  by destruct (dist_ltb _ _).
Qed.

Lemma check_eq d u v w :
  u ∈ dom d → v ∈ dom d →
  ideal_check d (u, v, w)
  = if dist_ltb (ext_add (dval d u) w) (dval d v)
    then Raise (ValueError negative_cycle_msg) else Ok d.
Proof.
  intros Hu Hv. unfold ideal_check, getitem.
  rewrite (lookup_dval _ _ Hu), (lookup_dval _ _ Hv). simpl.
  by destruct (dist_ltb _ _).
Qed.

(** One relaxation. *)
Lemma relax_step d u v w :
  (u, v, w) ∈ E → u ∈ dom d → v ∈ dom d → sound d →
  ∃ d', ideal_relax d (u, v, w) = Ok d' ∧ below d d' ∧ sound d' ∧
        dist_le (dval d' v) (ext_add (dval d u) w).
Proof.
  intros Hin Hu Hv Hs. rewrite relax_eq by done.
  destruct (dist_ltb _ _) eqn:Hlt; eexists; (split; [done |]).
  - split_and!.
    + split.
      * rewrite dom_insert_L. by apply subseteq_union_1_L, singleton_subseteq_l.
      * intros x. rewrite dval_insert. destruct (decide (v = x)) as [<- | _].
        -- by apply dist_ltb_true.
        -- apply dist_le_refl.
    + intros x c. rewrite lookup_insert. destruct (decide (v = x)) as [<- | _].
      * intros [= Hc]. destruct (dval d u) as [a|] eqn:Ha; [| done].
        simpl in Hc. injection Hc as <-.
        destruct (Hs u a) as [l Hl].
        { by rewrite lookup_dval, Ha. }
        exists (l ++ [v]). by eapply walk_snoc.
      * apply Hs.
    + rewrite dval_insert, decide_True by done. apply dist_le_refl.
  - split_and!; [apply below_refl | done | by apply dist_ltb_false].
Qed.

(** One pass over the edges. *)
Lemma pass_spec es d0 :
  es ⊆ E → keys_ok d0 es → sound d0 →
  ∃ d1, for_each ideal_relax es d0 = Ok d1 ∧ below d0 d1 ∧ sound d1 ∧
        ∀ u v w, (u, v, w) ∈ es → dist_le (dval d1 v) (ext_add (dval d0 u) w).
Proof.
  intros Hsub Hkeys Hs.
  pose (P := λ (pre : list (nat * nat * Z)) (d : gmap nat dist),
          below d0 d ∧ sound d ∧
          ∀ u v w, (u, v, w) ∈ pre →
                   dist_le (dval d v) (ext_add (dval d0 u) w)).
  destruct (for_each_inv_prefix P ideal_relax es d0) as (d1 & Hrun & Hb & Hs1 & Hd1).
  - split_and!; [apply below_refl | done |]. intros u v w Hin. by apply elem_of_nil in Hin.
  - intros pre [[u v] w] post d Hes (Hb & Hsd & Hpre).
    assert ((u, v, w) ∈ es) as Hin.
    { rewrite Hes. apply elem_of_app. right. left. }
    destruct (Hkeys _ _ _ Hin) as [Hu Hv].
    destruct Hb as [Hdom Hle].
    destruct (relax_step d u v w) as (d' & Hr & Hb' & Hs' & Hv');
      [by apply Hsub | by rewrite Hdom | by rewrite Hdom | done |].
    exists d'. split; [done |]. split_and!.
    + eapply below_trans; [by split | done].
    + done.
    + intros u' v' w' [Hin' | Hin']%elem_of_app.
      * eapply dist_le_trans; [apply Hb' |]. by apply Hpre.
      * apply list_elem_of_singleton in Hin'. injection Hin' as -> -> ->.
        eapply dist_le_trans; [done |]. apply ext_add_mono, Hle.
  - by exists d1.
Qed.

Lemma within_S j d0 d1 :
  below d0 d1 →
  (∀ u v w, (u, v, w) ∈ E → dist_le (dval d1 v) (ext_add (dval d0 u) w)) →
  within j d0 → within 0 d0 → within (S j) d1.
Proof.
  intros [_ Hle] Hstep Hj H0 l v c Hw Hlen.
  destruct (decide (l = [])) as [-> | Hne].
  - eapply dist_le_trans; [apply Hle |]. by eapply H0.
  - destruct (walk_snoc_inv _ _ _ _ _ Hw Hne) as (l' & x & c' & w & -> & Hw' & Hin & ->).
    rewrite length_app in Hlen. simpl in Hlen.
    eapply dist_le_trans; [by eapply Hstep |].
    assert (dist_le (dval d0 x) (Fin c')) as Hx by (eapply Hj; [done | lia]).
    apply (ext_add_mono _ _ w) in Hx. done.
Qed.

Lemma within_below j d0 d1 : below d0 d1 → within j d0 → within j d1.
Proof.
  intros [_ Hle] Hj l v c Hw Hlen.
  eapply dist_le_trans; [apply Hle | by eapply Hj].
Qed.

(** [k] passes. *)
Lemma passes_spec k j d0 :
  keys_ok d0 E → sound d0 → within j d0 →
  ∃ d, ideal_passes E k d0 = Ok d ∧ below d0 d ∧ sound d ∧ within (j + k) d.
Proof.
  revert j d0. induction k as [|k IH]; intros j d0 Hkeys Hs Hj; simpl.
  - exists d0. rewrite Nat.add_0_r. split_and!; [done | apply below_refl | done | done].
  - destruct (pass_spec E d0) as (d1 & -> & Hb & Hs1 & Hstep); [done | done | done |].
    simpl. destruct (IH (S j) d1) as (d & Hrun & Hb' & Hs' & Hw).
    + intros u v w Hin. destruct Hb as [-> _]. by apply (Hkeys u v w).
    + done.
    + apply (within_S j d0); [done | done | done |].
      intros l v c Hw Hlen. eapply Hj; [done | lia].
    + exists d. replace (j + S k)%nat with (S j + k)%nat by lia.
      split_and!; [done | by eapply below_trans | done | done].
Qed.

(** The checking loop returns its argument or raises [ValueError]. *)
Lemma check_spec es d :
  keys_ok d es →
  (for_each ideal_check es d = Ok d ∧
   ∀ u v w, (u, v, w) ∈ es → dist_le (dval d v) (ext_add (dval d u) w)) ∨
  (for_each ideal_check es d = Raise (ValueError negative_cycle_msg) ∧
   ∃ u v w, (u, v, w) ∈ es ∧ dist_ltb (ext_add (dval d u) w) (dval d v) = true).
Proof.
  induction es as [|[[u v] w] es IH]; intros Hkeys; cbn [for_each].
  - left. split; [done |]. intros ??? Hin. by apply elem_of_nil in Hin.
  - destruct (Hkeys u v w) as [Hu Hv]; [left |].
    rewrite check_eq by done.
    destruct (dist_ltb _ _) eqn:Hlt; simpl.
    + right. split; [done |]. exists u, v, w. split; [left | done].
    + destruct IH as [[Hrun Hall] | [Hrun (u' & v' & w' & Hin & Hlt')]].
      * intros u' v' w' Hin. apply (Hkeys u' v' w'). by right.
      * left. split; [done |]. intros u' v' w' [[= -> -> ->] | Hin]%elem_of_cons.
        -- by apply dist_ltb_false.
        -- by apply Hall.
      * right. split; [done |]. exists u', v', w'. split; [by right | done].
Qed.

(** When no edge relaxes, every entry is below the weight of every walk
    leading to it. *)
Lemma stable_walk d u l v c :
  (∀ u v w, (u, v, w) ∈ E → dist_le (dval d v) (ext_add (dval d u) w)) →
  walk E u l v c → dist_le (dval d v) (ext_add (dval d u) c).
Proof.
  intros Hst. induction 1 as [u | u x l v w c Hin Hw IH].
  - destruct (dval d u); simpl; [lia | done].
  - eapply dist_le_trans; [apply IH |].
    specialize (Hst _ _ _ Hin). apply (ext_add_mono _ _ c) in Hst.
    destruct (dval d u); simpl in *; [| done].
    by replace (z + (w + c)) with (z + w + c) by lia.
Qed.

Lemma stable_no_negative_cycle d :
  (∀ u v w, (u, v, w) ∈ E → dist_le (dval d v) (ext_add (dval d u) w)) →
  dist_le (dval d s) (Fin 0) → sound d →
  no_negative_cycle_from E s.
Proof.
  intros Hst H0 Hs u l c (l1 & c1 & H1) Hcyc.
  pose proof (stable_walk d _ _ _ _ Hst H1) as Hu.
  pose proof (stable_walk d _ _ _ _ Hst Hcyc) as Hc.
  destruct (dval d s) as [a|]; [| done].
  destruct (dval d u) as [b|]; [| done].
  simpl in *. lia.
Qed.
End BellmanFord.

(** ** The edges of a well-formed graph *)

Lemma nodup_fst_eq {A B} (l : list (A * B)) k x y :
  NoDup l.*1 → (k, x) ∈ l → (k, y) ∈ l → x = y.
Proof.
  induction l as [|[k' z] l IH]; cbn [fmap list_fmap fst]; intros Hnd Hx Hy.
  - by apply elem_of_nil in Hx.
  - apply NoDup_cons in Hnd as [Hk Hnd].
    apply elem_of_cons in Hx as [Hx | Hx]; apply elem_of_cons in Hy as [Hy | Hy].
    + congruence.
    + injection Hx as -> ->. destruct Hk.
      by apply (list_elem_of_fmap_2' fst _ (k', y)).
    + injection Hy as -> ->. destruct Hk.
      by apply (list_elem_of_fmap_2' fst _ (k', x)).
    + by apply IH.
Qed.

Lemma elem_of_out_edges {A} n (nbrs : list (nat * A)) u v a :
  (u, v, a) ∈ out_edges n nbrs ↔ u = n ∧ (v, a) ∈ nbrs.
Proof.
  unfold out_edges. rewrite list_elem_of_fmap. split.
  - intros ([v' a'] & [= -> -> ->] & Hin). done.
  - intros [-> Hin]. by exists (v, a).
Qed.

Lemma elem_of_edges_undirected {A} seen (l : list (nat * list (nat * A))) u v a :
  (u, v, a) ∈ edges_undirected seen l →
  ∃ nbrs, (u, nbrs) ∈ l ∧ (v, a) ∈ nbrs ∧ v ∉ seen.
Proof.
  revert seen. induction l as [|[n nbrs] l IH]; intros seen; cbn [edges_undirected].
  - intros H. by apply elem_of_nil in H.
  - intros [H | H]%elem_of_app.
    + apply elem_of_out_edges in H as [-> H].
      apply list_elem_of_filter in H as [Hseen H].
      exists nbrs. split_and!; [left | done | done].
    + destruct (IH _ H) as (nbrs' & Hin & Hv & Hseen).
      exists nbrs'. split_and!; [by right | done |].
      intros Hs. apply Hseen. by right.
Qed.

Lemma elem_of_edges {A} (g : Graph A) u v a :
  (u, v, a) ∈ edges g → ∃ nbrs, (u, nbrs) ∈ adj g ∧ (v, a) ∈ nbrs.
Proof.
  unfold edges. destruct (directed g).
  - rewrite list_elem_of_In, in_flat_map.
    intros ([n nbrs] & Hn & Hin). rewrite <- !list_elem_of_In in *.
    apply elem_of_out_edges in Hin as [-> Hin]. by exists nbrs.
  - intros H. apply elem_of_edges_undirected in H as (nbrs & ? & ? & _). by exists nbrs.
Qed.

Lemma edges_nodes {A} (g : Graph A) u v a :
  wf_graph g → (u, v, a) ∈ edges g → u ∈ nodes g ∧ v ∈ nodes g.
Proof.
  intros [_ Hwf] (nbrs & Hu & Hv)%elem_of_edges. split.
  - by apply (list_elem_of_fmap_2' fst _ (u, nbrs)).
  - rewrite Forall_forall in Hwf. destruct (Hwf _ Hu) as [_ Hall].
    rewrite Forall_forall in Hall. apply (Hall _ Hv).
Qed.

Lemma edges_functional {A} (g : Graph A) u v a b :
  wf_graph g → (u, v, a) ∈ edges g → (u, v, b) ∈ edges g → a = b.
Proof.
  intros [Hnd Hwf] (nbrs & Hu & Hv)%elem_of_edges (nbrs' & Hu' & Hv')%elem_of_edges.
  assert (nbrs = nbrs') as <- by by eapply nodup_fst_eq.
  rewrite Forall_forall in Hwf. destruct (Hwf _ Hu) as [Hnd' _].
  by eapply nodup_fst_eq.
Qed.

(** ** Bellman-Ford in exact arithmetic on a well-formed graph *)


Lemma bf_init_lookup ns s v :
  bf_init ns s !! v
  = if decide (s = v) then Some (Fin 0)
    else if decide (v ∈ ns) then Some Inf else None.
Proof. unfold bf_init. by rewrite lookup_insert, inf_dict_lookup. Qed.

Lemma bf_init_dom ns s : dom (bf_init ns s) = {[s]} ∪ list_to_set ns.
Proof. unfold bf_init. by rewrite dom_insert_L, inf_dict_dom. Qed.

(** A walk that visits no node twice has fewer edges than there are nodes. *)
Lemma simple_walk_length (E : list (nat * nat * Z)) (ns : list nat) s l v c :
  (∀ u v w, (u, v, w) ∈ E → u ∈ ns ∧ v ∈ ns) →
  walk E s l v c → NoDup (s :: l) → (length l ≤ length ns - 1)%nat.
Proof.
  intros Hends Hw Hnd. destruct (decide (l = [])) as [-> | Hne]; [simpl; lia |].
  assert (s :: l ⊆+ ns) as Hsub.
  { apply NoDup_submseteq; [done |]. intros x [-> | Hx]%elem_of_cons.
    - destruct (walk_source _ _ _ _ _ Hw Hne) as (x & w & Hin). by apply (Hends _ _ _ Hin).
    - pose proof (walk_targets _ _ _ _ _ Hw) as Hall. rewrite Forall_forall in Hall.
      destruct (Hall _ Hx) as (y & w & Hin). by apply (Hends _ _ _ Hin). }
  apply submseteq_length in Hsub. simpl in Hsub. lia.
Qed.

(** The outcome of [bellman_ford] in exact arithmetic: after [|V| - 1]
    passes the dictionary [d] is reached; then either an edge still relaxes,
    a negative cycle is reachable from the source and [ValueError] is
    raised, or no edge relaxes, there is no such cycle, and [d] is returned,
    each entry being the least weight of a walk from the source. *)
Lemma ideal_bellman_ford_outcome (g : Graph Z) (s : nat) :
  wf_graph g →
  ∃ d, ideal_passes (edges g) (length (nodes g) - 1) (bf_init (nodes g) s) = Ok d ∧
       dom d = {[s]} ∪ list_to_set (nodes g) ∧
       sound (edges g) s d ∧
       dist_le (dval d s) (Fin 0) ∧
       ((ideal_bellman_ford (nodes g) (edges g) s
           = Raise (ValueError negative_cycle_msg) ∧
         negative_cycle_reachable (edges g) s ∧
         ∃ u v w, (u, v, w) ∈ edges g ∧
                  dist_ltb (ext_add (dval d u) w) (dval d v) = true)
        ∨
        (ideal_bellman_ford (nodes g) (edges g) s = Ok d ∧
         no_negative_cycle_from (edges g) s ∧
         (∀ u v w, (u, v, w) ∈ edges g →
                   dist_ltb (ext_add (dval d u) w) (dval d v) = false) ∧
         ∀ l v c, walk (edges g) s l v c → dist_le (dval d v) (Fin c))).
Proof.
  intros Hwf. set (E := edges g). set (ns := nodes g). set (d0 := bf_init ns s).
  assert (∀ u v w, (u, v, w) ∈ E → u ∈ ns ∧ v ∈ ns) as Hends.
  { intros u v w. by apply edges_nodes. }
  assert (keys_ok d0 E) as Hkeys.
  { intros u v w Hin. unfold d0. rewrite bf_init_dom.
    destruct (Hends _ _ _ Hin).
    split; apply elem_of_union; right; by apply elem_of_list_to_set. }
  assert (sound E s d0) as Hs0.
  { intros v c. unfold d0. rewrite bf_init_lookup.
    repeat case_decide; intros [= <-] || intros [=]. subst. exists []. constructor. }
  assert (within E s 0 d0) as Hw0.
  { intros l v c Hw Hlen. destruct l; [| simpl in Hlen; lia].
    inversion Hw; subst. unfold dval, d0. rewrite bf_init_lookup.
    rewrite decide_True by done. simpl. lia. }
  destruct (passes_spec E s (length ns - 1) 0 d0) as (d & Hrun & Hb & Hs & Hw);
    [done | done | done |].
  simpl in Hw. exists d.
  assert (dom d = {[s]} ∪ list_to_set ns) as Hdom.
  { destruct Hb as [-> _]. apply bf_init_dom. }
  assert (dist_le (dval d s) (Fin 0)) as Hds.
  { eapply dist_le_trans; [apply Hb |]. unfold dval, d0.
    rewrite bf_init_lookup, decide_True by done. simpl. lia. }
  split_and!; [done | done | done | done |].
  unfold ideal_bellman_ford.
  change (<[s:=Fin 0]> (inf_dict ns)) with d0. rewrite Hrun. simpl.
  assert (keys_ok d E) as Hkeys'.
  { intros u v w Hin. destruct Hb as [-> _]. by apply (Hkeys u v w). }
  destruct (check_spec E d Hkeys') as [[Hchk Hst] | [Hchk (u & v & w & Hin & Hlt)]].
  - right. split_and!; [done | | |].
    + by apply (stable_no_negative_cycle E s d).
    + intros u v w Hin. apply dist_ltb_false. by apply Hst.
    + intros l v c Hwalk.
      pose proof (stable_walk E d _ _ _ _ Hst Hwalk) as Hv.
      eapply dist_le_trans; [done |].
      destruct (dval d s); simpl in *; [lia | done].
  - left. split_and!; [done | | by exists u, v, w].
    destruct (dval d u) as [a|] eqn:Ha; [| done].
    destruct (Hs u a) as [l Hl].
    { rewrite (lookup_dval d u), Ha; [done |]. by apply (Hkeys' u v w). }
    pose proof (walk_snoc E _ _ _ _ _ _ Hl Hin) as Hv.
    destruct (walk_simple E s s _ _ _ (reachable_refl E s) Hv)
      as [Hneg | (l' & c' & Hl' & Hle & Hnd)]; [done |].
    exfalso.
    pose proof (simple_walk_length E ns _ _ _ _ Hends Hl' Hnd) as Hlen.
    specialize (Hw _ _ _ Hl' Hlen).
    simpl in Hlt. destruct (dval d v) as [b|]; simpl in *; [| done].
    apply Z.ltb_lt in Hlt. lia.
Qed.

(** ** Floyd-Warshall in exact arithmetic: the matrix *)


Lemma square_row n m i :
  square n m → (i < n)%nat → ∃ row, m !! i = Some row ∧ length row = n.
Proof.
  intros [Hlen Hrows] Hi.
  destruct (lookup_lt_is_Some_2 m i) as [row Hrow]; [lia |].
  exists row. split; [done |].
  rewrite Forall_forall in Hrows. apply Hrows. by eapply list_elem_of_lookup_2.
Qed.

Lemma cell_square n m i j :
  square n m → (i < n)%nat → (j < n)%nat → cell m i j = Some (mval m i j).
Proof.
  intros Hsq Hi Hj. destruct (square_row n m i Hsq Hi) as (row & Hrow & Hlen).
  destruct (lookup_lt_is_Some_2 row j) as [x Hx]; [lia |].
  unfold mval, cell. rewrite Hrow. simpl. by rewrite Hx.
Qed.

Lemma getcell_eq n m i j :
  square n m → (i < n)%nat → (j < n)%nat → getcell m i j = Ok (mval m i j).
Proof.
  intros Hsq Hi Hj. destruct (square_row n m i Hsq Hi) as (row & Hrow & Hlen).
  destruct (lookup_lt_is_Some_2 row j) as [x Hx]; [lia |].
  unfold getcell, mval, cell. rewrite Hrow. simpl. by rewrite Hx.
Qed.

Lemma setcell_eq n m i j x :
  square n m → (i < n)%nat → (j < n)%nat →
  ∃ m', setcell m i j x = Ok m' ∧ square n m' ∧
        ∀ a b, mval m' a b = if decide (a = i ∧ b = j) then x else mval m a b.
Proof.
  intros Hsq Hi Hj. destruct (square_row n m i Hsq Hi) as (row & Hrow & Hlen).
  unfold setcell. rewrite Hrow. rewrite decide_True by lia.
  eexists. split; [done |]. destruct Hsq as [Hm Hrows]. split.
  - split; [by rewrite length_insert |].
    apply Forall_insert; [done |]. by rewrite length_insert.
  - intros a b. unfold mval, cell.
    destruct (decide (a = i)) as [-> | Ha].
    + rewrite list_lookup_insert_eq by lia. simpl.
      destruct (decide (b = j)) as [-> | Hb].
      * rewrite list_lookup_insert_eq by lia. by rewrite decide_True.
      * rewrite list_lookup_insert_ne by done.
        rewrite decide_False by tauto. by rewrite Hrow.
    + rewrite list_lookup_insert_ne by done. by rewrite decide_False by tauto.
Qed.

Lemma square_replicate n : square n (replicate n (replicate n Inf)).
Proof.
  split; [by rewrite length_replicate |].
  apply Forall_replicate. by rewrite length_replicate.
Qed.

Lemma mval_replicate n i j : mval (replicate n (replicate n Inf)) i j = Inf.
Proof.
  unfold mval, cell.
  destruct (replicate n (replicate n Inf) !! i) as [row|] eqn:Hrow; [| done].
  apply lookup_replicate in Hrow as [-> _]. simpl.
  destruct (replicate n Inf !! j) as [x|] eqn:Hx; [| done].
  by apply lookup_replicate in Hx as [-> _].
Qed.

Lemma seq_split n pre (x : nat) post :
  seq 0 n = pre ++ x :: post → x = length pre ∧ (x < n)%nat.
Proof.
  intros H.
  assert (seq 0 n !! length pre = Some x) as Hx.
  { rewrite H. by rewrite list_lookup_middle. }
  apply lookup_seq in Hx. lia.
Qed.

Section FloydWarshall.
Variable E : list (nat * nat * Z).
Variable n : nat.
Hypothesis E_range : ∀ u v w, (u, v, w) ∈ E → (u < n)%nat ∧ (v < n)%nat.

Local Abbreviation msound := (msound E).
Local Abbreviation mwithin := (mwithin E n).




Lemma mle_refl m : mle m m.
Proof. intros i j. apply dist_le_refl. Qed.

Lemma mle_trans m1 m2 m3 : mle m1 m2 → mle m2 m3 → mle m1 m3.
Proof. intros H1 H2 i j. eapply dist_le_trans; [apply H1 | apply H2]. Qed.

(** One cell. *)
Lemma relax_cell_spec k i j m :
  square n m → (i < n)%nat → (j < n)%nat → (k < n)%nat → msound m →
  ∃ m', ideal_relax_cell k i m j = Ok m' ∧ square n m' ∧ msound m' ∧ mle m' m ∧
        dist_le (mval m' i j) (ext_plus (mval m i k) (mval m k j)).
Proof.
  intros Hsq Hi Hj Hk Hs. unfold ideal_relax_cell.
  rewrite !(getcell_eq n) by done. simpl.
  set (x := dist_min _ _).
  destruct (setcell_eq n m i j x Hsq Hi Hj) as (m' & -> & Hsq' & Hval).
  exists m'. split_and!; [done | done | | |].
  - intros a b c. rewrite Hval. case_decide as Hab; [| apply Hs].
    destruct Hab as [-> ->]. unfold x.
    destruct (dist_min_cases (mval m i j) (ext_plus (mval m i k) (mval m k j)))
      as [-> | ->]; [apply Hs |].
    destruct (mval m i k) as [c1|] eqn:H1; [| done].
    destruct (mval m k j) as [c2|] eqn:H2; [| done].
    intros [= <-]. destruct (Hs _ _ _ H1) as [l1 Hl1]. destruct (Hs _ _ _ H2) as [l2 Hl2].
    exists (l1 ++ l2). by eapply walk_app.
  - intros a b. rewrite Hval. case_decide as Hab; [| apply dist_le_refl].
    destruct Hab as [-> ->]. apply dist_min_le_l.
  - rewrite Hval, decide_True by done. apply dist_min_le_r.
Qed.

(** One row of a stage that started from [m0]. *)
Lemma fw_row_spec k i m0 m :
  square n m → (i < n)%nat → (k < n)%nat → msound m → mle m m0 →
  ∃ m', ideal_fw_row n k m i = Ok m' ∧ square n m' ∧ msound m' ∧ mle m' m ∧
        ∀ j, (j < n)%nat →
             dist_le (mval m' i j) (ext_plus (mval m0 i k) (mval m0 k j)).
Proof.
  intros Hsq Hi Hk Hs Hle. unfold ideal_fw_row.
  pose (P := λ (pre : list nat) (m1 : list (list dist)),
          square n m1 ∧ msound m1 ∧ mle m1 m ∧
          ∀ j, j ∈ pre →
               dist_le (mval m1 i j) (ext_plus (mval m0 i k) (mval m0 k j))).
  destruct (for_each_inv_prefix P (ideal_relax_cell k i) (seq 0 n) m)
    as (m' & Hrun & Hsq' & Hs' & Hle' & Hdone).
  - split_and!; [done | done | apply mle_refl |].
    intros j Hj. by apply elem_of_nil in Hj.
  - intros pre j post m1 Hseq (Hsq1 & Hs1 & Hle1 & Hpre).
    apply seq_split in Hseq as [_ Hj].
    destruct (relax_cell_spec k i j m1) as (m2 & Hr & Hsq2 & Hs2 & Hle2 & Hij);
      [done | done | done | done | done |].
    exists m2. split; [done |]. split_and!; [done | done | by eapply mle_trans |].
    intros j' [Hj' | Hj']%elem_of_app.
    + eapply dist_le_trans; [apply Hle2 | by apply Hpre].
    + apply list_elem_of_singleton in Hj' as ->.
      eapply dist_le_trans; [done |].
      apply ext_plus_mono; eapply dist_le_trans; try apply Hle1; apply Hle.
  - exists m'. split_and!; [done | done | done | done |].
    intros j Hj. apply Hdone. apply elem_of_seq. lia.
Qed.

(** One stage. *)
Lemma fw_stage_spec k m0 :
  square n m0 → (k < n)%nat → msound m0 →
  ∃ m1, ideal_fw_stage n m0 k = Ok m1 ∧ square n m1 ∧ msound m1 ∧ mle m1 m0 ∧
        ∀ i j, (i < n)%nat → (j < n)%nat →
               dist_le (mval m1 i j) (ext_plus (mval m0 i k) (mval m0 k j)).
Proof.
  intros Hsq Hk Hs. unfold ideal_fw_stage.
  pose (P := λ (pre : list nat) (m : list (list dist)),
          square n m ∧ msound m ∧ mle m m0 ∧
          ∀ i j, i ∈ pre → (j < n)%nat →
                 dist_le (mval m i j) (ext_plus (mval m0 i k) (mval m0 k j))).
  destruct (for_each_inv_prefix P (ideal_fw_row n k) (seq 0 n) m0)
    as (m1 & Hrun & Hsq1 & Hs1 & Hle1 & Hdone).
  - split_and!; [done | done | apply mle_refl |].
    intros i j Hi. by apply elem_of_nil in Hi.
  - intros pre i post m Hseq (Hsqm & Hsm & Hlem & Hpre).
    apply seq_split in Hseq as [_ Hi].
    destruct (fw_row_spec k i m0 m) as (m' & Hr & Hsq' & Hs' & Hle' & Hrow);
      [done | done | done | done | done |].
    exists m'. split; [done |]. split_and!; [done | done | by eapply mle_trans |].
    intros i' j [Hi' | Hi']%elem_of_app Hj.
    + eapply dist_le_trans; [apply Hle' | by apply Hpre].
    + apply list_elem_of_singleton in Hi' as ->. by apply Hrow.
  - exists m1. split_and!; [done | done | done | done |].
    intros i j Hi Hj. apply Hdone; [| done]. apply elem_of_seq. lia.
Qed.

(** Without negative cycles a stage admits one more intermediate node. *)
Lemma mwithin_S k m0 m1 :
  no_negative_cycle E → mle m1 m0 →
  (∀ i j, (i < n)%nat → (j < n)%nat →
          dist_le (mval m1 i j) (ext_plus (mval m0 i k) (mval m0 k j))) →
  (k < n)%nat → mwithin k m0 → mwithin (S k) m1.
Proof.
  intros Hneg Hle Hstep Hk [Hdiag Hw]. split.
  - intros i Hi. eapply dist_le_trans; [apply Hle | by apply Hdiag].
  - intros i j c Hi Hj Hwalk.
    destruct (walkK_S E k i j c Hneg Hwalk) as [H | (c1 & c2 & H1 & H2 & Hc)].
    + eapply dist_le_trans; [apply Hle | by apply Hw].
    + eapply dist_le_trans; [by apply Hstep |].
      pose proof (Hw _ _ _ Hi Hk H1) as Hik. pose proof (Hw _ _ _ Hk Hj H2) as Hkj.
      destruct (mval m0 i k), (mval m0 k j); simpl in *; try done. lia.
Qed.

(** The triple loop in exact arithmetic: it never raises, and keeps the
    matrix square and sound. *)
Lemma fw_loop_total m0 :
  square n m0 → msound m0 →
  ∃ m, for_each (ideal_fw_stage n) (seq 0 n) m0 = Ok m ∧ square n m ∧ msound m ∧ mle m m0.
Proof.
  intros Hsq Hs.
  apply (for_each_inv (λ m, square n m ∧ msound m ∧ mle m m0)).
  - split_and!; [done | done | apply mle_refl].
  - intros m k Hk (Hsqm & Hsm & Hlem). apply elem_of_seq in Hk.
    destruct (fw_stage_spec k m) as (m1 & Hr & Hsq1 & Hs1 & Hle1 & _);
      [done | lia | done |].
    exists m1. split_and!; [done | done | done | by eapply mle_trans].
Qed.

(** Without negative cycles the triple loop reaches the least weights. *)
Lemma fw_loop_within m0 :
  no_negative_cycle E → square n m0 → msound m0 → mwithin 0 m0 →
  ∃ m, for_each (ideal_fw_stage n) (seq 0 n) m0 = Ok m ∧ square n m ∧ msound m ∧
       mwithin n m.
Proof.
  intros Hneg Hsq Hs Hw.
  pose (P := λ (pre : list nat) (m : list (list dist)),
          square n m ∧ msound m ∧ mwithin (length pre) m).
  destruct (for_each_inv_prefix P (ideal_fw_stage n) (seq 0 n) m0)
    as (m & Hrun & Hsqm & Hsm & Hwm).
  - done.
  - intros pre k post m Hseq (Hsqm & Hsm & Hwm).
    apply seq_split in Hseq as [-> Hk].
    destruct (fw_stage_spec (length pre) m) as (m1 & Hr & Hsq1 & Hs1 & Hle1 & Hstep);
      [done | done | done |].
    exists m1. split; [done |]. split_and!; [done | done |].
    rewrite length_app. simpl. rewrite Nat.add_1_r.
    by apply (mwithin_S (length pre) m).
  - rewrite length_seq in Hwm. by exists m.
Qed.

(** With all intermediate nodes allowed, every walk is covered. *)
Lemma mwithin_walk m i l j c :
  mwithin n m → (i < n)%nat → (j < n)%nat → walk E i l j c →
  dist_le (mval m i j) (Fin c).
Proof.
  intros [Hdiag Hw] Hi Hj Hwalk.
  destruct (decide (l = [])) as [-> | Hne].
  - inversion Hwalk; subst. by apply Hdiag.
  - apply Hw; [done | done |]. eapply walk_walkK; [done | done |].
    eapply Forall_impl; [by eapply walk_targets |].
    intros x (y & w & Hin). simpl. by apply (E_range _ _ _ Hin).
Qed.

(** The matrix before the triple loop. *)
Lemma fw_init_spec :
  ∃ m, fw_init n E = Ok m ∧ square n m ∧
       ∀ i j, (i < n)%nat → (j < n)%nat →
         if decide (i = j) then mval m i j = Fin 0
         else (mval m i j = Inf ∧ ∀ w, (i, j, w) ∉ E) ∨
              (∃ w, mval m i j = Fin w ∧ (i, j, w) ∈ E).
Proof.
  unfold fw_init.
  pose (P := λ (pre : list (nat * nat * Z)) (m : list (list dist)),
          square n m ∧
          ∀ i j, (mval m i j = Inf ∧ ∀ w, (i, j, w) ∉ pre) ∨
                 (∃ w, mval m i j = Fin w ∧ (i, j, w) ∈ pre)).
  destruct (for_each_inv_prefix P
              (λ m (e : nat * nat * Z), setcell m e.1.1 e.1.2 (Fin e.2))
              E (replicate n (replicate n Inf)))
    as (m1 & -> & Hsq1 & Hm1).
  { split; [apply square_replicate |]. intros i j. left.
    split; [apply mval_replicate |]. intros w Hin. by apply elem_of_nil in Hin. }
  { intros pre [[u v] w] post m HE [Hsq Hm]. simpl.
    assert ((u, v, w) ∈ E) as Hin by (rewrite HE; apply elem_of_app; right; left).
    destruct (E_range _ _ _ Hin) as [Hu Hv].
    destruct (setcell_eq n m u v (Fin w) Hsq Hu Hv) as (m' & -> & Hsq' & Hval).
    exists m'. split; [done |]. split; [done |].
    intros i j. rewrite Hval. case_decide as Hij.
    - destruct Hij as [-> ->]. right. exists w. split; [done |].
      apply elem_of_app. right. left.
    - destruct (Hm i j) as [[Hinf Hno] | (w' & Hw' & Hin')].
      + left. split; [done |]. intros w' [Hin' | Hin']%elem_of_app.
        * by apply (Hno w').
        * apply list_elem_of_singleton in Hin'. injection Hin' as -> -> ->. tauto.
      + right. exists w'. split; [done |]. apply elem_of_app. by left. }
  simpl.
  pose (Q := λ (pre : list nat) (m : list (list dist)),
          square n m ∧
          ∀ i j, if decide (i = j ∧ i ∈ pre) then mval m i j = Fin 0
                 else mval m i j = mval m1 i j).
  destruct (for_each_inv_prefix Q (λ m i, setcell m i i (Fin 0)) (seq 0 n) m1)
    as (m2 & -> & Hsq2 & Hm2).
  { split; [done |]. intros i j. case_decide as Hij; [| done].
    destruct Hij as [_ Hi]. by apply elem_of_nil in Hi. }
  { intros pre i post m Hseq [Hsq Hm].
    apply seq_split in Hseq as [_ Hi].
    destruct (setcell_eq n m i i (Fin 0) Hsq Hi Hi) as (m' & -> & Hsq' & Hval).
    exists m'. split; [done |]. split; [done |].
    intros a b. rewrite Hval. specialize (Hm a b).
    destruct (decide (a = i ∧ b = i)) as [[-> ->] | Hab].
    - rewrite decide_True; [done |]. split; [done |]. apply elem_of_app. right. left.
    - destruct (decide (a = b ∧ a ∈ pre)) as [[-> Hpre] | Hn].
      + rewrite decide_True; [done |]. split; [done |]. apply elem_of_app. by left.
      + rewrite decide_False; [done |]. intros [-> [Hpre | Hpre]%elem_of_app].
        * tauto.
        * apply list_elem_of_singleton in Hpre. tauto. }
  exists m2. split; [done |]. split; [done |].
  intros i j Hi Hj. specialize (Hm2 i j).
  destruct (decide (i = j)) as [-> | Hij].
  - rewrite decide_True in Hm2; [done |]. split; [done |]. apply elem_of_seq. lia.
  - rewrite decide_False in Hm2 by tauto. rewrite Hm2. apply Hm1.
Qed.

Lemma fw_init_sound m :
  square n m →
  (∀ i j, (i < n)%nat → (j < n)%nat →
     if decide (i = j) then mval m i j = Fin 0
     else (mval m i j = Inf ∧ ∀ w, (i, j, w) ∉ E) ∨
          (∃ w, mval m i j = Fin w ∧ (i, j, w) ∈ E)) →
  msound m.
Proof.
  intros Hsq Hm i j c Hc.
  destruct (decide (i < n)%nat) as [Hi |Hi]; [destruct (decide (j < n)%nat) as [Hj | Hj] |].
  - specialize (Hm i j Hi Hj). case_decide as Hij.
    + subst j. rewrite Hm in Hc. injection Hc as <-. exists []. constructor.
    + destruct Hm as [[Hinf _] | (w & Hw & Hin)]; [congruence |].
      rewrite Hw in Hc. injection Hc as <-. exists [j]. by apply walk_edge.
  - exfalso. unfold mval, cell in Hc.
    destruct (m !! i) as [row|] eqn:Hrow; [| done]. simpl in Hc.
    destruct Hsq as [_ Hrows]. rewrite Forall_forall in Hrows.
    specialize (Hrows row (list_elem_of_lookup_2 _ _ _ Hrow)).
    rewrite (lookup_ge_None_2 row j) in Hc by lia. done.
  - exfalso. unfold mval, cell in Hc. destruct Hsq as [Hlen _].
    rewrite (lookup_ge_None_2 m i) in Hc by lia. done.
Qed.
End FloydWarshall.

(** ** Floyd-Warshall in exact arithmetic on a well-formed graph *)

Lemma edges_range {A} (g : Graph A) u v a :
  wf_graph g → nodes_range g → (u, v, a) ∈ edges g →
  (u < length (nodes g))%nat ∧ (v < length (nodes g))%nat.
Proof.
  intros Hwf Hr Hin. destruct (edges_nodes g u v a Hwf Hin) as [Hu Hv].
  split; by apply Hr.
Qed.

(** In exact arithmetic [floyd_warshall] never raises: it starts from the
    matrix [m0] of [fw_init] and returns a square matrix below [m0] whose
    finite cells are weights of walks. *)
Lemma ideal_floyd_warshall_outcome (g : Graph Z) :
  wf_graph g → nodes_range g →
  ∃ m0 m, fw_init (length (nodes g)) (edges g) = Ok m0 ∧
          ideal_floyd_warshall (length (nodes g)) (edges g) = Ok m ∧
          square (length (nodes g)) m ∧ msound (edges g) m ∧ mle m m0.
Proof.
  intros Hwf Hr. set (n := length (nodes g)). set (E := edges g).
  assert (∀ u v w, (u, v, w) ∈ E → (u < n)%nat ∧ (v < n)%nat) as HE.
  { intros u v w. by apply edges_range. }
  destruct (fw_init_spec E n HE) as (m0 & Hinit & Hsq0 & Hm0).
  pose proof (fw_init_sound E n m0 Hsq0 Hm0) as Hs0.
  destruct (fw_loop_total E n m0 Hsq0 Hs0) as (m & Hrun & Hsq & Hs & Hle).
  exists m0, m. unfold ideal_floyd_warshall. rewrite Hinit. simpl.
  by split_and!.
Qed.

(** Without negative cycles every cell is the least weight of a walk. *)
Lemma ideal_floyd_warshall_least (g : Graph Z) :
  wf_graph g → nodes_range g → no_negative_cycle (edges g) →
  ∃ m, ideal_floyd_warshall (length (nodes g)) (edges g) = Ok m ∧
       square (length (nodes g)) m ∧ msound (edges g) m ∧
       ∀ i l j c, (i < length (nodes g))%nat → (j < length (nodes g))%nat →
                  walk (edges g) i l j c → dist_le (mval m i j) (Fin c).
Proof.
  intros Hwf Hr Hneg. set (n := length (nodes g)). set (E := edges g).
  assert (∀ u v w, (u, v, w) ∈ E → (u < n)%nat ∧ (v < n)%nat) as HE.
  { intros u v w. by apply edges_range. }
  destruct (fw_init_spec E n HE) as (m0 & Hinit & Hsq0 & Hm0).
  pose proof (fw_init_sound E n m0 Hsq0 Hm0) as Hs0.
  assert (mwithin E n 0 m0) as Hw0.
  { split.
    - intros i Hi. specialize (Hm0 i i Hi Hi). rewrite decide_True in Hm0 by done.
      rewrite Hm0. simpl. lia.
    - intros i j c Hi Hj Hwalk.
      inversion Hwalk as [? ? ? Hin | ? x ? ? ? ? Hx]; subst; [| lia].
      specialize (Hm0 i j Hi Hj). case_decide as Hij.
      + subst j. rewrite Hm0. simpl. apply (Hneg i [i] c). by apply walk_edge.
      + destruct Hm0 as [[_ Hno] | (w & -> & Hin')]; [by destruct (Hno c) |].
        rewrite (edges_functional g i j w c Hwf Hin' Hin). simpl. lia. }
  destruct (fw_loop_within E n m0 Hneg Hsq0 Hs0 Hw0) as (m & Hrun & Hsq & Hs & Hw).
  exists m. unfold ideal_floyd_warshall. rewrite Hinit. simpl.
  split_and!; [done | done | done |].
  intros i l j c Hi Hj Hwalk. by apply (mwithin_walk E n HE m i l j c).
Qed.

(** ** Concrete graphs *)


Lemma nodes_range_seq {A} (g : Graph A) :
  nodes g = seq 0 (length (nodes g)) → nodes_range g.
Proof. intros H v. rewrite H at 1. rewrite elem_of_seq. lia. Qed.

Lemma wf_fixture : wf_graph fixture.
Proof. by apply (bool_decide_unpack _). Qed.

Lemma wf_neg_triangle : wf_graph neg_triangle.
Proof. by apply (bool_decide_unpack _). Qed.

Lemma fixture_no_negative_cycle : no_negative_cycle (edges fixture).
Proof.
  apply nonneg_no_negative_cycle. cbn. repeat constructor; simpl; lia.
Qed.

(** ** A stage of Floyd-Warshall in exact arithmetic, cell by cell

    The triple loop updates the matrix in place, so a cell read during stage
    [k] may already have been rewritten in that stage.  Only row [k] and
    column [k] are read, and a cell is rewritten before another reads it
    exactly when it comes first in row-major order. *)

Section StageExact.
Variable n k : nat.
Variable m0 : list (list dist).

Local Abbreviation kk_read := (kk_read k m0).
Local Abbreviation col_val := (col_val k m0).
Local Abbreviation row_val := (row_val k m0).
Local Abbreviation stage_val := (stage_val k m0).
Local Abbreviation stage_at := (stage_at n k m0).





Lemma stage_val_col i : stage_val i k = col_val i.
Proof.
  unfold stage_val, col_val. rewrite Nat.ltb_irrefl.
  destruct (k <? i)%nat eqn:Hki; [| done].
  unfold row_val. by rewrite Nat.ltb_irrefl.
Qed.

Lemma stage_val_row j : stage_val k j = row_val j.
Proof.
  unfold stage_val, row_val. rewrite Nat.ltb_irrefl.
  destruct (k <? j)%nat eqn:Hkj; [| done].
  unfold col_val. by rewrite Nat.ltb_irrefl.
Qed.

Lemma relax_cell_eq i j m :
  square n m → (i < n)%nat → (j < n)%nat → (k < n)%nat →
  ∃ m', ideal_relax_cell k i m j = Ok m' ∧ square n m' ∧
        ∀ a b, mval m' a b
               = if decide (a = i ∧ b = j)
                 then dist_min (mval m i j) (ext_plus (mval m i k) (mval m k j))
                 else mval m a b.
Proof.
  intros Hsq Hi Hj Hk. unfold ideal_relax_cell.
  rewrite !(getcell_eq n) by done. simpl. by apply setcell_eq.
Qed.

(** Rewriting cell (i,j) when the cells before it have been rewritten. *)
Lemma relax_cell_exact i j m1 :
  (i < n)%nat → (j < n)%nat → (k < n)%nat → stage_at i j m1 →
  ∃ m2, ideal_relax_cell k i m1 j = Ok m2 ∧ stage_at i (S j) m2.
Proof.
  intros Hi Hj Hk [Hsq1 Hm1].
  destruct (relax_cell_eq i j m1) as (m2 & Hr & Hsq2 & Hval);
    [done | done | done | done |].
  exists m2. split; [done |]. split; [done |].
  intros a b Ha Hb. rewrite Hval.
  destruct (decide (a = i ∧ b = j)) as [[-> ->] | Hab].
  - rewrite decide_True by lia.
    rewrite (Hm1 i j), (Hm1 i k), (Hm1 k j) by done.
    rewrite decide_False by lia. unfold stage_val. f_equal. f_equal.
    + destruct (k <? j)%nat eqn:Hlt.
      * apply Nat.ltb_lt in Hlt. rewrite decide_True by lia. apply stage_val_col.
      * apply Nat.ltb_ge in Hlt. by rewrite decide_False by lia.
    + destruct (k <? i)%nat eqn:Hlt.
      * apply Nat.ltb_lt in Hlt. rewrite decide_True by lia. apply stage_val_row.
      * apply Nat.ltb_ge in Hlt. by rewrite decide_False by lia.
  - rewrite (Hm1 a b) by done.
    destruct (decide (a < i ∨ a = i ∧ b < j)%nat).
    + by rewrite decide_True by lia.
    + by rewrite decide_False by lia.
Qed.

Lemma fw_row_exact i m :
  (i < n)%nat → (k < n)%nat → stage_at i 0 m →
  ∃ m', ideal_fw_row n k m i = Ok m' ∧ stage_at (S i) 0 m'.
Proof.
  intros Hi Hk Hm. unfold ideal_fw_row.
  destruct (for_each_inv_prefix (λ pre m1, stage_at i (length pre) m1)
              (ideal_relax_cell k i) (seq 0 n) m) as (m' & Hrun & Hsq' & Hm').
  - done.
  - intros pre j post m1 Hseq Hm1.
    apply seq_split in Hseq as [-> Hj].
    rewrite length_app. simpl. rewrite Nat.add_1_r.
    by apply relax_cell_exact.
  - exists m'. split; [done |]. split; [done |].
    intros a b Ha Hb. rewrite (Hm' a b) by done. rewrite length_seq.
    destruct (decide (a < i ∨ a = i ∧ b < n)%nat).
    + by rewrite decide_True by lia.
    + by rewrite decide_False by lia.
Qed.

(** A whole stage rewrites every cell to its [stage_val]. *)
Lemma fw_stage_exact :
  square n m0 → (k < n)%nat →
  ∃ m1, ideal_fw_stage n m0 k = Ok m1 ∧ square n m1 ∧
        ∀ a b, (a < n)%nat → (b < n)%nat → mval m1 a b = stage_val a b.
Proof.
  intros Hsq Hk. unfold ideal_fw_stage.
  destruct (for_each_inv_prefix (λ pre m, stage_at (length pre) 0 m)
              (ideal_fw_row n k) (seq 0 n) m0) as (m1 & Hrun & Hsq1 & Hm1).
  - split; [done |]. intros a b Ha Hb. simpl. by rewrite decide_False by lia.
  - intros pre i post m Hseq Hm.
    apply seq_split in Hseq as [-> Hi].
    destruct (fw_row_exact (length pre) m) as (m' & Hr & Hm'); [done | done | done |].
    exists m'. split; [done |]. rewrite length_app. simpl. by rewrite Nat.add_1_r.
  - exists m1. split; [done |]. split; [done |].
    intros a b Ha Hb. rewrite (Hm1 a b) by done. rewrite length_seq.
    by rewrite decide_True by lia.
Qed.

(** A stage keeps a symmetric matrix symmetric. *)
Lemma stage_val_sym i j :
  (∀ a b, (a < n)%nat → (b < n)%nat → mval m0 a b = mval m0 b a) →
  (i < n)%nat → (j < n)%nat → (k < n)%nat → stage_val i j = stage_val j i.
Proof.
  intros Hsym Hi Hj Hk.
  assert (∀ a, (a < n)%nat → col_val a = row_val a) as Hcr.
  { intros a Ha. unfold col_val, row_val.
    by rewrite (Hsym a k), (ext_plus_comm (mval m0 k a)) by done. }
  unfold stage_val. rewrite (Hsym i j), (Hsym i k), (Hsym k j) by done.
  rewrite ext_plus_comm. rewrite !Hcr by done. done.
Qed.

(** When cell (k,k) holds 0, stage [k] leaves row [k] and column [k] as
    they are, and every cell is rewritten from the cells of [m0]. *)
Lemma kk_read_zero b : mval m0 k k = Fin 0 → kk_read b = Fin 0.
Proof. intros H. unfold kk_read. rewrite H. by destruct b. Qed.

Lemma col_val_zero i : mval m0 k k = Fin 0 → col_val i = mval m0 i k.
Proof.
  intros H. unfold col_val. rewrite kk_read_zero by done.
  destruct (mval m0 i k) as [c|]; [| done].
  unfold dist_min. simpl. by rewrite Z.add_0_r, Z.ltb_irrefl.
Qed.

Lemma row_val_zero j : mval m0 k k = Fin 0 → row_val j = mval m0 k j.
Proof.
  intros H. unfold row_val. rewrite kk_read_zero by done.
  destruct (mval m0 k j) as [c|]; [| done].
  unfold dist_min. simpl. by rewrite Z.ltb_irrefl.
Qed.

Lemma stage_val_zero i j :
  mval m0 k k = Fin 0 →
  stage_val i j = dist_min (mval m0 i j) (ext_plus (mval m0 i k) (mval m0 k j)).
Proof.
  intros H. unfold stage_val. rewrite col_val_zero, row_val_zero by done.
  by destruct (k <? j)%nat, (k <? i)%nat.
Qed.

(** If moreover every cell of [m0] can be added to +infinity, the stage
    raises nothing: it is the stage in exact arithmetic. *)
Lemma relax_cell_agree i j m1 :
  (i < n)%nat → (j < n)%nat → (k < n)%nat → mval m0 k k = Fin 0 →
  (∀ a b, (a < n)%nat → (b < n)%nat → dist_converts (mval m0 a b) = true) →
  stage_at i j m1 → relax_cell k i m1 j = ideal_relax_cell k i m1 j.
Proof.
  intros Hi Hj Hk H0 Hconv [Hsq1 Hm1]. unfold relax_cell, ideal_relax_cell.
  rewrite !(getcell_eq n) by done. simpl.
  rewrite dist_plus_converts; [done | |].
  - rewrite (Hm1 i k) by done.
    case_decide; [rewrite stage_val_col, col_val_zero by done |]; by apply Hconv.
  - rewrite (Hm1 k j) by done.
    case_decide; [rewrite stage_val_row, row_val_zero by done |]; by apply Hconv.
Qed.

Lemma fw_row_agree i m :
  (i < n)%nat → (k < n)%nat → mval m0 k k = Fin 0 →
  (∀ a b, (a < n)%nat → (b < n)%nat → dist_converts (mval m0 a b) = true) →
  stage_at i 0 m → fw_row n k m i = ideal_fw_row n k m i.
Proof.
  intros Hi Hk H0 Hconv Hm. unfold fw_row, ideal_fw_row.
  apply (for_each_agree (λ pre m1, stage_at i (length pre) m1)); [done |].
  intros pre j post m1 Hseq Hm1.
  apply seq_split in Hseq as [-> Hj].
  split; [by apply relax_cell_agree |].
  rewrite length_app. simpl. rewrite Nat.add_1_r.
  by apply relax_cell_exact.
Qed.

Lemma fw_stage_agree :
  square n m0 → (k < n)%nat → mval m0 k k = Fin 0 →
  (∀ a b, (a < n)%nat → (b < n)%nat → dist_converts (mval m0 a b) = true) →
  fw_stage n m0 k = ideal_fw_stage n m0 k.
Proof.
  intros Hsq Hk H0 Hconv. unfold fw_stage, ideal_fw_stage.
  apply (for_each_agree (λ pre m, stage_at (length pre) 0 m)).
  - split; [done |]. intros a b Ha Hb. simpl. by rewrite decide_False by lia.
  - intros pre i post m Hseq Hm.
    apply seq_split in Hseq as [-> Hi].
    split; [by apply fw_row_agree |].
    rewrite length_app. simpl. rewrite Nat.add_1_r.
    by apply fw_row_exact.
Qed.
End StageExact.


Lemma fw_loop_sym n m0 :
  square n m0 → msym n m0 →
  ∃ m, for_each (ideal_fw_stage n) (seq 0 n) m0 = Ok m ∧ square n m ∧ msym n m.
Proof.
  intros Hsq Hsym.
  apply (for_each_inv (λ m, square n m ∧ msym n m)); [done |].
  intros m k Hk [Hsqm Hsymm]. apply elem_of_seq in Hk.
  destruct (fw_stage_exact n k m) as (m1 & Hr & Hsq1 & Hval); [done | lia |].
  exists m1. split; [done |]. split; [done |].
  intros a b Ha Hb. rewrite !Hval by done.
  apply (stage_val_sym n); [done | done | done | lia].
Qed.

(** ** An undirected graph reports each edge once *)

Lemma edges_undirected_split {A} seen (l : list (nat * list (nat * A))) u v a :
  (u, v, a) ∈ edges_undirected seen l →
  ∃ pre nbrs post, l = pre ++ (u, nbrs) :: post ∧ (v, a) ∈ nbrs ∧
                   (v ∉ seen) ∧ (v ∉ pre.*1).
Proof.
  revert seen. induction l as [|[n nbrs] l IH]; intros seen; cbn [edges_undirected].
  - intros H. by apply elem_of_nil in H.
  - intros [H | H]%elem_of_app.
    + apply elem_of_out_edges in H as [-> H].
      apply list_elem_of_filter in H as [Hseen H].
      exists [], nbrs, l. split_and!; [done | done | done |]. apply not_elem_of_nil.
    + destruct (IH _ H) as (pre & nbrs' & post & -> & Hv & Hseen & Hpre).
      exists ((n, nbrs) :: pre), nbrs', post. split_and!; [done | done | |].
      * intros Hs. apply Hseen. by right.
      * cbn. intros [-> | Hin]%elem_of_cons; [| done]. apply Hseen. left.
Qed.

Lemma edges_undirected_once {A} (g : Graph A) u v a b :
  directed g = false → wf_graph g →
  (u, v, a) ∈ edges g → (v, u, b) ∈ edges g → u = v.
Proof.
  unfold edges. intros -> [Hnd _] Huv Hvu.
  apply edges_undirected_split in Huv as (pre & nbrs & post & Hl & _ & _ & Hv).
  apply edges_undirected_split in Hvu as (pre' & nbrs' & post' & Hl' & _ & _ & Hu).
  destruct (decide (u = v)) as [| Hne]; [done | exfalso].
  unfold nodes in Hnd.
  assert ((adj g).*1 !! length pre = Some u) as Hiu.
  { rewrite Hl, fmap_app. cbn - [lookup]. rewrite list_lookup_middle; [done |].
    by rewrite length_fmap. }
  assert ((adj g).*1 !! length pre' = Some v) as Hiv.
  { rewrite Hl', fmap_app. cbn - [lookup]. rewrite list_lookup_middle; [done |].
    by rewrite length_fmap. }
  assert (length pre < length pre' ∨ length pre' < length pre)%nat as [Hlt | Hlt].
  { destruct (decide (length pre = length pre')) as [Heq | ?]; [| lia].
    rewrite Heq in Hiu. congruence. }
  - apply Hu. rewrite Hl' in Hiu. rewrite fmap_app in Hiu.
    rewrite lookup_app_l in Hiu by (by rewrite length_fmap).
    by eapply list_elem_of_lookup_2.
  - apply Hv. rewrite Hl in Hiv. rewrite fmap_app in Hiv.
    rewrite lookup_app_l in Hiv by (by rewrite length_fmap).
    by eapply list_elem_of_lookup_2.
Qed.

(** ** What the engines return *)

(** When [bellman_ford] returns, it returns what exact arithmetic gives:
    no negative cycle can be reached from the source and every entry is the
    least weight of a walk from the source. *)
Lemma bellman_ford_returns (g : Graph Z) (s : nat) (d : gmap nat dist) :
  wf_graph g → bellman_ford_result (nodes g) (edges g) s = Ok d →
  dom d = {[s]} ∪ list_to_set (nodes g) ∧
  sound (edges g) s d ∧
  dist_le (dval d s) (Fin 0) ∧
  no_negative_cycle_from (edges g) s ∧
  ∀ l v c, walk (edges g) s l v c → dist_le (dval d v) (Fin c).
Proof.
  intros Hwf Hres.
  destruct (bellman_ford_sim (nodes g) (edges g) s) as [Heq | Heq]; [| congruence].
  rewrite Heq in Hres.
  destruct (ideal_bellman_ford_outcome g s Hwf)
    as (d' & _ & Hdom & Hsound & Hds & [(Hres' & _) | (Hres' & Hno & _ & Hdw)]);
    [congruence |].
  assert (d' = d) as -> by congruence. done.
Qed.

Lemma floyd_warshall_returns n es m :
  floyd_warshall_result n es = Ok m → ideal_floyd_warshall n es = Ok m.
Proof.
  intros Hres. destruct (floyd_warshall_sim n es) as [Heq | Heq]; congruence.
Qed.

(** On a graph over the nodes 0 .. N-1 every access to the matrix is in
    range: [floyd_warshall] returns an N x N matrix or raises
    [OverflowError]. *)
Lemma floyd_warshall_in_range (g : Graph Z) :
  wf_graph g → nodes_range g →
  (∃ m, floyd_warshall_result (length (nodes g)) (edges g) = Ok m ∧
        square (length (nodes g)) m) ∨
  floyd_warshall_result (length (nodes g)) (edges g) = Raise OverflowError.
Proof.
  intros Hwf Hr.
  destruct (floyd_warshall_sim (length (nodes g)) (edges g)) as [Heq | Heq];
    [left | by right].
  destruct (ideal_floyd_warshall_outcome g Hwf Hr) as (m0 & m & _ & Hfw & Hsq & _).
  exists m. by rewrite Heq.
Qed.

(** ** Weights of walks that visit no node twice *)

Section WalkBounds.
Variable E : list (nat * nat * Z).

Lemma walk_weight_bound W u l v c :
  (∀ u v w, (u, v, w) ∈ E → - W ≤ w ≤ W) → walk E u l v c →
  - (Z.of_nat (length l) * W) ≤ c ≤ Z.of_nat (length l) * W.
Proof.
  intros HW. induction 1 as [u | u x l v w c Hin Hw IH]; [simpl; lia |].
  specialize (HW _ _ _ Hin). cbn [length].
  rewrite Nat2Z.inj_succ, Z.mul_succ_l. lia.
Qed.

(** Without negative cycle a walk can be replaced by one that visits no node
    twice, weighs no more and visits only nodes of the first one. *)
Lemma walk_simple_incl u l v c :
  no_negative_cycle E → walk E u l v c →
  ∃ l' c', walk E u l' v c' ∧ c' ≤ c ∧ NoDup (u :: l') ∧ ∀ y, y ∈ l' → y ∈ l.
Proof.
  intros Hneg H. induction H as [u | u x l v w c Hin Hw IH].
  - exists [], 0. split_and!; [constructor | lia | apply NoDup_singleton | done].
  - destruct IH as (l' & c' & Hw' & Hle & Hnd & Hsub).
    destruct (decide (u ∈ x :: l')) as [Hu | Hu].
    + apply list_elem_of_split in Hu as (l1 & l2 & Hl).
      assert (walk E u (l1 ++ u :: l2) v (w + c')) as Hfull.
      { rewrite <- Hl. by apply walk_cons. }
      apply walk_split in Hfull as (c1 & c2 & H1 & H2 & Hc).
      pose proof (Hneg _ _ _ H1) as Hc1.
      exists l2, c2. split_and!; [done | lia | |].
      * rewrite Hl in Hnd. by apply NoDup_app in Hnd as (_ & _ & Hnd).
      * intros y Hy.
        assert (y ∈ x :: l') as Hy'.
        { rewrite Hl. apply elem_of_app. right. by right. }
        apply elem_of_cons in Hy' as [-> | Hy']; [left | right; by apply Hsub].
    + exists (x :: l'), (w + c').
      split_and!; [by apply walk_cons | lia | by apply NoDup_cons |].
      intros y [-> | Hy]%elem_of_cons; [left | right; by apply Hsub].
Qed.

Lemma walkK_list k u v c :
  walkK E k u v c →
  ∃ l, l ≠ [] ∧ walk E u l v c ∧ ∀ y, y ∈ l → (y < k)%nat ∨ y = v.
Proof.
  induction 1 as [u v w Hin | u x v w c Hin Hlt Hw (l & Hl & IH & Hall)].
  - exists [v]. split_and!; [done | by apply walk_edge |].
    intros y ->%list_elem_of_singleton. by right.
  - exists (x :: l). split_and!; [done | by apply walk_cons |].
    intros y [-> | Hy]%elem_of_cons; [by left | by apply Hall].
Qed.

Lemma walk_end_in u l v c : walk E u l v c → l ≠ [] → v ∈ l.
Proof.
  intros Hw Hne. destruct (walk_snoc_inv _ _ _ _ _ Hw Hne) as (l' & ? & ? & ? & -> & _).
  apply elem_of_app. right. left.
Qed.

(** A walk that visits no node twice and whose nodes, the last one apart,
    are below [k]. *)
Lemma simple_walkK k u l v c :
  walk E u l v c → l ≠ [] → NoDup l →
  (∀ y, y ∈ l → (y < k)%nat ∨ y = v) → walkK E k u v c.
Proof.
  induction 1 as [u | u x l v w c Hin Hw IH]; intros Hne Hnd Hall; [done |].
  destruct l as [|z l].
  - inversion Hw; subst. replace (w + 0) with w by lia. by apply walkK_edge.
  - apply NoDup_cons in Hnd as [Hx Hnd].
    eapply walkK_step; [done | |].
    + destruct (Hall x) as [Hlt | ->]; [left | done |].
      destruct Hx. by eapply walk_end_in.
    + apply IH; [done | done |]. intros y Hy. apply Hall. by right.
Qed.
End WalkBounds.

(** ** Floyd-Warshall without negative cycle *)

Section FloydWarshallBounded.
Variable E : list (nat * nat * Z).
Variable n : nat.
Variable W : Z.
Hypothesis E_range : ∀ u v w, (u, v, w) ∈ E → (u < n)%nat ∧ (v < n)%nat.
Hypothesis E_bound : ∀ u v w, (u, v, w) ∈ E → - W ≤ w ≤ W.
Hypothesis E_limit : Z.of_nat n * W < float_limit.
Hypothesis E_nonneg : no_negative_cycle E.

Local Abbreviation msound := (msound E).
Local Abbreviation mwithin := (mwithin E n).
Local Abbreviation mreach := (mreach E n).

(** The weight of a walk that visits no node twice converts to a float. *)
Lemma simple_walk_converts u l v c :
  walk E u l v c → NoDup (u :: l) → - float_limit < c < float_limit.
Proof.
  intros Hw Hnd.
  assert (length l ≤ length (seq 0 n) - 1)%nat as Hlen.
  { apply (simple_walk_length E (seq 0 n) u l v c); [| done | done].
    intros a b w Hin. rewrite !elem_of_seq.
    destruct (E_range _ _ _ Hin). lia. }
  rewrite length_seq in Hlen.
  pose proof (walk_weight_bound E W u l v c E_bound Hw) as Hc.
  pose proof float_limit_pos as Hpos.
  destruct l as [|x l]; [simpl in Hc; lia |].
  assert (0 ≤ W) as HW.
  { inversion Hw as [| ? ? ? ? w ? Hin]; subst.
    pose proof (E_bound _ _ _ Hin). lia. }
  assert (Z.of_nat (length (x :: l)) * W ≤ Z.of_nat n * W) as Hle.
  { apply Z.mul_le_mono_nonneg_r; [done | lia]. }
  lia.
Qed.

Lemma diag_zero k m i :
  msound m → mwithin k m → (i < n)%nat → mval m i i = Fin 0.
Proof.
  intros Hs [Hdiag _] Hi. specialize (Hdiag i Hi).
  destruct (mval m i i) as [c|] eqn:Hc; [| done]. simpl in Hdiag.
  destruct (Hs i i c Hc) as [l Hl]. pose proof (E_nonneg i l c Hl).
  f_equal. lia.
Qed.

(** At the start of stage [k] every cell can be added to +infinity. *)
Lemma cells_convert k m i j :
  msound m → mwithin k m → mreach k m → (i < n)%nat → (j < n)%nat →
  dist_converts (mval m i j) = true.
Proof.
  intros Hs Hw Hr Hi Hj.
  destruct (mval m i j) as [c|] eqn:Hc; [| done]. simpl.
  apply converts_spec. split.
  - destruct (Hs i j c Hc) as [l Hl].
    destruct (walk_simple_incl E i l j c E_nonneg Hl) as (l' & c' & Hl' & Hle & Hnd & _).
    pose proof (simple_walk_converts i l' j c' Hl' Hnd). lia.
  - destruct (Hr i j c Hi Hj Hc) as [-> | [c0 H0]].
    + rewrite (diag_zero k m j Hs Hw Hj) in Hc. injection Hc as <-.
      apply float_limit_pos.
    + destruct (decide (i = j)) as [-> | Hij].
      { rewrite (diag_zero k m j Hs Hw Hj) in Hc. injection Hc as <-.
        apply float_limit_pos. }
      destruct (walkK_list E k i j c0 H0) as (l & Hne & Hl & Hall).
      destruct (walk_simple_incl E i l j c0 E_nonneg Hl)
        as (l' & c' & Hl' & Hle & Hnd & Hsub).
      assert (l' ≠ []) as Hne'.
      { intros ->. inversion Hl'; subst. done. }
      assert (walkK E k i j c') as HK.
      { apply (simple_walkK E k i l' j c'); [done | done | |].
        - by apply NoDup_cons in Hnd as [_ Hnd].
        - intros y Hy. by apply Hall, Hsub. }
      destruct Hw as [_ Hw]. specialize (Hw i j c' Hi Hj HK).
      rewrite Hc in Hw. simpl in Hw.
      pose proof (simple_walk_converts i l' j c' Hl' Hnd). lia.
Qed.

(** A stage admits [k] among the intermediate nodes of the walks that link
    the two nodes of a finite cell. *)
Lemma mreach_S k m0 m1 :
  (k < n)%nat → mval m0 k k = Fin 0 →
  (∀ a b, (a < n)%nat → (b < n)%nat → mval m1 a b = stage_val k m0 a b) →
  mreach k m0 → mreach (S k) m1.
Proof.
  intros Hk H0 Hval Hr i j c Hi Hj Hc.
  rewrite Hval, stage_val_zero in Hc by done.
  destruct (dist_min_cases (mval m0 i j) (ext_plus (mval m0 i k) (mval m0 k j)))
    as [He | He]; rewrite He in Hc.
  - destruct (Hr i j c Hi Hj Hc) as [-> | [c' H']]; [by left | right].
    exists c'. eapply walkK_mono; [| done]. lia.
  - destruct (mval m0 i k) as [c1|] eqn:H1; [| done].
    destruct (mval m0 k j) as [c2|] eqn:H2; [| done].
    destruct (Hr i k c1 Hi Hk H1) as [-> | [c1' H1']];
      destruct (Hr k j c2 Hk Hj H2) as [<- | [c2' H2']].
    + by left.
    + right. exists c2'. eapply walkK_mono; [| done]. lia.
    + right. exists c1'. eapply walkK_mono; [| done]. lia.
    + right. exists (c1' + c2'). apply (walkK_app E (S k) i k j); [lia | |];
        (eapply walkK_mono; [| done]; lia).
Qed.

(** The triple loop raises nothing: it is the triple loop in exact
    arithmetic. *)
Lemma fw_loop_agree m0 :
  square n m0 → msound m0 → mwithin 0 m0 → mreach 0 m0 →
  for_each (fw_stage n) (seq 0 n) m0 = for_each (ideal_fw_stage n) (seq 0 n) m0.
Proof.
  intros Hsq Hs Hw Hr.
  apply (for_each_agree
           (λ (pre : list nat) (m : list (list dist)),
              square n m ∧ msound m ∧ mwithin (length pre) m ∧ mreach (length pre) m));
    [done |].
  intros pre k post m Hseq (Hsqm & Hsm & Hwm & Hrm).
  apply seq_split in Hseq as [-> Hk].
  pose proof (diag_zero _ m _ Hsm Hwm Hk) as H0.
  split.
  - apply fw_stage_agree; [done | done | done |].
    intros a b Ha Hb. by apply (cells_convert (length pre)).
  - destruct (fw_stage_spec E n (length pre) m) as (m1 & Hrun & Hsq1 & Hs1 & Hle1 & Hstep);
      [done | done | done |].
    destruct (fw_stage_exact n (length pre) m) as (m1' & Hrun' & _ & Hval); [done | done |].
    assert (m1' = m1) as -> by congruence.
    exists m1. split; [done |].
    rewrite length_app. simpl. rewrite Nat.add_1_r.
    split_and!; [done | done | |].
    + by apply (mwithin_S E n (length pre) m).
    + by apply (mreach_S (length pre) m).
Qed.
End FloydWarshallBounded.

(** The matrix before the triple loop, on a graph without negative cycle. *)
Lemma fw_init_within (g : Graph Z) :
  wf_graph g → nodes_range g → no_negative_cycle (edges g) →
  ∃ m0, fw_init (length (nodes g)) (edges g) = Ok m0 ∧
        square (length (nodes g)) m0 ∧ msound (edges g) m0 ∧
        mwithin (edges g) (length (nodes g)) 0 m0 ∧
        mreach (edges g) (length (nodes g)) 0 m0.
Proof.
  intros Hwf Hr Hneg. set (n := length (nodes g)). set (E := edges g).
  assert (∀ u v w, (u, v, w) ∈ E → (u < n)%nat ∧ (v < n)%nat) as HE.
  { intros u v w. by apply edges_range. }
  destruct (fw_init_spec E n HE) as (m0 & Hinit & Hsq0 & Hm0).
  pose proof (fw_init_sound E n m0 Hsq0 Hm0) as Hs0.
  exists m0. split_and!; [done | done | done | |].
  - split.
    + intros i Hi. specialize (Hm0 i i Hi Hi). rewrite decide_True in Hm0 by done.
      rewrite Hm0. simpl. lia.
    + intros i j c Hi Hj Hwalk.
      inversion Hwalk as [? ? ? Hin | ? x ? ? ? ? Hx]; subst; [| lia].
      specialize (Hm0 i j Hi Hj). case_decide as Hij.
      * subst j. rewrite Hm0. simpl. apply (Hneg i [i] c). by apply walk_edge.
      * destruct Hm0 as [[_ Hno] | (w & -> & Hin')]; [by destruct (Hno c) |].
        rewrite (edges_functional g i j w c Hwf Hin' Hin). simpl. lia.
  - intros i j c Hi Hj Hc. specialize (Hm0 i j Hi Hj).
    case_decide as Hij; [by left | right].
    destruct Hm0 as [[Hinf _] | (w & Hw & Hin)]; [congruence |].
    exists w. by apply walkK_edge.
Qed.

(** Without negative cycle and with weights within the limit,
    [floyd_warshall] raises nothing: it returns what exact arithmetic
    gives. *)
Lemma floyd_warshall_bounded (g : Graph Z) (W : Z) :
  wf_graph g → nodes_range g → no_negative_cycle (edges g) → weights_within g W →
  floyd_warshall_result (length (nodes g)) (edges g)
  = ideal_floyd_warshall (length (nodes g)) (edges g).
Proof.
  intros Hwf Hr Hneg [HW Hlim].
  destruct (fw_init_within g Hwf Hr Hneg) as (m0 & Hinit & Hsq0 & Hs0 & Hw0 & Hr0).
  unfold floyd_warshall_result, ideal_floyd_warshall. rewrite Hinit. simpl.
  apply (fw_loop_agree (edges g) (length (nodes g)) W); try done.
  intros u v w. by apply edges_range.
Qed.

(** Weights within the limit convert to a float. *)
Lemma weights_within_convert (g : Graph Z) (W : Z) :
  wf_graph g → weights_within g W → weights_convert g.
Proof.
  intros Hwf [HW Hlim] u v w Hin. apply converts_spec.
  pose proof (HW u v w Hin) as Hw.
  assert (1 ≤ Z.of_nat (length (nodes g))) as Hn.
  { destruct (edges_nodes g u v w Hwf Hin) as [Hu _].
    destruct (nodes g); [by apply elem_of_nil in Hu | simpl; lia]. }
  assert (W ≤ Z.of_nat (length (nodes g)) * W) by nia.
  lia.
Qed.

Lemma bellman_ford_bounded (g : Graph Z) (s : nat) :
  weights_convert g →
  bellman_ford_result (nodes g) (edges g) s = ideal_bellman_ford (nodes g) (edges g) s.
Proof. intros H. by apply bellman_ford_converts. Qed.

(** ** Concrete weights *)

Lemma heavy_not_converts : converts heavy = false.
Proof. by vm_compute. Qed.

Lemma small_converts w : -1000 ≤ w ≤ 1000 → converts w = true.
Proof.
  intros Hw. apply converts_spec.
  assert (1000 < float_limit) by (by vm_compute). lia.
Qed.

(** ** Concrete graphs: weights *)

Lemma fixture_weights_within : weights_within fixture 10.
Proof.
  split; [| by vm_compute].
  intros u v w Hin. cbn in Hin.
  repeat (apply elem_of_cons in Hin as [[= -> -> ->] | Hin]; [lia |]).
  by apply elem_of_nil in Hin.
Qed.

Lemma neg_triangle_weights_convert : weights_convert neg_triangle.
Proof.
  intros u v w Hin. apply small_converts. cbn in Hin.
  repeat (apply elem_of_cons in Hin as [[= -> -> ->] | Hin]; [lia |]).
  by apply elem_of_nil in Hin.
Qed.

Lemma heavy_nonneg : 0 ≤ heavy.
Proof. unfold heavy. apply Z.pow_nonneg. lia. Qed.

Lemma heavy_pair_no_negative_cycle : no_negative_cycle (edges heavy_pair).
Proof.
  apply nonneg_no_negative_cycle. cbn. repeat constructor. apply heavy_nonneg.
Qed.

Lemma heavy_far_no_negative_cycle : no_negative_cycle (edges heavy_far).
Proof.
  apply nonneg_no_negative_cycle. cbn. repeat constructor. apply heavy_nonneg.
Qed.

(** ** A scan of edges that all leave nodes at +infinity *)

Lemma scan_from_inf (d : gmap nat dist) (es : list (nat * nat * Z)) :
  (∀ u v w, (u, v, w) ∈ es → d !! u = Some Inf ∧ is_Some (d !! v)) →
  for_each relax es d
  = (if forallb (λ e : nat * nat * Z, converts e.2) es
     then Ok d else Raise OverflowError) ∧
  for_each check es d
  = (if forallb (λ e : nat * nat * Z, converts e.2) es
     then Ok d else Raise OverflowError).
Proof.
  induction es as [|[[u v] w] es IH]; intros Hkeys; [done |].
  destruct (Hkeys u v w) as [Hu [dv Hv]]; [left |].
  destruct IH as [IHr IHc].
  { intros u' v' w' Hin. apply (Hkeys u' v' w'). by right. }
  cbn [for_each forallb snd]. unfold relax, check, getitem. rewrite Hu, Hv.
  cbn [mbind result_bind dist_add].
  destruct (converts w); cbn [mbind result_bind dist_ltb andb]; [| done].
  by fold (relax) (check).
Qed.

Lemma passes_from_inf (d : gmap nat dist) (es : list (nat * nat * Z)) k :
  (∀ u v w, (u, v, w) ∈ es → d !! u = Some Inf ∧ is_Some (d !! v)) →
  passes es k d
  = (if forallb (λ e : nat * nat * Z, converts e.2) es then Ok d
     else match k with O => Ok d | S _ => Raise OverflowError end).
Proof.
  intros Hkeys. destruct (scan_from_inf d es Hkeys) as [Hr _].
  induction k as [|k IH]; cbn [passes]; [by destruct (forallb _ _) |].
  rewrite Hr. destruct (forallb _ _); [| done].
  cbn [mbind result_bind]. apply IH.
Qed.

(** * The claims *)

(** C9.  Neither engine mutates its input graph: whatever the graph and the
    source, the graph object after the call is the graph object before the
    call, so its nodes and its weighted edges are unchanged. *)
Theorem engines_leave_graph (g : Graph Z) (source : nat) :
  (bellman_ford source g).1 = g ∧ (floyd_warshall g).1 = g ∧
  nodes (bellman_ford source g).1 = nodes g ∧
  edges (bellman_ford source g).1 = edges g ∧
  nodes (floyd_warshall g).1 = nodes g ∧
  edges (floyd_warshall g).1 = edges g.
Proof. rewrite bellman_ford_run, floyd_warshall_run. by split_and!. Qed.

(** C3, as stated: a source that is not a node makes [bellman_ford] raise.
    It does not: on the fixture graph with source 5 a dictionary is
    returned. *)
Lemma unknown_source_not_raised :
  ¬ (∀ (g : Graph Z) (source : nat),
       source ∉ nodes g → ∃ e, (bellman_ford source g).2 = Raise e).
Proof.
  intros H. destruct (H fixture 5%nat) as [e He].
  - by apply (bool_decide_unpack _).
  - vm_compute in He. discriminate.
Qed.

(** C3, amended.  For a source that is not a node of the graph,
    [bellman_ford] raises no error about the source:
    [distances[source] = 0] adds the key.  Every node stays at +infinity, so
    every edge adds its weight to +infinity.  When every weight converts to
    a float (it is below 2^1024 - 2^970 in magnitude) the dictionary
    returned maps the source to 0 and every node to +infinity; when some
    weight does not, [OverflowError] is raised. *)
Theorem bellman_ford_unknown_source (g : Graph Z) (source : nat) :
  wf_graph g → source ∉ nodes g →
  (weights_convert g →
   (bellman_ford source g).2 = Ok (<[source := Fin 0]> (inf_dict (nodes g)))) ∧
  ((∃ u v w, (u, v, w) ∈ edges g ∧ converts w = false) →
   (bellman_ford source g).2 = Raise OverflowError).
Proof.
  intros Hwf Hs. rewrite bellman_ford_run. cbn [snd].
  unfold bellman_ford_result. fold (bf_init (nodes g) source).
  assert (∀ u v w, (u, v, w) ∈ edges g →
            bf_init (nodes g) source !! u = Some Inf ∧
            is_Some (bf_init (nodes g) source !! v)) as Hkeys.
  { intros u v w Hin. destruct (edges_nodes g u v w Hwf Hin) as [Hu Hv].
    rewrite !bf_init_lookup.
    rewrite (decide_False (P := source = u)) by (by intros ->).
    rewrite (decide_False (P := source = v)) by (by intros ->).
    rewrite !decide_True by done. eauto. }
  rewrite (passes_from_inf _ _ _ Hkeys).
  destruct (scan_from_inf _ _ Hkeys) as [_ Hc].
  destruct (forallb _ _) eqn:Hall.
  - cbn [mbind result_bind]. rewrite Hc. split; [done |].
    intros (u & v & w & Hin & Hw). rewrite forallb_forall in Hall.
    apply list_elem_of_In in Hin. specialize (Hall _ Hin). simpl in Hall. congruence.
  - split.
    + intros Hconv. assert (forallb (λ e : nat * nat * Z, converts e.2) (edges g) = true)
        as Hall'; [| congruence].
      apply forallb_forall. intros [[u v] w] Hin%list_elem_of_In. by apply (Hconv u v w).
    + intros _. destruct (length (nodes g) - 1)%nat; cbn [mbind result_bind]; [| done].
      apply Hc.
Qed.

Lemma bellman_ford_unknown_source_witness :
  (bellman_ford 5 fixture).2
  = Ok (<[5%nat := Fin 0]> (inf_dict (nodes fixture))).
Proof.
  destruct (bellman_ford_unknown_source fixture 5) as [H _].
  - apply wf_fixture.
  - by apply (bool_decide_unpack _).
  - apply H. apply (weights_within_convert fixture 10).
    + apply wf_fixture.
    + apply fixture_weights_within.
Defined.

(** C4, as stated: [bellman_ford] raises the negative-cycle error exactly
    when a negative cycle can be reached from the source, and returns
    otherwise.  It does not on an undirected graph: the edge {0, 1} of
    weight -1 of the path 0 - 1 - 2 taken forth and back is a negative
    cycle, and a dictionary is returned.  It does not with a weight that
    does not convert to a float: with the single edge 1->2 out of reach of
    the source 0 there is no negative cycle, and [OverflowError] is
    raised. *)
Lemma negative_cycle_detection_fails :
  ¬ (∀ (g : Graph Z) (source : nat),
       wf_graph g →
       ((bellman_ford source g).2 = Raise (ValueError negative_cycle_msg) ↔
        negative_cycle_reachable (traversals g) source)) ∧
  ¬ (∀ (g : Graph Z) (source : nat),
       wf_graph g → directed g = true →
       ¬ negative_cycle_reachable (edges g) source →
       ∃ d, (bellman_ford source g).2 = Ok d).
Proof.
  split.
  - intros H. destruct (H un_path 0%nat) as [_ Hraise].
    { by apply (bool_decide_unpack _). }
    assert ((bellman_ford 0 un_path).2 = Raise (ValueError negative_cycle_msg)) as Hr.
    { apply Hraise. exists 0%nat. split; [apply reachable_refl |].
      exists [1; 0]%nat, (-1 + (-1 + 0)). split; [| lia].
      repeat (apply walk_cons; [cbn; repeat constructor |]). constructor. }
    vm_compute in Hr. discriminate.
  - intros H. destruct (H heavy_far 0%nat) as [d Hd].
    + by apply (bool_decide_unpack _).
    + done.
    + intros (u & _ & l & c & Hcyc & Hc).
      pose proof (heavy_far_no_negative_cycle u l c Hcyc). lia.
    + vm_compute in Hd. discriminate.
Qed.

(** C4, amended.  On a directed graph whose weights all convert to a float,
    [bellman_ford] runs exactly [|V| - 1] relaxation passes, which reach a
    dictionary [d], and then scans the edges once more.  It raises
    [ValueError] (the negative-cycle error) and returns nothing exactly when
    the scan raises at some edge, that is when some edge still relaxes in
    [d], which is exactly when a negative cycle is reachable from the
    source; otherwise it returns [d].  On the graph 0->1 (1), 1->2 (-3),
    2->0 (1) with source 0 it raises. *)
Theorem bellman_ford_negative_cycle (g : Graph Z) (source : nat) :
  wf_graph g → directed g = true → weights_convert g →
  (∃ d,
     (relax_passes (length (nodes g) - 1) (<[source := Fin 0]> (inf_dict (nodes g))) g).2
       = Ok d ∧
     (bellman_ford source g).2 = for_each check (edges g) d ∧
     ((bellman_ford source g).2 = Raise (ValueError negative_cycle_msg) ↔
      ∃ u v w, (u, v, w) ∈ edges g ∧
               check d (u, v, w) = Raise (ValueError negative_cycle_msg)) ∧
     ((bellman_ford source g).2 = Raise (ValueError negative_cycle_msg) ↔
      ∃ u v w, (u, v, w) ∈ edges g ∧
               dist_ltb (ext_add (dval d u) w) (dval d v) = true) ∧
     ((bellman_ford source g).2 = Raise (ValueError negative_cycle_msg) ↔
      negative_cycle_reachable (edges g) source) ∧
     ((bellman_ford source g).2 = Ok d ↔
      ¬ negative_cycle_reachable (edges g) source)) ∧
  (bellman_ford 0 neg_triangle).2 = Raise (ValueError negative_cycle_msg).
Proof.
  intros Hwf _ Hconv. split; [| by vm_compute].
  rewrite relax_passes_run, bellman_ford_run. cbn [snd].
  destruct (ideal_bellman_ford_outcome g source Hwf)
    as (d & Hrun & Hdom & Hsound & Hds & Hcases).
  exists d. rewrite passes_converts by done. split; [done |]. split.
  { unfold bellman_ford_result. rewrite passes_converts by done.
    fold (bf_init (nodes g) source). by rewrite Hrun. }
  assert (∀ u v w, (u, v, w) ∈ edges g →
            check d (u, v, w) = Raise (ValueError negative_cycle_msg) ↔
            dist_ltb (ext_add (dval d u) w) (dval d v) = true) as Hcheck.
  { intros u v w Hin. destruct (edges_nodes g u v w Hwf Hin) as [Hu Hv].
    rewrite check_converts by (by apply (Hconv u v w)).
    rewrite check_eq
      by (rewrite Hdom; apply elem_of_union; right; by apply elem_of_list_to_set).
    by destruct (dist_ltb _ _). }
  rewrite bellman_ford_bounded by done.
  destruct Hcases as [(Hres & Hneg & Hedge) | (Hres & Hno & Hst & _)]; rewrite Hres.
  - destruct Hedge as (u & v & w & Hin & Hlt).
    split_and!; [| | done |].
    + split; [| done]. intros _. exists u, v, w. split; [done |]. by apply Hcheck.
    + split; [| done]. intros _. by exists u, v, w.
    + split; [done |]. intros Hn. by destruct Hn.
  - apply no_negative_cycle_from_not in Hno.
    split_and!; split; try done.
    + intros (u & v & w & Hin & Hc). apply Hcheck in Hc; [| done].
      by rewrite (Hst u v w Hin) in Hc.
    + intros (u & v & w & Hin & Hlt). by rewrite (Hst u v w Hin) in Hlt.
Qed.

Lemma bellman_ford_negative_cycle_witness :
  negative_cycle_reachable (edges neg_triangle) 0 ∧
  (bellman_ford 0 neg_triangle).2 = Raise (ValueError negative_cycle_msg).
Proof.
  destruct (bellman_ford_negative_cycle neg_triangle 0 wf_neg_triangle eq_refl
              neg_triangle_weights_convert)
    as [(d & _ & _ & _ & _ & Hiff & _) Hex].
  split; [by apply Hiff | done].
Defined.

(** C10.  Whenever [bellman_ford] returns, the entry of the source in the
    dictionary returned is exactly 0. *)
Theorem bellman_ford_source_zero (g : Graph Z) (source : nat) (d : gmap nat dist) :
  wf_graph g → (bellman_ford source g).2 = Ok d → d !! source = Some (Fin 0).
Proof.
  intros Hwf. rewrite bellman_ford_run. simpl. intros Hres.
  destruct (bellman_ford_returns g source d Hwf Hres)
    as (Hdom & Hsound & Hds & Hno & _).
  assert (source ∈ dom d) as Hin.
  { rewrite Hdom. apply elem_of_union. left. by apply elem_of_singleton. }
  apply elem_of_dom in Hin as [x Hx].
  unfold dval in Hds. rewrite Hx in Hds. simpl in Hds.
  destruct x as [c|]; [| done]. simpl in Hds.
  destruct (Hsound source c Hx) as [l Hl].
  pose proof (Hno source l c (reachable_refl _ _) Hl).
  rewrite Hx. do 2 f_equal. lia.
Qed.

Lemma bellman_ford_source_zero_witness :
  ∃ d, (bellman_ford 0 fixture).2 = Ok d ∧ d !! 0%nat = Some (Fin 0).
Proof.
  eexists. split; [apply fixture_bellman_ford |].
  apply (bellman_ford_source_zero fixture 0).
  - apply wf_fixture.
  - apply fixture_bellman_ford.
Defined.

(** The two engines in exact arithmetic agree on a graph without negative
    cycle. *)
Lemma engines_agree_on (g : Graph Z) (source : nat) m d :
  wf_graph g → nodes_range g → no_negative_cycle (edges g) → source ∈ nodes g →
  ideal_floyd_warshall (length (nodes g)) (edges g) = Ok m →
  ideal_bellman_ford (nodes g) (edges g) source = Ok d →
  (∀ v, reachable (edges g) source v →
        ∃ x, cell m source v = Some x ∧ d !! v = Some x) ∧
  (∀ v, v ∈ nodes g → ∃ x, cell m source v = Some x ∧ d !! v = Some x).
Proof.
  intros Hwf Hr Hneg Hs Hm Hd.
  destruct (ideal_floyd_warshall_least g Hwf Hr Hneg) as (m' & Hfw & Hsq & Hms & Hmw).
  assert (m' = m) as -> by congruence.
  destruct (ideal_bellman_ford_outcome g source Hwf)
    as (d' & Hrun & Hdom & Hsound & Hds & [(Hbf & _) | (Hbf & _ & _ & Hdw)]);
    [congruence |].
  assert (d' = d) as -> by congruence.
  assert (∀ v, v ∈ nodes g → ∃ x, cell m source v = Some x ∧ d !! v = Some x) as Hall.
  { intros v Hv. pose proof Hv as Hv'. apply Hr in Hs. apply Hr in Hv.
    exists (mval m source v). split; [by eapply cell_square |].
    assert (v ∈ dom d) as Hin.
    { rewrite Hdom. apply elem_of_union. right. by apply elem_of_list_to_set. }
    rewrite (lookup_dval d v Hin). f_equal.
    apply dist_le_antisym.
    - destruct (mval m source v) as [c|] eqn:Hc; [| apply dist_le_Inf].
      destruct (Hms _ _ _ Hc) as [l Hl]. by apply (Hdw l).
    - destruct (dval d v) as [c|] eqn:Hc; [| apply dist_le_Inf].
      destruct (Hsound v c) as [l Hl]; [by rewrite (lookup_dval d v Hin), Hc |].
      by apply (Hmw source l v c). }
  split; [| done].
  intros v (l & c & Hw). apply Hall.
  destruct (decide (l = [])) as [-> | Hne].
  - by inversion Hw; subst.
  - destruct (walk_snoc_inv _ _ _ _ _ Hw Hne) as (l' & x & c' & w & _ & _ & Hin & _).
    by apply (edges_nodes g x v w).
Qed.

(** On a graph without negative cycle [bellman_ford] in exact arithmetic
    returns. *)
Lemma ideal_bellman_ford_total (g : Graph Z) (source : nat) :
  wf_graph g → no_negative_cycle_from (edges g) source →
  ∃ d, ideal_bellman_ford (nodes g) (edges g) source = Ok d.
Proof.
  intros Hwf Hneg.
  destruct (ideal_bellman_ford_outcome g source Hwf)
    as (d & _ & _ & _ & _ & [(_ & Hcyc & _) | (Hbf & _)]); [| by exists d].
  by destruct (no_negative_cycle_from_not (edges g) source).
Qed.

(** C2, as stated: on a graph without negative cycle both engines return
    and agree on every node reachable from the source.  They do not on the
    graph with the single edge 0->1 of weight 2^1100: [floyd_warshall] adds
    that weight to +infinity and raises [OverflowError]. *)
Lemma engines_agree_overflow :
  ¬ (∀ (g : Graph Z) (source : nat),
       wf_graph g → nodes_range g → no_negative_cycle (edges g) → source ∈ nodes g →
       ∃ m d, (floyd_warshall g).2 = Ok m ∧ (bellman_ford source g).2 = Ok d ∧
              ∀ v, reachable (edges g) source v →
                   ∃ x, cell m source v = Some x ∧ d !! v = Some x).
Proof.
  intros H. destruct (H heavy_pair 0%nat) as (m & d & Hm & _).
  - by apply (bool_decide_unpack _).
  - by apply nodes_range_seq.
  - apply heavy_pair_no_negative_cycle.
  - cbn. repeat constructor.
  - vm_compute in Hm. discriminate.
Qed.

(** C2, amended.  On a graph over the nodes 0 .. N-1 without negative cycle
    and for a source in the graph, whenever both engines return, for every
    node [v] reachable from the source [floyd_warshall(graph)[source][v]]
    equals [bellman_ford(graph, source)[v]] (and so for every node of the
    graph, reachable or not).  Both return when the weights are bounded by
    some [W] such that [N * W] converts to a float. *)
Theorem engines_agree (g : Graph Z) (source : nat) (W : Z) :
  wf_graph g → nodes_range g → no_negative_cycle (edges g) → source ∈ nodes g →
  (∀ m d, (floyd_warshall g).2 = Ok m → (bellman_ford source g).2 = Ok d →
     (∀ v, reachable (edges g) source v →
           ∃ x, cell m source v = Some x ∧ d !! v = Some x) ∧
     (∀ v, v ∈ nodes g → ∃ x, cell m source v = Some x ∧ d !! v = Some x)) ∧
  (weights_within g W →
   ∃ m d, (floyd_warshall g).2 = Ok m ∧ (bellman_ford source g).2 = Ok d).
Proof.
  intros Hwf Hr Hneg Hs. rewrite floyd_warshall_run, bellman_ford_run. cbn [snd].
  split.
  - intros m d Hm Hd. apply floyd_warshall_returns in Hm.
    destruct (bellman_ford_sim (nodes g) (edges g) source) as [Heq | Heq];
      [| congruence].
    rewrite Heq in Hd. by apply engines_agree_on.
  - intros HW.
    rewrite (floyd_warshall_bounded g W) by done.
    rewrite bellman_ford_bounded by (by apply (weights_within_convert g W)).
    destruct (ideal_floyd_warshall_least g Hwf Hr Hneg) as (m & Hfw & _).
    destruct (ideal_bellman_ford_total g source Hwf) as [d Hd].
    { by apply no_negative_cycle_from_all. }
    by exists m, d.
Qed.

Lemma engines_agree_witness :
  ∃ m d, (floyd_warshall fixture).2 = Ok m ∧ (bellman_ford 0 fixture).2 = Ok d ∧
         (∀ v, reachable (edges fixture) 0 v →
               ∃ x, cell m 0 v = Some x ∧ d !! v = Some x) ∧
         (∀ v, v ∈ nodes fixture → ∃ x, cell m 0 v = Some x ∧ d !! v = Some x).
Proof.
  destruct (engines_agree fixture 0 10) as [Hagree Hret].
  - apply wf_fixture.
  - by apply nodes_range_seq.
  - apply fixture_no_negative_cycle.
  - cbn. repeat constructor.
  - destruct (Hret fixture_weights_within) as (m & d & Hm & Hd).
    exists m, d. split; [done |]. split; [done |]. by apply Hagree.
Defined.

(** C7, as stated: the matrix returned by [floyd_warshall] satisfies the
    triangle inequality for every graph.  It does not on the graph 0->1 (-1),
    1->0 (-1): cell (0,0) is -2 while cells (0,1) and (1,0) add up to -6. *)
Lemma triangle_inequality_fails :
  ¬ (∀ (g : Graph Z) (m : list (list dist)),
       wf_graph g → nodes_range g → (floyd_warshall g).2 = Ok m →
       ∀ i j k dij dik dkj,
         cell m i j = Some dij → cell m i k = Some dik → cell m k j = Some dkj →
         dist_le dij (ext_plus dik dkj)).
Proof.
  intros H.
  specialize (H neg_pair [[Fin (-2); Fin (-3)]; [Fin (-3); Fin (-4)]]).
  specialize (H ltac:(by apply (bool_decide_unpack _))
                ltac:(by apply nodes_range_seq) eq_refl).
  specialize (H 0%nat 0%nat 1%nat _ _ _ eq_refl eq_refl eq_refl).
  simpl in H. lia.
Qed.

(** C7, amended.  For every graph over the nodes 0 .. N-1 that has no
    negative cycle, the matrix returned by [floyd_warshall], when it
    completes, satisfies [dist[i][j] <= dist[i][k] + dist[k][j]] for all i,
    j, k below N.  It completes when the weights are bounded by some [W]
    such that [N * W] converts to a float. *)
Theorem floyd_warshall_triangle (g : Graph Z) (W : Z) :
  wf_graph g → nodes_range g → no_negative_cycle (edges g) →
  (∀ m, (floyd_warshall g).2 = Ok m →
     ∀ i j k, (i < length (nodes g))%nat → (j < length (nodes g))%nat →
              (k < length (nodes g))%nat →
       ∃ dij dik dkj,
         cell m i j = Some dij ∧ cell m i k = Some dik ∧ cell m k j = Some dkj ∧
         dist_le dij (ext_plus dik dkj)) ∧
  (weights_within g W → ∃ m, (floyd_warshall g).2 = Ok m).
Proof.
  intros Hwf Hr Hneg. rewrite floyd_warshall_run. cbn [snd].
  destruct (ideal_floyd_warshall_least g Hwf Hr Hneg) as (m & Hfw & Hsq & Hms & Hmw).
  split.
  - intros m' Hm' i j k Hi Hj Hk. apply floyd_warshall_returns in Hm'.
    assert (m' = m) as -> by congruence.
    exists (mval m i j), (mval m i k), (mval m k j).
    split_and!; try by eapply cell_square.
    destruct (mval m i k) as [c1|] eqn:H1; [| apply dist_le_Inf].
    destruct (mval m k j) as [c2|] eqn:H2; [| apply dist_le_Inf].
    destruct (Hms _ _ _ H1) as [l1 Hl1]. destruct (Hms _ _ _ H2) as [l2 Hl2].
    apply (Hmw i (l1 ++ l2) j (c1 + c2)); [done | done |]. by eapply walk_app.
  - intros HW. rewrite (floyd_warshall_bounded g W) by done. by exists m.
Qed.

Lemma floyd_warshall_triangle_witness :
  ∃ m, (floyd_warshall fixture).2 = Ok m ∧
       ∀ i j k, (i < 3)%nat → (j < 3)%nat → (k < 3)%nat →
         ∃ dij dik dkj,
           cell m i j = Some dij ∧ cell m i k = Some dik ∧ cell m k j = Some dkj ∧
           dist_le dij (ext_plus dik dkj).
Proof.
  destruct (floyd_warshall_triangle fixture 10) as [Htri Hret].
  - apply wf_fixture.
  - by apply nodes_range_seq.
  - apply fixture_no_negative_cycle.
  - destruct (Hret fixture_weights_within) as [m Hm].
    exists m. split; [done |]. by apply Htri.
Defined.

(** C8, as stated: on a graph whose node labels are exactly 0 .. N-1
    [floyd_warshall] always returns an N x N matrix.  It does not on the
    graph with the single edge 0->1 of weight 2^1100: the sum
    [distances[1][0] + distances[0][1]] adds that weight to +infinity and
    raises [OverflowError]. *)
Lemma floyd_warshall_overflow :
  ¬ (∀ (g : Graph Z),
       wf_graph g → nodes_range g →
       ∃ m, (floyd_warshall g).2 = Ok m ∧
            length m = length (nodes g) ∧
            Forall (λ row, length row = length (nodes g)) m).
Proof.
  intros H. destruct (H heavy_pair) as (m & Hm & _).
  - by apply (bool_decide_unpack _).
  - by apply nodes_range_seq.
  - vm_compute in Hm. discriminate.
Qed.

(** C8, amended.  On a graph whose node labels are exactly 0 .. N-1, every
    access to the matrix is in range, negative cycle or not:
    [floyd_warshall] raises no [IndexError]; it returns an N x N matrix or
    raises [OverflowError], which happens only when an integer too large to
    convert to a float is added to +infinity.  It returns an N x N matrix
    when the graph has no negative cycle and its weights are bounded by some
    [W] such that [N * W] converts to a float. *)
Theorem floyd_warshall_in_bounds (g : Graph Z) (W : Z) :
  wf_graph g → nodes_range g →
  ((∃ m, (floyd_warshall g).2 = Ok m ∧
         length m = length (nodes g) ∧
         Forall (λ row, length row = length (nodes g)) m) ∨
   (floyd_warshall g).2 = Raise OverflowError) ∧
  (no_negative_cycle (edges g) → weights_within g W →
   ∃ m, (floyd_warshall g).2 = Ok m ∧
        length m = length (nodes g) ∧
        Forall (λ row, length row = length (nodes g)) m).
Proof.
  intros Hwf Hr. rewrite floyd_warshall_run. cbn [snd]. split.
  - destruct (floyd_warshall_in_range g Hwf Hr) as [(m & Hm & Hlen & Hrows) | Hov];
      [left | by right].
    by exists m.
  - intros Hneg HW. rewrite (floyd_warshall_bounded g W) by done.
    destruct (ideal_floyd_warshall_outcome g Hwf Hr) as (m0 & m & _ & Hfw & [Hlen Hrows] & _).
    by exists m.
Qed.

Lemma floyd_warshall_in_bounds_witness :
  negative_cycle_reachable (edges neg_triangle) 0 ∧
  ((∃ m, (floyd_warshall neg_triangle).2 = Ok m ∧
         length m = 3%nat ∧ Forall (λ row, length row = 3%nat) m) ∨
   (floyd_warshall neg_triangle).2 = Raise OverflowError) ∧
  ∃ m, (floyd_warshall fixture).2 = Ok m ∧
       length m = 3%nat ∧ Forall (λ row, length row = 3%nat) m.
Proof.
  split_and!.
  - exists 0%nat. split; [apply reachable_refl |].
    exists [1; 2; 0]%nat, (1 + (-3 + (1 + 0))). split; [| lia].
    repeat (apply walk_cons; [cbn; repeat constructor |]). constructor.
  - apply (floyd_warshall_in_bounds neg_triangle 0).
    + apply wf_neg_triangle.
    + by apply nodes_range_seq.
  - apply (floyd_warshall_in_bounds fixture 10).
    + apply wf_fixture.
    + by apply nodes_range_seq.
    + apply fixture_no_negative_cycle.
    + apply fixture_weights_within.
Defined.

(** C1, as stated: the matrix returned for an undirected graph is
    symmetric.  It is not for the graph with the single edge {0, 1} of
    weight 1: cell (0,1) is 1 and cell (1,0) is +infinity. *)
Lemma undirected_not_symmetric :
  ¬ (∀ (g : Graph Z) (m : list (list dist)),
       directed g = false → wf_graph g → nodes_range g →
       (floyd_warshall g).2 = Ok m →
       ∀ i j, (i < length (nodes g))%nat → (j < length (nodes g))%nat →
              cell m i j = cell m j i).
Proof.
  intros H.
  specialize (H un_pair [[Fin 0; Fin 1]; [Inf; Fin 0]] eq_refl).
  specialize (H ltac:(by apply (bool_decide_unpack _))
                ltac:(by apply nodes_range_seq) eq_refl).
  specialize (H 0%nat 1%nat ltac:(simpl; lia) ltac:(simpl; lia)).
  discriminate.
Qed.

(** C1, amended.  [floyd_warshall] writes each reported edge (u, v, w) into
    cell (u,v) only: with u and v distinct, cell (u,v) starts at w, and cell
    (v,u) starts at +infinity unless the edge (v, u) is reported too, which
    never happens in an undirected graph.  When every reported edge is
    reported in both directions with the same weight, the matrix returned
    is symmetric; a matrix is returned when moreover no weight is negative
    (no negative cycle) and the weights are bounded by some [W] such that
    [N * W] converts to a float. *)
Theorem floyd_warshall_symmetric (g : Graph Z) (W : Z) :
  wf_graph g → nodes_range g →
  ∃ m0,
    fw_init (length (nodes g)) (edges g) = Ok m0 ∧
    (∀ u v w, (u, v, w) ∈ edges g → u ≠ v →
       cell m0 u v = Some (Fin w) ∧
       ((∀ w', (v, u, w') ∉ edges g) → cell m0 v u = Some Inf) ∧
       (directed g = false → cell m0 v u = Some Inf)) ∧
    ((∀ u v w, (u, v, w) ∈ edges g → (v, u, w) ∈ edges g) →
     (∀ m, (floyd_warshall g).2 = Ok m →
        ∀ i j, (i < length (nodes g))%nat → (j < length (nodes g))%nat →
               cell m i j = cell m j i) ∧
     (no_negative_cycle (edges g) → weights_within g W →
      ∃ m, (floyd_warshall g).2 = Ok m)).
Proof.
  intros Hwf Hr. rewrite floyd_warshall_run. cbn [snd].
  set (n := length (nodes g)). set (E := edges g).
  assert (∀ u v w, (u, v, w) ∈ E → (u < n)%nat ∧ (v < n)%nat) as HE.
  { intros u v w. by apply edges_range. }
  destruct (fw_init_spec E n HE) as (m0 & Hinit & Hsq0 & Hm0).
  assert (∀ u v, (u < n)%nat → (v < n)%nat → u ≠ v →
                 (∀ w', (v, u, w') ∉ E) → cell m0 v u = Some Inf) as Hnone.
  { intros u v Hu Hv Hne Hno. rewrite (cell_square n) by done. f_equal.
    specialize (Hm0 v u Hv Hu). rewrite decide_False in Hm0 by done.
    destruct Hm0 as [[-> _] | (w' & _ & Hin')]; [done |]. by destruct (Hno w'). }
  assert (∀ u v w, (u, v, w) ∈ E → u ≠ v → mval m0 u v = Fin w) as Hedge.
  { intros u v w Hin Hne. destruct (HE _ _ _ Hin) as [Hu Hv].
    specialize (Hm0 u v Hu Hv). rewrite decide_False in Hm0 by done.
    destruct Hm0 as [[_ Hno] | (w' & -> & Hin')]; [by destruct (Hno w) |].
    by rewrite (edges_functional g u v w' w Hwf Hin' Hin). }
  exists m0. split_and!; [done | |].
  - intros u v w Hin Hne. destruct (HE _ _ _ Hin) as [Hu Hv]. split_and!.
    + rewrite (cell_square n) by done. f_equal. by apply Hedge.
    + by apply Hnone.
    + intros Hd. apply Hnone; [done | done | done |]. intros w' Hin'.
      apply Hne. by apply (edges_undirected_once g u v w w').
  - intros HEsym. split.
    + intros m Hm. apply floyd_warshall_returns in Hm.
      unfold ideal_floyd_warshall in Hm. fold n E in Hm. rewrite Hinit in Hm.
      cbn [mbind result_bind] in Hm.
      assert (msym n m0) as Hsym.
      { intros a b Ha Hb. destruct (decide (a = b)) as [-> | Hab]; [done |].
        pose proof (Hm0 a b Ha Hb) as Hab'. pose proof (Hm0 b a Hb Ha) as Hba'.
        rewrite decide_False in Hab' by done. rewrite decide_False in Hba' by done.
        destruct Hab' as [[-> Hno] | (w & -> & Hin)].
        - destruct Hba' as [[-> _] | (w & _ & Hin)]; [done |].
          destruct (Hno w). by apply HEsym.
        - symmetry. apply Hedge; [by apply HEsym | done]. }
      destruct (fw_loop_sym n m0 Hsq0 Hsym) as (m' & Hrun' & Hsq & Hsymm).
      assert (m' = m) as -> by congruence.
      intros i j Hi Hj. rewrite !(cell_square n) by done. f_equal. by apply Hsymm.
    + intros Hneg HW. unfold n, E. rewrite (floyd_warshall_bounded g W) by done.
      destruct (ideal_floyd_warshall_outcome g Hwf Hr) as (m1 & m & _ & Hfw & _).
      by exists m.
Qed.

Lemma di_pair_weights_within : weights_within di_pair 1.
Proof.
  split; [| by vm_compute].
  intros u v w Hin. cbn in Hin.
  repeat (apply elem_of_cons in Hin as [[= -> -> ->] | Hin]; [lia |]).
  by apply elem_of_nil in Hin.
Qed.

Lemma floyd_warshall_symmetric_witness :
  ∃ m, (floyd_warshall di_pair).2 = Ok m ∧
       ∀ i j, (i < 2)%nat → (j < 2)%nat → cell m i j = cell m j i.
Proof.
  destruct (floyd_warshall_symmetric di_pair 1) as (m0 & _ & _ & Hsym).
  - by apply (bool_decide_unpack _).
  - by apply nodes_range_seq.
  - destruct Hsym as [Hsym Hret].
    + intros u v w Hin. cbn in Hin |- *.
      repeat (apply elem_of_cons in Hin as [[= -> -> ->] | Hin]; [repeat constructor |]).
      by apply elem_of_nil in Hin.
    + destruct Hret as [m Hm].
      * apply nonneg_no_negative_cycle. cbn. repeat constructor; simpl; lia.
      * apply di_pair_weights_within.
      * exists m. split; [done |]. by apply Hsym.
Defined.

(** ** Adjacency *)



Lemma put_nbr_keys {A} v (a : A) nbrs y :
  y ∈ (put_nbr v a nbrs).*1 ↔ y ∈ nbrs.*1 ∨ y = v.
Proof.
  unfold put_nbr. case_decide as Hv.
  - split; [by left |]. by intros [? | ->].
  - rewrite fmap_app, elem_of_app. cbn. rewrite list_elem_of_singleton. done.
Qed.

Lemma adj_put_keys {A} u v (a : A) l : (adj_put u v a l).*1 = l.*1.
Proof.
  unfold adj_put. rewrite <- list_fmap_compose. apply list_fmap_ext.
  intros i [n nbrs] _. simpl. by case_decide.
Qed.

Lemma has_adj_put {A} u v (a : A) l x y :
  has_adj (adj_put u v a l) x y ↔ has_adj l x y ∨ (x = u ∧ y = v ∧ u ∈ l.*1).
Proof.
  unfold has_adj, adj_put. split.
  - intros (nbrs' & Hin & Hy). apply list_elem_of_fmap in Hin as ([n nbrs] & Heq & Hin).
    simpl in Heq. case_decide as Hn.
    + injection Heq as -> ->. subst n. apply put_nbr_keys in Hy as [Hy | ->].
      * left. by exists nbrs.
      * right. split_and!; [done | done |].
        by apply (list_elem_of_fmap_2' fst _ (u, nbrs)).
    + injection Heq as -> ->. left. by exists nbrs.
  - intros [(nbrs & Hin & Hy) | (-> & -> & Hu)].
    + destruct (decide (x = u)) as [-> | Hx].
      * exists (put_nbr v a nbrs). split; [| apply put_nbr_keys; by left].
        apply list_elem_of_fmap. exists (u, nbrs). simpl. by rewrite decide_True.
      * exists nbrs. split; [| done].
        apply list_elem_of_fmap. exists (x, nbrs). simpl. by rewrite decide_False.
    + apply list_elem_of_fmap in Hu as ([n nbrs] & Heq & Hin). simpl in Heq. subst n.
      exists (put_nbr v a nbrs). split; [| apply put_nbr_keys; by right].
      apply list_elem_of_fmap. exists (u, nbrs). simpl. by rewrite decide_True.
Qed.

Lemma set_nbr_keys {A} v (a : A) nbrs : (set_nbr v a nbrs).*1 = nbrs.*1.
Proof.
  unfold set_nbr. rewrite <- list_fmap_compose. apply list_fmap_ext.
  intros i [n b] _. simpl. by case_decide.
Qed.

Lemma adj_set_keys {A} u v (a : A) l : (adj_set u v a l).*1 = l.*1.
Proof.
  unfold adj_set. rewrite <- list_fmap_compose. apply list_fmap_ext.
  intros i [n nbrs] _. simpl. by case_decide.
Qed.

Lemma has_adj_set {A} u v (a : A) l x y :
  has_adj (adj_set u v a l) x y ↔ has_adj l x y.
Proof.
  unfold has_adj, adj_set. split.
  - intros (nbrs' & Hin & Hy). apply list_elem_of_fmap in Hin as ([n nbrs] & Heq & Hin).
    simpl in Heq. case_decide as Hn.
    + injection Heq as -> ->. rewrite set_nbr_keys in Hy. by exists nbrs.
    + injection Heq as -> ->. by exists nbrs.
  - intros (nbrs & Hin & Hy). destruct (decide (x = u)) as [-> | Hx].
    + exists (set_nbr v a nbrs). split; [| by rewrite set_nbr_keys].
      apply list_elem_of_fmap. exists (u, nbrs). simpl. by rewrite decide_True.
    + exists nbrs. split; [| done].
      apply list_elem_of_fmap. exists (x, nbrs). simpl. by rewrite decide_False.
Qed.

Lemma add_node_in {A} (g : Graph A) n : n ∈ nodes g → add_node g n = g.
Proof. intros H. unfold add_node. by rewrite decide_True. Qed.

Lemma add_edge_directed {A} (g : Graph A) u v a :
  directed (add_edge g u v a) = directed g.
Proof. unfold add_edge, add_node. by repeat case_decide. Qed.

Lemma add_edge_nodes {A} (g : Graph A) u v a :
  u ∈ nodes g → v ∈ nodes g → nodes (add_edge g u v a) = nodes g.
Proof.
  intros Hu Hv. unfold add_edge. rewrite !add_node_in by (by rewrite ?add_node_in).
  unfold nodes. simpl. destruct (directed g); by rewrite !adj_put_keys.
Qed.

Lemma add_edge_has_edge {A} (g : Graph A) u v a x y :
  u ∈ nodes g → v ∈ nodes g →
  has_edge (add_edge g u v a) x y ↔
  has_edge g x y ∨ (x = u ∧ y = v) ∨ (directed g = false ∧ x = v ∧ y = u).
Proof.
  intros Hu Hv. unfold has_edge, add_edge.
  rewrite !add_node_in by (by rewrite ?add_node_in). simpl.
  destruct (directed g).
  - rewrite has_adj_put. unfold nodes in Hu. intuition congruence.
  - rewrite !has_adj_put, adj_put_keys. unfold nodes in Hu, Hv. intuition congruence.
Qed.

Lemma set_attr_directed {A} (g : Graph A) u v a :
  directed (set_attr g u v a) = directed g.
Proof. done. Qed.

Lemma set_attr_nodes {A} (g : Graph A) u v a : nodes (set_attr g u v a) = nodes g.
Proof.
  unfold set_attr, nodes. simpl. destruct (directed g); by rewrite !adj_set_keys.
Qed.

Lemma set_attr_has_edge {A} (g : Graph A) u v a x y :
  has_edge (set_attr g u v a) x y ↔ has_edge g x y.
Proof.
  unfold has_edge, set_attr. simpl. destruct (directed g); by rewrite !has_adj_set.
Qed.

(** Edges reported and adjacency. *)
Lemma edges_has_edge {A} (g : Graph A) u v a :
  (u, v, a) ∈ edges g → has_edge g u v.
Proof.
  intros (nbrs & Hu & Hv)%elem_of_edges. exists nbrs. split; [done |].
  by apply (list_elem_of_fmap_2' fst _ (v, a)).
Qed.

Lemma has_edge_directed {A} (g : Graph A) u v :
  directed g = true → has_edge g u v ↔ (u, v) ∈ (edges g).*1.
Proof.
  intros Hd. split.
  - intros (nbrs & Hu & Hv). apply list_elem_of_fmap in Hv as ([v' a] & -> & Hv).
    apply (list_elem_of_fmap_2' fst _ (u, v', a)); [| done].
    unfold edges. rewrite Hd. rewrite list_elem_of_In, in_flat_map.
    exists (u, nbrs). rewrite <- !list_elem_of_In. split; [done |].
    by apply elem_of_out_edges.
  - intros ([[u' v'] a] & [= -> ->] & Hin)%list_elem_of_fmap.
    by eapply edges_has_edge.
Qed.

Lemma edges_undirected_elem {A} seen (l : list (nat * list (nat * A)))
    pre u nbrs post v a :
  l = pre ++ (u, nbrs) :: post → (v, a) ∈ nbrs → v ∉ seen → v ∉ pre.*1 →
  (u, v, a) ∈ edges_undirected seen l.
Proof.
  revert seen l. induction pre as [|[n nbrs'] pre IH]; intros seen l -> Hv Hseen Hpre.
  - cbn [app edges_undirected]. apply elem_of_app. left.
    apply elem_of_out_edges. split; [done |]. by apply list_elem_of_filter.
  - cbn [app edges_undirected]. apply elem_of_app. right.
    apply (IH _ _ eq_refl Hv).
    + intros [-> | Hs]%elem_of_cons; [| done]. apply Hpre. left.
    + intros Hin. apply Hpre. by right.
Qed.

(** In an undirected graph an edge of the adjacency is reported from one of
    its ends. *)
Lemma has_edge_undirected {A} (g : Graph A) u v :
  directed g = false → NoDup (nodes g) →
  has_edge g u v → has_edge g v u →
  (u, v) ∈ (edges g).*1 ∨ (v, u) ∈ (edges g).*1.
Proof.
  intros Hd Hnd (nbrs & Hu & Hv) (nbrs' & Hv' & Hu').
  unfold edges. rewrite Hd. unfold nodes in Hnd.
  apply list_elem_of_fmap in Hv as ([v0 a] & -> & Hv).
  apply list_elem_of_fmap in Hu' as ([u0 b] & -> & Hu'). simpl in *.
  apply list_elem_of_split in Hu as (pre & post & Hl).
  apply list_elem_of_split in Hv' as (pre' & post' & Hl').
  assert ((adj g).*1 !! length pre = Some u0) as Hiu.
  { rewrite Hl, fmap_app. cbn - [lookup]. rewrite list_lookup_middle; [done |].
    by rewrite length_fmap. }
  assert ((adj g).*1 !! length pre' = Some v0) as Hiv.
  { rewrite Hl', fmap_app. cbn - [lookup]. rewrite list_lookup_middle; [done |].
    by rewrite length_fmap. }
  destruct (decide (length pre ≤ length pre')%nat) as [Hle | Hgt].
  - left. apply (list_elem_of_fmap_2' fst _ (u0, v0, a)); [| done].
    apply (edges_undirected_elem [] _ pre u0 nbrs post); [done | done | apply not_elem_of_nil |].
    intros Hin. apply list_elem_of_lookup in Hin as [i Hi].
    assert (i < length pre)%nat as Hlt.
    { apply lookup_lt_Some in Hi. by rewrite length_fmap in Hi. }
    assert ((adj g).*1 !! i = Some v0) as Hi'.
    { rewrite Hl, fmap_app. by rewrite lookup_app_l by (by rewrite length_fmap). }
    pose proof (NoDup_lookup _ _ _ _ Hnd Hi' Hiv). lia.
  - right. apply (list_elem_of_fmap_2' fst _ (v0, u0, b)); [| done].
    apply (edges_undirected_elem [] _ pre' v0 nbrs' post'); [done | done | apply not_elem_of_nil |].
    intros Hin. apply list_elem_of_lookup in Hin as [i Hi].
    assert (i < length pre')%nat as Hlt.
    { apply lookup_lt_Some in Hi. by rewrite length_fmap in Hi. }
    assert ((adj g).*1 !! i = Some u0) as Hi'.
    { rewrite Hl', fmap_app. by rewrite lookup_app_l by (by rewrite length_fmap). }
    pose proof (NoDup_lookup _ _ _ _ Hnd Hi' Hiu). lia.
Qed.

(** ** Loops on a mutable object *)

Lemma for_eachM_inv {S A} (P : S → Prop) (l : list A) (body : A → M S unit) s :
  P s →
  (∀ s x, x ∈ l → P s → ∃ s', body x s = (s', Ok tt) ∧ P s') →
  ∃ s', for_eachM l body s = (s', Ok tt) ∧ P s'.
Proof.
  revert s. induction l as [|x l IH]; intros s Hs Hbody; cbn [for_eachM].
  - by exists s.
  - destruct (Hbody s x) as (s' & Hx & Hs'); [left | done |].
    unfold mbind, M_bind. rewrite Hx.
    apply IH; [done |]. intros s0 y Hy. apply Hbody. by right.
Qed.

Lemma for_eachM_inv_prefix {S A} (P : list A → S → Prop) (l : list A)
    (body : A → M S unit) s :
  P [] s →
  (∀ pre x post s, l = pre ++ x :: post → P pre s →
     ∃ s', body x s = (s', Ok tt) ∧ P (pre ++ [x]) s') →
  ∃ s', for_eachM l body s = (s', Ok tt) ∧ P l s'.
Proof.
  intros H0 Hbody.
  cut (∀ pre post s, l = pre ++ post → P pre s →
         ∃ s', for_eachM post body s = (s', Ok tt) ∧ P l s').
  { intros Hcut. by apply (Hcut [] l s). }
  intros pre post. revert pre. induction post as [|x post IH]; intros pre s1 Hl Hs1.
  - rewrite app_nil_r in Hl. subst pre. by exists s1.
  - destruct (Hbody pre x post s1 Hl Hs1) as (s' & Hb & Hs').
    cbn [for_eachM]. unfold mbind, M_bind. rewrite Hb.
    apply (IH (pre ++ [x])); [| done]. by rewrite <- app_assoc.
Qed.

(** ** The enumeration of the pairs *)

Lemma groupby_cons {A} (key : A → nat) x l :
  groupby key (x :: l)
  = match groupby key l with
    | (k, grp) :: gs =>
        if decide (k = key x) then (k, x :: grp) :: gs
        else (key x, [x]) :: (k, grp) :: gs
    | [] => [(key x, [x])]
    end.
Proof. done. Qed.

Lemma groupby_block (a : nat) (xs : list nat) (rest : list (nat * nat)) :
  xs ≠ [] →
  (∀ k grp gs, groupby fst rest = (k, grp) :: gs → k ≠ a) →
  groupby fst ((pair a <$> xs) ++ rest) = (a, pair a <$> xs) :: groupby fst rest.
Proof.
  intros Hne Hrest. induction xs as [|x xs IH]; [done |].
  cbn [fmap list_fmap app]. rewrite groupby_cons.
  destruct xs as [|x' xs].
  - cbn [fmap list_fmap app]. destruct (groupby fst rest) as [|[k grp] gs] eqn:Hg; [done |].
    rewrite decide_False; [done |]. by eapply Hrest.
  - rewrite IH by done. by rewrite decide_True.
Qed.

Lemma groupby_combinations (a k : nat) :
  groupby fst (combinations2 (seq a k))
  = (λ i, (i, pair i <$> seq (S i) (a + k - S i))) <$> seq a (k - 1).
Proof.
  revert a. induction k as [|k IH]; intros a; [done |].
  cbn [seq combinations2]. destruct k as [|k]; [done |].
  rewrite groupby_block.
  - rewrite IH. cbn [Nat.sub]. rewrite !Nat.sub_0_r.
    cbn [seq fmap list_fmap]. f_equal.
    + replace (a + S (S k) - S a)%nat with (S k) by lia. done.
    + apply list_fmap_ext. intros i x Hx.
      by replace (S a + S k - S x)%nat with (a + S (S k) - S x)%nat by lia.
  - done.
  - intros k' grp gs. rewrite IH. simpl. rewrite Nat.sub_0_r.
    destruct k as [|k]; [done |]. cbn. intros [= <- _ _]. lia.
Qed.

Lemma groups_of_range (n : nat) :
  groupby fst (combinations2 (seq 0 n))
  = (λ i, (i, pair i <$> seq (S i) (n - S i))) <$> seq 0 (n - 1).
Proof. by rewrite groupby_combinations. Qed.

(** ** The steps of the generator *)



Lemma ginv_add_edge {A} n d (g : Graph A) u v a :
  ginv n d g → (u < n)%nat → (v < n)%nat →
  ginv n d (add_edge g u v a) ∧ sub_graph g (add_edge g u v a) ∧
  has_edge (add_edge g u v a) u v ∧
  (d = false → has_edge (add_edge g u v a) v u).
Proof.
  intros (Hd & Hn & Hsym) Hu Hv.
  assert (u ∈ nodes g) as Hu' by (rewrite Hn; apply elem_of_seq; lia).
  assert (v ∈ nodes g) as Hv' by (rewrite Hn; apply elem_of_seq; lia).
  split_and!.
  - split_and!.
    + by rewrite add_edge_directed.
    + by rewrite add_edge_nodes.
    + intros Hf x y. rewrite !add_edge_has_edge by done. subst d.
      specialize (Hsym Hf x y). intuition.
  - intros x y H. apply add_edge_has_edge; auto.
  - apply add_edge_has_edge; auto.
  - intros Hf. apply add_edge_has_edge; [done | done |]. subst d. auto.
Qed.

Lemma ginv_set_attr {A} n d (g : Graph A) u v a :
  ginv n d g → ginv n d (set_attr g u v a) ∧ sub_graph g (set_attr g u v a).
Proof.
  intros (Hd & Hn & Hsym). split; [split_and! |].
  - done.
  - by rewrite set_attr_nodes.
  - intros Hf x y. rewrite !set_attr_has_edge. by apply Hsym.
  - intros x y. by rewrite set_attr_has_edge.
Qed.

Lemma add_nodes_from_seq {A} d (l0 : list (nat * list (nat * A))) a k :
  l0.*1 = seq 0 a →
  foldl add_node (mkGraph d l0) (seq a k)
  = mkGraph d (l0 ++ ((λ i, (i, [])) <$> seq a k)).
Proof.
  revert l0 a. induction k as [|k IH]; intros l0 a Hl0; cbn [seq foldl].
  - by rewrite app_nil_r.
  - unfold add_node at 2. unfold nodes. cbn [adj directed]. rewrite Hl0.
    rewrite decide_False by (rewrite elem_of_seq; lia).
    rewrite IH.
    + cbn [fmap list_fmap]. by rewrite <- app_assoc.
    + rewrite fmap_app, Hl0. cbn. by rewrite <- seq_S.
Qed.

Lemma ginv_add_nodes {A} n d :
  ginv n d (foldl add_node (@mkGraph A d []) (seq 0 n)) ∧
  ∀ x y, ¬ has_edge (foldl add_node (@mkGraph A d []) (seq 0 n)) x y.
Proof.
  rewrite add_nodes_from_seq by done. cbn [app].
  assert (∀ x y, ¬ has_edge (@mkGraph A d ((λ i, (i, [])) <$> seq 0 n)) x y) as Hno.
  { intros x y (nbrs & Hin & Hy). cbn in Hin.
    apply list_elem_of_fmap in Hin as (i & [= -> ->] & _). by apply elem_of_nil in Hy. }
  split; [| done]. split_and!.
  - done.
  - unfold nodes. cbn [adj]. rewrite <- list_fmap_compose.
    rewrite <- (list_fmap_id (seq 0 n)) at 2. by apply list_fmap_ext.
  - intros _ x y H. by destruct (Hno x y).
Qed.

(** [random.random()] is below 1. *)
Lemma random_below_one (raw : N) (c : Q) :
  Qle 1 c → Qltb (Qmake (Z.of_N (raw mod 2 ^ 53)) (2 ^ 53)) c = true.
Proof.
  intros Hc. unfold Qltb. apply negb_true_iff.
  destruct (Qle_bool c _) eqn:Hle; [| done]. exfalso.
  apply Qle_bool_iff in Hle. pose proof (Qle_trans _ _ _ Hc Hle) as H.
  unfold Qle in H. simpl in H.
  assert (raw mod 2 ^ 53 < 2 ^ 53)%N as Hlt by (by apply N.mod_lt).
  lia.
Qed.

Lemma random_choice_elem {S A} (l : list A) (s : S) (r : rng) :
  l ≠ [] →
  ∃ x, random_choice l (s, r) = ((s, (draw r).2), Ok x) ∧ x ∈ l.
Proof.
  intros Hne. unfold random_choice. destruct l as [|x0 l]; [done |].
  cbn [draw fst snd]. eexists. split; [done |].
  apply list_elem_of_In, nth_In.
  assert (r 0%nat mod N.of_nat (length (x0 :: l)) < N.of_nat (length (x0 :: l)))%N
    by (apply N.mod_lt; simpl; lia).
  lia.
Qed.

(** The inner loop adds edges and keeps the rest; with completeness 1 or
    more it adds every pair. *)
Lemma completeness_loop_spec n d c (l : list (nat * nat)) g r :
  ginv n d g → (∀ e, e ∈ l → (e.1 < n)%nat ∧ (e.2 < n)%nat) →
  ∃ g' r', completeness_loop c l (g, r) = ((g', r'), Ok tt) ∧
           ginv n d g' ∧ sub_graph g g' ∧
           (Qle 1 c → ∀ e, e ∈ l → has_edge g' e.1 e.2).
Proof.
  intros Hg Hl. unfold completeness_loop.
  pose (P := λ (pre : list (nat * nat)) (st : Graph (option Z) * rng),
          ginv n d st.1 ∧ sub_graph g st.1 ∧
          (Qle 1 c → ∀ e, e ∈ pre → has_edge st.1 e.1 e.2)).
  match goal with |- ∃ g' r', for_eachM l ?body _ = _ ∧ _ =>
    destruct (for_eachM_inv_prefix P l body (g, r)) as ([g' r'] & Hrun & Hg' & Hsub & Hall)
  end.
  - split_and!; [done | by intros x y | ]. intros _ e He. by apply elem_of_nil in He.
  - intros pre e post [g1 r1] Hpre (Hg1 & Hsub1 & Hall1). simpl in *.
    destruct (Hl e) as [He1 He2]; [rewrite Hpre; apply elem_of_app; right; left |].
    unfold mbind, M_bind, random_random. cbn [draw fst snd].
    destruct (Qltb _ c) eqn:Hlt.
    + destruct (ginv_add_edge n d g1 e.1 e.2 None Hg1 He1 He2) as (Hg2 & Hsub2 & He & _).
      eexists (_, _). split; [done |]. simpl. split_and!; [done | |].
      * intros x y H. by apply Hsub2, Hsub1.
      * intros Hc e' [He' | He']%elem_of_app.
        -- apply Hsub2. by apply Hall1.
        -- apply list_elem_of_singleton in He' as ->. done.
    + eexists (_, _). split; [done |]. simpl. split_and!; [done | done |].
      intros Hc. by rewrite random_below_one in Hlt.
  - by exists g', r'.
Qed.

(** The body of the loop over the groups adds one edge of the group, in one
    direction or the other, and then runs the inner loop. *)
Lemma group_body_spec n d c (l : list (nat * nat)) g r :
  ginv n d g → l ≠ [] → (∀ e, e ∈ l → (e.1 < n)%nat ∧ (e.2 < n)%nat) →
  ∃ g' r', group_body c l (g, r) = ((g', r'), Ok tt) ∧
           ginv n d g' ∧ sub_graph g g' ∧
           (∃ e, e ∈ l ∧ (has_edge g' e.1 e.2 ∨ has_edge g' e.2 e.1)) ∧
           (Qle 1 c → ∀ e, e ∈ l → has_edge g' e.1 e.2).
Proof.
  intros Hg Hne Hl. unfold group_body.
  destruct (random_choice_elem l g r Hne) as (e & Hch & He).
  unfold mbind at 1. unfold M_bind at 1. rewrite Hch.
  unfold mbind at 1. unfold M_bind at 1. unfold random_random. cbn [draw fst snd].
  destruct (Hl e He) as [He1 He2].
  set (r1 := λ i, r (S (S i))).
  destruct (Qltb _ (Qmake 1 2)) eqn:Hflip.
  - unfold mbind at 1. unfold M_bind at 1. cbn [on_graph nx_add_edge fst snd].
    destruct (ginv_add_edge n d g e.2 e.1 None Hg He2 He1) as (Hg1 & Hsub1 & Hedge & _).
    destruct (completeness_loop_spec n d c l _ r1 Hg1 Hl)
      as (g' & r' & Hrun & Hg' & Hsub' & Hall).
    exists g', r'. split; [done |]. split_and!; [done | | | done].
    + intros x y H. by apply Hsub', Hsub1.
    + exists e. split; [done |]. right. by apply Hsub'.
  - unfold mbind at 1. unfold M_bind at 1. cbn [on_graph nx_add_edge fst snd].
    destruct (ginv_add_edge n d g e.1 e.2 None Hg He1 He2) as (Hg1 & Hsub1 & Hedge & _).
    destruct (completeness_loop_spec n d c l _ r1 Hg1 Hl)
      as (g' & r' & Hrun & Hg' & Hsub' & Hall).
    exists g', r'. split; [done |]. split_and!; [done | | | done].
    + intros x y H. by apply Hsub', Hsub1.
    + exists e. split; [done |]. left. by apply Hsub'.
Qed.

(** ** The generator as a whole *)

Lemma gnp_body_spec n c d r :
  ∃ g r', gnp_body n c (mkGraph d [], r) = ((g, r'), Ok tt) ∧
          ginv n d g ∧
          (∀ i, (i < n - 1)%nat →
                ∃ j, (i < j < n)%nat ∧ (has_edge g i j ∨ has_edge g j i)) ∧
          (Qle 1 c → ∀ i j, (i < j < n)%nat → has_edge g i j).
Proof.
  unfold gnp_body. rewrite groups_of_range.
  set (groups := (λ i, (i, pair i <$> seq (S i) (n - S i))) <$> seq 0 (n - 1)).
  unfold mbind at 1. unfold M_bind at 1. cbn [on_graph nx_add_nodes_from fst snd].
  destruct (@ginv_add_nodes (option Z) n d) as [Hg0 _].
  set (g0 := foldl add_node (mkGraph d []) (seq 0 n)) in *.
  assert (∀ grp, grp ∈ groups →
            (grp.1 < n - 1)%nat ∧ grp.2 ≠ [] ∧
            ∀ e, e ∈ grp.2 → e.1 = grp.1 ∧ (e.1 < e.2 < n)%nat) as Hgroups.
  { intros grp (i & -> & Hi)%list_elem_of_fmap. apply elem_of_seq in Hi. simpl.
    split_and!; [lia | |].
    - destruct (n - S i)%nat eqn:Hk; [lia | done].
    - intros e (j & -> & Hj)%list_elem_of_fmap. apply elem_of_seq in Hj. simpl. lia. }
  pose (P := λ (pre : list (nat * list (nat * nat))) (st : Graph (option Z) * rng),
          ginv n d st.1 ∧
          ∀ grp, grp ∈ pre →
            (∃ e, e ∈ grp.2 ∧ (has_edge st.1 e.1 e.2 ∨ has_edge st.1 e.2 e.1)) ∧
            (Qle 1 c → ∀ e, e ∈ grp.2 → has_edge st.1 e.1 e.2)).
  match goal with |- context [for_eachM groups ?body] =>
    destruct (for_eachM_inv_prefix P groups body (g0, r)) as ([g1 r1] & Hrun1 & Hg1 & Hall1)
  end.
  { split; [done |]. intros grp Hin. by apply elem_of_nil in Hin. }
  { intros pre grp post [g r0] Hpre [Hg Hall]. simpl in *.
    destruct (Hgroups grp) as (_ & Hne & Hgrp);
      [rewrite Hpre; apply elem_of_app; right; left |].
    destruct (group_body_spec n d c grp.2 g r0 Hg Hne) as (g' & r' & Hrun & Hg' & Hsub & He & Hc).
    { intros e He. destruct (Hgrp e He). lia. }
    exists (g', r'). split; [done |]. split; [done |]. simpl.
    intros grp' [Hin | Hin]%elem_of_app.
    - destruct (Hall grp' Hin) as [(e & He' & Hedge) Hc']. split.
      + exists e. split; [done |]. destruct Hedge; [left | right]; by apply Hsub.
      + intros H1 e' He''. by apply Hsub, Hc'.
    - apply list_elem_of_singleton in Hin as ->. done. }
  unfold mbind at 1. unfold M_bind at 1. rewrite Hrun1.
  unfold mbind at 1. unfold M_bind at 1. cbn [on_graph nx_edges fst snd].
  match goal with |- context [for_eachM (edges g1) ?body] =>
    destruct (for_eachM_inv (λ st : Graph (option Z) * rng,
                               ginv n d st.1 ∧ sub_graph g1 st.1)
                (edges g1) body (g1, r1)) as ([g2 r2] & Hrun2 & Hg2 & Hsub2)
  end.
  { split; [done | by intros x y]. }
  { intros [g r0] e _ [Hg Hsub]. simpl in *.
    destruct (ginv_set_attr n d g e.1.1 e.1.2 (Some (-5 + Z.of_N (r0 0%nat) mod (20 - -5 + 1))) Hg)
      as [Hg' Hsub'].
    eexists (_, _). split; [done |]. simpl. split; [done |].
    intros x y H. by apply Hsub', Hsub. }
  exists g2, r2. split; [done |]. simpl in *. split; [done |]. split.
  - intros i Hi.
    destruct (Hall1 (i, pair i <$> seq (S i) (n - S i))) as [(e & He & Hedge) _].
    { apply list_elem_of_fmap. exists i. split; [done |]. apply elem_of_seq. lia. }
    simpl in He. apply list_elem_of_fmap in He as (j & -> & Hj).
    apply elem_of_seq in Hj. exists j. split; [lia |]. simpl in Hedge.
    destruct Hedge; [left | right]; by apply Hsub2.
  - intros Hc i j Hij.
    destruct (Hall1 (i, pair i <$> seq (S i) (n - S i))) as [_ Hfull].
    { apply list_elem_of_fmap. exists i. split; [done |]. apply elem_of_seq. lia. }
    apply Hsub2. apply (Hfull Hc (i, j)). simpl.
    apply list_elem_of_fmap. exists j. split; [done |]. apply elem_of_seq. lia.
Qed.

Lemma gnp_random_connected_graph_spec n c d r :
  ∃ g r', gnp_random_connected_graph n c d r = (r', Ok g) ∧
          ginv n d g ∧
          (∀ i, (i < n - 1)%nat →
                ∃ j, (i < j < n)%nat ∧ (has_edge g i j ∨ has_edge g j i)) ∧
          (Qle 1 c → ∀ i j, (i < j < n)%nat → has_edge g i j).
Proof.
  destruct (gnp_body_spec n c d r) as (g & r' & Hrun & H).
  exists g, r'. unfold gnp_random_connected_graph. by rewrite Hrun.
Qed.

(** ** Connectivity *)



Lemma linked_sym {A} (g : Graph A) u v : linked g u v → linked g v u.
Proof. unfold linked. tauto. Qed.

Lemma rtc_linked_sym {A} (g : Graph A) u v :
  rtc (linked g) u v → rtc (linked g) v u.
Proof.
  induction 1 as [x | x y z Hxy Hyz IH]; [done |].
  eapply rtc_trans; [done |]. by apply rtc_once, linked_sym.
Qed.

(** C6.  For every [n >= 1], whatever the completeness and the state of the
    random generator, the undirected graph returned by
    [gnp_random_connected_graph] has exactly one connected component. *)
Theorem gnp_connected (n : nat) (c : Q) (r : rng) :
  (1 ≤ n)%nat →
  ∃ g r', gnp_random_connected_graph n c false r = (r', Ok g) ∧
          directed g = false ∧ nodes g = seq 0 n ∧ connected g.
Proof.
  intros Hn.
  destruct (gnp_random_connected_graph_spec n c false r)
    as (g & r' & Hrun & (Hd & Hnodes & Hsym) & Hup & _).
  exists g, r'. split_and!; [done | done | done |].
  assert (∀ i j, has_edge g i j ∨ has_edge g j i → linked g i j) as Hlink.
  { intros i j Hij. apply has_edge_undirected; [done | | |].
    - rewrite Hnodes. apply NoDup_seq.
    - destruct Hij; [done | by apply Hsym].
    - destruct Hij; [by apply Hsym | done]. }
  assert (∀ k i, (i + k = n - 1)%nat → rtc (linked g) i (n - 1)%nat) as Htop.
  { induction k as [k IH] using lt_wf_ind. intros i Hi.
    destruct (decide (k = 0)%nat) as [-> | Hk].
    - replace i with (n - 1)%nat by lia. done.
    - destruct (Hup i) as (j & Hj & Hedge); [lia |].
      eapply rtc_l; [by apply Hlink |].
      apply (IH (n - 1 - j)%nat); lia. }
  split.
  - rewrite Hnodes. destruct n; [lia | done].
  - intros u v. rewrite Hnodes, !elem_of_seq. intros Hu Hv.
    eapply rtc_trans.
    + apply (Htop (n - 1 - u)%nat). lia.
    + apply rtc_linked_sym. apply (Htop (n - 1 - v)%nat). lia.
Qed.

Lemma gnp_connected_witness :
  ∃ g r', gnp_random_connected_graph 4 (Qmake 1 2) false (λ _, 7%N) = (r', Ok g) ∧
          directed g = false ∧ nodes g = seq 0 4 ∧ connected g.
Proof. apply (gnp_connected 4 (Qmake 1 2) (λ _, 7%N)). lia. Defined.

(** ** The per-pair check *)


Lemma accepted_elem c l r e : e ∈ accepted c l r → e ∈ l.
Proof.
  revert r. induction l as [|e' l IH]; intros r; cbn [accepted]; [done |].
  destruct (Qltb _ c).
  - intros [-> | H]%elem_of_cons; [left | right; by eapply IH].
  - intros H. right. by eapply IH.
Qed.

(** The inner loop inserts the accepted pairs as they are enumerated, and
    consumes one draw per pair. *)
Lemma completeness_loop_eq c l g r :
  completeness_loop c l (g, r)
  = ((foldl (λ g (e : nat * nat), add_edge g e.1 e.2 None) g (accepted c l r),
      Nat.iter (length l) (λ r, (draw r).2) r), Ok tt).
Proof.
  unfold completeness_loop. revert g r.
  induction l as [|e l IH]; intros g r; [done |].
  cbn [for_eachM accepted length]. rewrite Nat.iter_succ_r.
  unfold mbind at 1. unfold M_bind at 1.
  unfold mbind at 1. unfold M_bind at 1. unfold random_random.
  cbn [draw fst snd].
  destruct (Qltb _ c); cbn [on_graph nx_add_edge mret M_ret fst snd foldl]; apply IH.
Qed.

Lemma foldl_add_edge_has_edge {A} (a : A) (l : list (nat * nat)) (g : Graph A) u v :
  directed g = true →
  (∀ e, e ∈ l → e.1 ∈ nodes g ∧ e.2 ∈ nodes g) →
  has_edge (foldl (λ g (e : nat * nat), add_edge g e.1 e.2 a) g l) u v
  ↔ has_edge g u v ∨ (u, v) ∈ l.
Proof.
  revert g. induction l as [|e l IH]; intros g Hd Hl; cbn [foldl].
  - split; [by left |]. intros [? | H]; [done | by apply elem_of_nil in H].
  - destruct (Hl e) as [He1 He2]; [left |].
    rewrite IH.
    + rewrite add_edge_has_edge by done. rewrite Hd, elem_of_cons.
      destruct e as [e1 e2]. simpl. split.
      * intros [[? | [[-> ->] | [? _]]] | ?]; auto. done.
      * intros [? | [[= -> ->] | ?]]; auto.
    + by rewrite add_edge_directed.
    + intros e' He'. rewrite add_edge_nodes by done. apply Hl. by right.
Qed.

(** C5, as stated: the pairs added by the per-pair check get a random
    orientation.  With two nodes and completeness 1 the check always accepts
    the pair (0, 1); were it inserted as 1->0 with probability 1/2,
    independently of the orientation of the mandatory edge, some state of
    the generator would give a graph without the edge 0->1.  None does. *)
Lemma per_pair_orientation_not_random :
  ¬ ∃ r g r',
      gnp_random_connected_graph 2 (Qmake 1 1) true r = (r', Ok g) ∧
      (0%nat, 1%nat) ∉ (edges g).*1.
Proof.
  intros (r & g & r' & Hrun & Hno).
  destruct (gnp_random_connected_graph_spec 2 (Qmake 1 1) true r)
    as (g0 & r0 & Hrun0 & (Hd & _) & _ & Hfull).
  rewrite Hrun in Hrun0. injection Hrun0 as <- <-.
  apply Hno. apply has_edge_directed; [done |].
  apply Hfull; [| lia]. apply Qle_refl.
Qed.

(** C5, amended.  In a directed graph the per-pair check inserts every pair
    it accepts in the orientation in which the pair is enumerated, whatever
    the state of the random generator: the edges of the graph after the
    check are the edges before it and the accepted pairs, and each pair
    costs one draw, none for an orientation.  The pairs enumerated by the
    generator are the pairs (i, j) with i < j < n, so every accepted pair is
    inserted as the edge i -> j. *)
Theorem per_pair_orientation_fixed (c : Q) (l : list (nat * nat))
    (g : Graph (option Z)) (r : rng) :
  directed g = true →
  (∀ e, e ∈ l → e.1 ∈ nodes g ∧ e.2 ∈ nodes g) →
  (∃ g', completeness_loop c l (g, r)
         = ((g', Nat.iter (length l) (λ r, (draw r).2) r), Ok tt) ∧
         (∀ e, e ∈ accepted c l r → e ∈ l) ∧
         ∀ u v, (u, v) ∈ (edges g').*1 ↔
                (u, v) ∈ (edges g).*1 ∨ (u, v) ∈ accepted c l r) ∧
  (∀ n grp e, grp ∈ groupby fst (combinations2 (seq 0 n)) → e ∈ grp.2 →
              (e.1 < e.2 < n)%nat).
Proof.
  intros Hd Hl. split.
  - rewrite completeness_loop_eq. eexists. split; [done |].
    split; [intros e; apply accepted_elem |].
    intros u v.
    assert (directed (foldl (λ g (e : nat * nat), add_edge g e.1 e.2 None) g
                        (accepted c l r)) = true) as Hd'.
    { clear Hl. generalize (accepted c l r). intros l'. revert g Hd.
      induction l' as [|e l' IH]; intros g Hd; cbn [foldl]; [done |].
      apply IH. by rewrite add_edge_directed. }
    rewrite <- !has_edge_directed by done.
    apply foldl_add_edge_has_edge; [done |].
    intros e He. apply Hl. by eapply accepted_elem.
  - intros n grp e. rewrite groups_of_range.
    intros (i & -> & Hi)%list_elem_of_fmap (j & -> & Hj)%list_elem_of_fmap.
    apply elem_of_seq in Hi. apply elem_of_seq in Hj. simpl. lia.
Qed.

Lemma per_pair_orientation_fixed_witness :
  (∃ g', completeness_loop (Qmake 1 2) [(0, 1); (0, 2)]%nat
           (mkGraph true [(0%nat, []); (1%nat, []); (2%nat, [])], λ _, 7%N)
         = ((g', Nat.iter 2 (λ r, (draw r).2) (λ _, 7%N)), Ok tt) ∧
         (∀ e, e ∈ accepted (Qmake 1 2) [(0, 1); (0, 2)]%nat (λ _, 7%N) →
               e ∈ [(0, 1); (0, 2)]%nat) ∧
         ∀ u v, (u, v) ∈ (edges g').*1 ↔
                (u, v) ∈ (edges (mkGraph true [(0%nat, []); (1%nat, []); (2%nat, [])]
                                  : Graph (option Z))).*1 ∨
                (u, v) ∈ accepted (Qmake 1 2) [(0, 1); (0, 2)]%nat (λ _, 7%N)) ∧
  (∀ n grp e, grp ∈ groupby fst (combinations2 (seq 0 n)) → e ∈ grp.2 →
              (e.1 < e.2 < n)%nat).
Proof.
  apply (per_pair_orientation_fixed (Qmake 1 2) [(0, 1); (0, 2)]%nat).
  - done.
  - intros e He.
    repeat (apply elem_of_cons in He as [-> | He]; [split; repeat constructor |]).
    by apply elem_of_nil in He.
Defined.

(** * Further properties of the engines *)

Lemma walk_ext (E E' : list (nat * nat * Z)) u l v c :
  (∀ e, e ∈ E → e ∈ E') → walk E u l v c → walk E' u l v c.
Proof.
  intros Hsub. induction 1 as [u | u x l v w c Hin Hw IH]; [constructor |].
  apply walk_cons; [by apply Hsub | done].
Qed.



(** X2.  On directed graphs whose weights all convert to a float, the
    outcome of [bellman_ford] does not depend on the order in which the
    graph reports its nodes and its edges: two directed graphs with the same
    nodes and the same weighted edges give the same dictionary, or both
    raise the negative-cycle error. *)
Theorem bellman_ford_order_independent (g g' : Graph Z) (source : nat) :
  wf_graph g → wf_graph g' → directed g = true → directed g' = true →
  weights_convert g →
  (∀ v, v ∈ nodes g ↔ v ∈ nodes g') →
  (∀ e, e ∈ edges g ↔ e ∈ edges g') →
  (bellman_ford source g).2 = (bellman_ford source g').2.
Proof.
  intros Hwf Hwf' _ _ Hconv Hn He. rewrite !bellman_ford_run. simpl.
  rewrite !bellman_ford_bounded;
    [| intros u v w Hin; apply (Hconv u v w); by apply He | done].
  assert (∀ u l v c, walk (edges g) u l v c ↔ walk (edges g') u l v c) as Hwalk.
  { intros u l v c. split; apply walk_ext; intros e; apply He. }
  assert (list_to_set (nodes g) = (list_to_set (nodes g') : gset nat)) as Hset.
  { apply set_eq. intros v. by rewrite !elem_of_list_to_set. }
  destruct (ideal_bellman_ford_outcome g source Hwf)
    as (d & _ & Hdom & Hsound & _ & [(-> & Hneg & _) | (-> & Hno & _ & Hdw)]);
  destruct (ideal_bellman_ford_outcome g' source Hwf')
    as (d' & _ & Hdom' & Hsound' & _ & [(-> & Hneg' & _) | (-> & Hno' & _ & Hdw')]).
  - done.
  - exfalso. destruct Hneg as (u & (l1 & c1 & H1) & l & c & Hcyc & Hc).
    apply Hwalk in H1. apply Hwalk in Hcyc.
    assert (reachable (edges g') source u) as Hu by by exists l1, c1.
    specialize (Hno' u l c Hu Hcyc). lia.
  - exfalso. destruct Hneg' as (u & (l1 & c1 & H1) & l & c & Hcyc & Hc).
    apply Hwalk in H1. apply Hwalk in Hcyc.
    assert (reachable (edges g) source u) as Hu by by exists l1, c1.
    specialize (Hno u l c Hu Hcyc). lia.
  - f_equal. apply map_eq. intros v.
    destruct (decide (v ∈ dom d)) as [Hin | Hin].
    + assert (v ∈ dom d') as Hin' by (by rewrite Hdom', <- Hset, <- Hdom).
      rewrite (lookup_dval d v Hin), (lookup_dval d' v Hin'). f_equal.
      apply dist_le_antisym.
      * destruct (dval d' v) as [c|] eqn:Hc; [| apply dist_le_Inf].
        destruct (Hsound' v c) as [l Hl]; [by rewrite (lookup_dval d' v Hin'), Hc |].
        apply Hwalk in Hl. by apply (Hdw l).
      * destruct (dval d v) as [c|] eqn:Hc; [| apply dist_le_Inf].
        destruct (Hsound v c) as [l Hl]; [by rewrite (lookup_dval d v Hin), Hc |].
        apply Hwalk in Hl. by apply (Hdw' l).
    + assert (v ∉ dom d') as Hin' by (by rewrite Hdom', <- Hset, <- Hdom).
      apply not_elem_of_dom in Hin, Hin'. by rewrite Hin, Hin'.
Qed.

Lemma bellman_ford_order_independent_witness :
  (bellman_ford 0 fixture).2 = (bellman_ford 0 fixture_rev).2.
Proof.
  apply (bellman_ford_order_independent fixture fixture_rev 0).
  - apply wf_fixture.
  - by apply (bool_decide_unpack _).
  - done.
  - done.
  - apply (weights_within_convert fixture 10); [apply wf_fixture |].
    apply fixture_weights_within.
  - intros v. cbn. rewrite !elem_of_cons, !elem_of_nil. tauto.
  - intros e. cbn. rewrite !elem_of_cons, !elem_of_nil. tauto.
Defined.

(** X3.  With no negative weight in the graph, and weights that all
    convert to a float, [bellman_ford] never raises, whatever the source. *)
Theorem bellman_ford_nonnegative (g : Graph Z) (source : nat) :
  wf_graph g → (∀ u v w, (u, v, w) ∈ edges g → 0 ≤ w) → weights_convert g →
  ∃ d, (bellman_ford source g).2 = Ok d.
Proof.
  intros Hwf Hpos Hconv. rewrite bellman_ford_run. simpl.
  rewrite bellman_ford_bounded by done.
  destruct (ideal_bellman_ford_outcome g source Hwf)
    as (d & _ & _ & _ & _ & [(_ & Hneg & _) | (-> & _)]); [| by exists d].
  exfalso. destruct Hneg as (u & _ & l & c & Hcyc & Hc).
  assert (0 ≤ c); [| lia].
  apply (walk_nonneg (edges g) u l u c); [| done].
  apply Forall_forall. intros [[x y] w] Hin. simpl. by apply (Hpos x y w).
Qed.

Lemma bellman_ford_nonnegative_witness :
  ∃ d, (bellman_ford 1 fixture).2 = Ok d.
Proof.
  apply (bellman_ford_nonnegative fixture 1).
  - apply wf_fixture.
  - intros u v w Hin. cbn in Hin.
    repeat (apply elem_of_cons in Hin as [[= -> -> ->] | Hin]; [lia |]).
    by apply elem_of_nil in Hin.
  - apply (weights_within_convert fixture 10); [apply wf_fixture |].
    apply fixture_weights_within.
Defined.

(** ** Undirected graphs as the engines see them *)

(** An undirected graph reports every edge from the node that comes first
    in node order. *)
Lemma edges_undirected_ordered {A} (g : Graph A) u v a :
  directed g = false → wf_graph g → (u, v, a) ∈ edges g → u ≠ v →
  ∃ i j, nodes g !! i = Some u ∧ nodes g !! j = Some v ∧ (i < j)%nat.
Proof.
  intros Hd Hwf Hin Hne. pose proof (edges_nodes g u v a Hwf Hin) as [_ Hv].
  unfold edges in Hin. rewrite Hd in Hin.
  apply edges_undirected_split in Hin as (pre & nbrs & post & Hl & _ & _ & Hpre).
  unfold nodes in *. rewrite Hl in Hv |- *. rewrite fmap_app in Hv |- *.
  cbn [fmap list_fmap fst] in Hv |- *.
  apply elem_of_app in Hv as [Hv | Hv]; [done |].
  apply elem_of_cons in Hv as [Hv | Hv]; [congruence |].
  apply list_elem_of_lookup in Hv as [k Hk].
  exists (length (pre.*1)), (length (pre.*1) + S k)%nat. split_and!.
  - by rewrite list_lookup_middle.
  - rewrite lookup_app_r by lia.
    replace (length (pre.*1) + S k - length (pre.*1))%nat with (S k) by lia. done.
  - lia.
Qed.

(** In such a graph without self-loop no walk comes back to its start. *)
Lemma undirected_walk_forward (g : Graph Z) u l v c :
  directed g = false → wf_graph g → (∀ x w, (x, x, w) ∉ edges g) →
  walk (edges g) u l v c → l ≠ [] →
  ∃ i j, nodes g !! i = Some u ∧ nodes g !! j = Some v ∧ (i < j)%nat.
Proof.
  intros Hd Hwf Hloop. induction 1 as [u | u x l v w c Hin Hw IH]; intros Hne; [done |].
  assert (u ≠ x) as Hux by (intros ->; by apply (Hloop x w)).
  destruct (edges_undirected_ordered g u x w Hd Hwf Hin Hux) as (i & j & Hi & Hj & Hij).
  destruct (decide (l = [])) as [-> | Hl].
  - inversion Hw; subst. by exists i, j.
  - destruct (IH Hl) as (j' & k & Hj' & Hk & Hjk).
    destruct Hwf as [Hnd _].
    pose proof (NoDup_lookup _ _ _ _ Hnd Hj Hj'). subst j'.
    exists i, k. split_and!; [done | done | lia].
Qed.

Lemma undirected_no_negative_cycle (g : Graph Z) :
  directed g = false → wf_graph g → (∀ x w, (x, x, w) ∉ edges g) →
  no_negative_cycle (edges g).
Proof.
  intros Hd Hwf Hloop u l c Hw.
  destruct (decide (l = [])) as [-> | Hne]; [inversion Hw; lia |].
  destruct (undirected_walk_forward g u l u c Hd Hwf Hloop Hw Hne)
    as (i & j & Hi & Hj & Hij).
  destruct Hwf as [Hnd _]. pose proof (NoDup_lookup _ _ _ _ Hnd Hi Hj). lia.
Qed.

(** X4.  On an undirected graph without self-loop whose weights all
    convert to a float [bellman_ford] never raises, negative weights or not:
    every edge is relaxed in one direction only, from the node that comes
    first in node order, so that the edges read contain no cycle. *)
Theorem bellman_ford_undirected_returns (g : Graph Z) (source : nat) :
  directed g = false → wf_graph g → (∀ x w, (x, x, w) ∉ edges g) →
  weights_convert g →
  ∃ d, (bellman_ford source g).2 = Ok d.
Proof.
  intros Hd Hwf Hloop Hconv. rewrite bellman_ford_run. simpl.
  rewrite bellman_ford_bounded by done.
  destruct (ideal_bellman_ford_outcome g source Hwf)
    as (d & _ & _ & _ & _ & [(_ & Hneg & _) | (-> & _)]); [| by exists d].
  exfalso. destruct Hneg as (u & _ & l & c & Hcyc & Hc).
  pose proof (undirected_no_negative_cycle g Hd Hwf Hloop u l c Hcyc). lia.
Qed.

Lemma un_path_weights_convert : weights_convert un_path.
Proof.
  intros u v w Hin. apply small_converts. cbn in Hin.
  repeat (apply elem_of_cons in Hin as [[= -> -> ->] | Hin]; [lia |]).
  by apply elem_of_nil in Hin.
Qed.

Lemma bellman_ford_undirected_returns_witness :
  ∃ d, (bellman_ford 0 un_path).2 = Ok d.
Proof.
  apply (bellman_ford_undirected_returns un_path 0).
  - done.
  - by apply (bool_decide_unpack _).
  - intros x w Hin. cbn in Hin.
    repeat (apply elem_of_cons in Hin as [[= ? ? ?] | Hin]; [lia |]).
    by apply elem_of_nil in Hin.
  - apply un_path_weights_convert.
Defined.

(** ** Further properties of Floyd-Warshall *)

(** Whatever the weights, the matrix returned in exact arithmetic has a
    diagonal at most 0 and, between distinct nodes, cells at most the weight
    of the edge. *)
Lemma ideal_floyd_warshall_cells (g : Graph Z) :
  wf_graph g → nodes_range g →
  ∃ m, ideal_floyd_warshall (length (nodes g)) (edges g) = Ok m ∧
       square (length (nodes g)) m ∧ msound (edges g) m ∧
       (∀ i, (i < length (nodes g))%nat → dist_le (mval m i i) (Fin 0)) ∧
       (∀ u v w, (u, v, w) ∈ edges g → u ≠ v → dist_le (mval m u v) (Fin w)).
Proof.
  intros Hwf Hr. set (n := length (nodes g)). set (E := edges g).
  assert (∀ u v w, (u, v, w) ∈ E → (u < n)%nat ∧ (v < n)%nat) as HE.
  { intros u v w. by apply edges_range. }
  destruct (fw_init_spec E n HE) as (m0 & Hinit & Hsq0 & Hm0).
  pose proof (fw_init_sound E n m0 Hsq0 Hm0) as Hs0.
  destruct (fw_loop_total E n m0 Hsq0 Hs0) as (m & Hrun & Hsq & Hs & Hle).
  exists m. unfold ideal_floyd_warshall. rewrite Hinit. simpl.
  split_and!; [done | done | done | |].
  - intros i Hi. eapply dist_le_trans; [apply Hle |].
    specialize (Hm0 i i Hi Hi). rewrite decide_True in Hm0 by done.
    rewrite Hm0. simpl. lia.
  - intros u v w Hin Hne. eapply dist_le_trans; [apply Hle |].
    destruct (HE _ _ _ Hin) as [Hu Hv].
    specialize (Hm0 u v Hu Hv). rewrite decide_False in Hm0 by done.
    destruct Hm0 as [[_ Hno] | (w' & -> & Hin')]; [by destruct (Hno w) |].
    rewrite (edges_functional g u v w' w Hwf Hin' Hin). simpl. lia.
Qed.

(** X5.  In a matrix returned by [floyd_warshall] the cell of an edge
    between two distinct nodes is at most the weight of the edge, with or
    without negative cycles. *)
Theorem floyd_warshall_edge_bound (g : Graph Z) (m : list (list dist)) :
  wf_graph g → nodes_range g → (floyd_warshall g).2 = Ok m →
  ∀ u v w, (u, v, w) ∈ edges g → u ≠ v →
           ∃ x, cell m u v = Some x ∧ dist_le x (Fin w).
Proof.
  intros Hwf Hr. rewrite floyd_warshall_run. simpl.
  intros Hm%floyd_warshall_returns.
  destruct (ideal_floyd_warshall_cells g Hwf Hr) as (m' & Hfw & Hsq & _ & _ & Hedge).
  assert (m' = m) as -> by congruence.
  intros u v w Hin Hne.
  destruct (edges_range g u v w Hwf Hr Hin) as [Hu Hv].
  exists (mval m u v). split; [by eapply cell_square | by apply Hedge].
Qed.

Lemma floyd_warshall_edge_bound_witness :
  ∃ m, (floyd_warshall neg_triangle).2 = Ok m ∧
       ∀ u v w, (u, v, w) ∈ edges neg_triangle → u ≠ v →
                ∃ x, cell m u v = Some x ∧ dist_le x (Fin w).
Proof.
  eexists. split; [by vm_compute |].
  apply (floyd_warshall_edge_bound neg_triangle).
  - apply wf_neg_triangle.
  - by apply nodes_range_seq.
  - by vm_compute.
Defined.

(** X6.  Every diagonal cell of a matrix returned by [floyd_warshall] is
    an integer at most 0.  A negative one is the weight of a closed walk
    through its node, so it shows a negative cycle; without negative cycle
    the diagonal is 0. *)
Theorem floyd_warshall_diagonal (g : Graph Z) (m : list (list dist)) :
  wf_graph g → nodes_range g → (floyd_warshall g).2 = Ok m →
  ∀ i, (i < length (nodes g))%nat →
       ∃ c, cell m i i = Some (Fin c) ∧ c ≤ 0 ∧
            (c < 0 → negative_cycle_at (edges g) i) ∧
            (no_negative_cycle (edges g) → c = 0).
Proof.
  intros Hwf Hr. rewrite floyd_warshall_run. simpl.
  intros Hm%floyd_warshall_returns.
  destruct (ideal_floyd_warshall_cells g Hwf Hr) as (m' & Hfw & Hsq & Hs & Hdiag & _).
  assert (m' = m) as -> by congruence.
  intros i Hi.
  specialize (Hdiag i Hi). destruct (mval m i i) as [c|] eqn:Hc; [| done].
  simpl in Hdiag. destruct (Hs i i c Hc) as [l Hl].
  exists c. split_and!.
  - rewrite (cell_square _ _ _ _ Hsq Hi Hi). by rewrite Hc.
  - done.
  - intros Hneg. by exists l, c.
  - intros Hno. specialize (Hno i l c Hl). lia.
Qed.

Lemma floyd_warshall_diagonal_witness :
  ∃ m, (floyd_warshall neg_triangle).2 = Ok m ∧
       ∀ i, (i < 3)%nat →
            ∃ c, cell m i i = Some (Fin c) ∧ c ≤ 0 ∧
                 (c < 0 → negative_cycle_at (edges neg_triangle) i) ∧
                 (no_negative_cycle (edges neg_triangle) → c = 0).
Proof.
  eexists. split; [by vm_compute |].
  apply (floyd_warshall_diagonal neg_triangle).
  - apply wf_neg_triangle.
  - by apply nodes_range_seq.
  - by vm_compute.
Defined.



(** X8.  [floyd_warshall] never reports a distance where there is no path,
    negative cycles or not: in a matrix it returns, a cell whose column node
    cannot be reached from its row node is +infinity. *)
Theorem floyd_warshall_unreachable (g : Graph Z) (m : list (list dist)) :
  wf_graph g → nodes_range g → (floyd_warshall g).2 = Ok m →
  ∀ i j, (i < length (nodes g))%nat → (j < length (nodes g))%nat →
         ¬ reachable (edges g) i j → cell m i j = Some Inf.
Proof.
  intros Hwf Hr. rewrite floyd_warshall_run. simpl.
  intros Hm%floyd_warshall_returns.
  destruct (ideal_floyd_warshall_cells g Hwf Hr) as (m' & Hfw & Hsq & Hs & _).
  assert (m' = m) as -> by congruence.
  intros i j Hi Hj Hno.
  rewrite (cell_square _ _ _ _ Hsq Hi Hj). f_equal.
  destruct (mval m i j) as [c|] eqn:Hc; [| done].
  destruct Hno. destruct (Hs i j c Hc) as [l Hl]. by exists l, c.
Qed.

Lemma floyd_warshall_unreachable_witness :
  ∃ m, (floyd_warshall fixture).2 = Ok m ∧
       ∀ i j, (i < 3)%nat → (j < 3)%nat →
              ¬ reachable (edges fixture) i j → cell m i j = Some Inf.
Proof.
  eexists. split; [apply fixture_floyd_warshall |].
  apply (floyd_warshall_unreachable fixture).
  - apply wf_fixture.
  - by apply nodes_range_seq.
  - apply fixture_floyd_warshall.
Defined.

(** Writing the edges into a square matrix succeeds when every endpoint is
    in range and raises [IndexError] otherwise. *)
Lemma fw_init_edges_range n (es : list (nat * nat * Z)) m :
  square n m →
  (Forall (λ e : nat * nat * Z, (e.1.1 < n)%nat ∧ (e.1.2 < n)%nat) es ∧
   ∃ m', for_each (λ m (e : nat * nat * Z), setcell m e.1.1 e.1.2 (Fin e.2)) es m
         = Ok m' ∧ square n m') ∨
  (¬ Forall (λ e : nat * nat * Z, (e.1.1 < n)%nat ∧ (e.1.2 < n)%nat) es ∧
   for_each (λ m (e : nat * nat * Z), setcell m e.1.1 e.1.2 (Fin e.2)) es m
   = Raise IndexError).
Proof.
  revert m. induction es as [|[[u v] w] es IH]; intros m Hsq.
  - left. split; [done |]. by exists m.
  - cbn [for_each fst snd].
    destruct (decide (u < n ∧ v < n)%nat) as [[Hu Hv] | Hout].
    + destruct (setcell_eq n m u v (Fin w) Hsq Hu Hv) as (m1 & -> & Hsq1 & _).
      simpl. destruct (IH m1 Hsq1) as [[Hall Hok] | [Hnot Hraise]].
      * left. split; [| done]. by constructor.
      * right. split; [| done]. intros Hall. apply Hnot.
        by apply Forall_cons in Hall as [_ Hall].
    + right. split.
      { intros Hall. apply Forall_cons in Hall as [Hh _]. by apply Hout. }
      unfold setcell. destruct (m !! u) as [row|] eqn:Hrow; [| done].
      assert (u < n)%nat as Hu.
      { apply lookup_lt_Some in Hrow. destruct Hsq as [<- _]. done. }
      destruct (square_row n m u Hsq Hu) as (row' & Hrow' & Hlen).
      assert (row' = row) as -> by congruence.
      rewrite decide_False; [done |]. lia.
Qed.

(** X9.  [floyd_warshall] uses the node labels as indices into a matrix of
    as many rows and columns as there are nodes: when an edge has an endpoint
    whose label is not below the number of nodes, [IndexError] is raised. *)
Theorem floyd_warshall_label_out_of_range (g : Graph Z) u v w :
  (u, v, w) ∈ edges g →
  ¬ (u < length (nodes g) ∧ v < length (nodes g))%nat →
  (floyd_warshall g).2 = Raise IndexError.
Proof.
  intros Hin Hout. rewrite floyd_warshall_run. simpl.
  unfold floyd_warshall_result, fw_init.
  destruct (fw_init_edges_range (length (nodes g)) (edges g)
              (replicate (length (nodes g)) (replicate (length (nodes g)) Inf))
              (square_replicate _))
    as [[Hall _] | [_ ->]]; [| done].
  rewrite Forall_forall in Hall. destruct Hout. apply (Hall _ Hin).
Qed.

Lemma floyd_warshall_label_out_of_range_witness :
  (floyd_warshall gap_graph).2 = Raise IndexError.
Proof.
  apply (floyd_warshall_label_out_of_range gap_graph 0 5 1).
  - cbn. repeat constructor.
  - cbn. lia.
Defined.

(** An undirected graph whose nodes were added in the order 0 .. N-1 is
    read from smaller to larger nodes only. *)
Lemma undirected_lower_cells (g : Graph Z) (W : Z) :
  directed g = false → wf_graph g → nodes g = seq 0 (length (nodes g)) →
  (∀ m, floyd_warshall_result (length (nodes g)) (edges g) = Ok m →
     ∀ i j, (j < i < length (nodes g))%nat → cell m i j = Some Inf) ∧
  ((∀ x w, (x, x, w) ∉ edges g) → weights_within g W →
   ∃ m, floyd_warshall_result (length (nodes g)) (edges g) = Ok m).
Proof.
  intros Hd Hwf Hseq. pose proof (nodes_range_seq g Hseq) as Hr.
  destruct (ideal_floyd_warshall_cells g Hwf Hr) as (m & Hfw & Hsq & Hs & _).
  split.
  2:{ intros Hloop HW.
      rewrite (floyd_warshall_bounded g W);
        [by exists m | done | done | by apply undirected_no_negative_cycle | done]. }
  intros m' Hm'%floyd_warshall_returns. assert (m' = m) as -> by congruence.
  intros i j Hij.
  rewrite (cell_square _ _ _ _ Hsq) by lia. f_equal.
  destruct (mval m i j) as [c|] eqn:Hc; [| done]. exfalso.
  destruct (Hs i j c Hc) as [l Hl].
  assert (∀ u l v c, walk (edges g) u l v c → (u ≤ v)%nat) as Hup.
  { clear -Hd Hwf Hseq. induction 1 as [u | u x l v w c Hin Hw IH]; [lia |].
    destruct (decide (u = x)) as [-> | Hne]; [done |].
    destruct (edges_undirected_ordered g u x w Hd Hwf Hin Hne) as (a & b & Ha & Hb & Hab).
    rewrite Hseq in Ha, Hb. apply lookup_seq in Ha as [-> _].
    apply lookup_seq in Hb as [-> _]. simpl in *. lia. }
  specialize (Hup i l j c Hl). lia.
Qed.

(** X10.  For an undirected graph whose nodes were added in the order
    0 .. N-1, a matrix returned by [floyd_warshall] is +infinity below the
    diagonal: every edge is entered from its smaller end to its larger end
    only.  A matrix is returned when the graph has no self-loop and its
    weights are bounded by some [W] such that [N * W] converts to a
    float. *)
Theorem floyd_warshall_undirected_triangular (g : Graph Z) (W : Z) :
  directed g = false → wf_graph g → nodes g = seq 0 (length (nodes g)) →
  (∀ m, (floyd_warshall g).2 = Ok m →
     ∀ i j, (j < i < length (nodes g))%nat → cell m i j = Some Inf) ∧
  ((∀ x w, (x, x, w) ∉ edges g) → weights_within g W →
   ∃ m, (floyd_warshall g).2 = Ok m).
Proof.
  intros Hd Hwf Hseq. rewrite floyd_warshall_run. cbn [snd].
  by apply undirected_lower_cells.
Qed.

Lemma floyd_warshall_undirected_triangular_witness :
  ∃ m, (floyd_warshall un_path).2 = Ok m ∧
       ∀ i j, (j < i < 3)%nat → cell m i j = Some Inf.
Proof.
  destruct (floyd_warshall_undirected_triangular un_path 2) as [Htri Hret].
  - done.
  - by apply (bool_decide_unpack _).
  - done.
  - destruct Hret as [m Hm].
    + intros x w Hin. cbn in Hin.
      repeat (apply elem_of_cons in Hin as [[= ? ? ?] | Hin]; [lia |]).
      by apply elem_of_nil in Hin.
    + split; [| by vm_compute].
      intros u v w Hin. cbn in Hin.
      repeat (apply elem_of_cons in Hin as [[= -> -> ->] | Hin]; [lia |]).
      by apply elem_of_nil in Hin.
    + exists m. split; [done |]. by apply Htri.
Defined.

(** * Further properties of the generator *)

(** ** What survives the loops *)

Lemma foldl_add_edge_keeps n (P : Graph (option Z) → Prop) (l : list (nat * nat)) g :
  add_stable n P → nodes g = seq 0 n →
  (∀ e, e ∈ l → (e.1 < e.2 < n)%nat) → P g →
  nodes (foldl (λ g (e : nat * nat), add_edge g e.1 e.2 None) g l) = seq 0 n ∧
  P (foldl (λ g (e : nat * nat), add_edge g e.1 e.2 None) g l).
Proof.
  intros HP. revert g. induction l as [|e l IH]; intros g Hn Hl Hg; [done |].
  cbn [foldl]. destruct (Hl e) as [He1 He2]; [left |].
  apply IH.
  - rewrite add_edge_nodes; [done | |]; rewrite Hn; apply elem_of_seq; lia.
  - intros e' He'. apply Hl. by right.
  - apply HP; [done | lia | lia | lia | done].
Qed.

Lemma completeness_loop_keeps n (P : Graph (option Z) → Prop) c l g r :
  add_stable n P → nodes g = seq 0 n →
  (∀ e, e ∈ l → (e.1 < e.2 < n)%nat) → P g →
  ∃ g' r', completeness_loop c l (g, r) = ((g', r'), Ok tt) ∧
           nodes g' = seq 0 n ∧ P g'.
Proof.
  intros HP Hn Hl Hg. rewrite completeness_loop_eq. eexists _, _. split; [done |].
  apply foldl_add_edge_keeps; [done | done | | done].
  intros e He. apply Hl. by eapply accepted_elem.
Qed.

Lemma group_body_keeps n (P : Graph (option Z) → Prop) c l g r :
  add_stable n P → nodes g = seq 0 n → l ≠ [] →
  (∀ e, e ∈ l → (e.1 < e.2 < n)%nat) → P g →
  ∃ g' r', group_body c l (g, r) = ((g', r'), Ok tt) ∧
           nodes g' = seq 0 n ∧ P g'.
Proof.
  intros HP Hn Hne Hl Hg. unfold group_body.
  destruct (random_choice_elem l g r Hne) as (e & Hch & He).
  unfold mbind at 1. unfold M_bind at 1. rewrite Hch.
  unfold mbind at 1. unfold M_bind at 1. unfold random_random. cbn [draw fst snd].
  destruct (Hl e He) as [He1 He2].
  assert (∀ u v, (u < n)%nat → (v < n)%nat → u ≠ v →
                 nodes (add_edge g u v None) = seq 0 n) as Hnodes.
  { intros u v Hu Hv _. rewrite add_edge_nodes; [done | |]; rewrite Hn;
      apply elem_of_seq; lia. }
  destruct (Qltb _ (Qmake 1 2)).
  - unfold mbind at 1. unfold M_bind at 1. cbn [on_graph nx_add_edge fst snd].
    apply completeness_loop_keeps; [done | | done |].
    + apply Hnodes; lia.
    + apply HP; [done | lia | lia | lia | done].
  - unfold mbind at 1. unfold M_bind at 1. cbn [on_graph nx_add_edge fst snd].
    apply completeness_loop_keeps; [done | | done |].
    + apply Hnodes; lia.
    + apply HP; [done | lia | lia | lia | done].
Qed.

(** The generator runs in two phases: the loop over the groups builds a
    graph [g1] on the nodes 0 .. n-1 by adding edges between distinct nodes,
    and the loop over the edges of [g1] assigns the weights. *)
Lemma gnp_phases n c d r :
  ∃ g1 r1 g2 r2,
    gnp_random_connected_graph n c d r = (r2, Ok g2) ∧
    for_eachM (edges g1) weight_body (g1, r1) = ((g2, r2), Ok tt) ∧
    nodes g1 = seq 0 n ∧
    ∀ P, add_stable n P → P (empty_graph n d) → P g1.
Proof.
  unfold gnp_random_connected_graph, gnp_body. rewrite groups_of_range.
  set (groups := (λ i, (i, pair i <$> seq (S i) (n - S i))) <$> seq 0 (n - 1)).
  unfold mbind at 1. unfold M_bind at 1. cbn [on_graph nx_add_nodes_from fst snd].
  rewrite add_nodes_from_seq by done. cbn [app]. fold (empty_graph n d).
  pose (Q := λ st : Graph (option Z) * rng,
          nodes st.1 = seq 0 n ∧
          ∀ P, add_stable n P → P (empty_graph n d) → P st.1).
  assert (nodes (empty_graph n d) = seq 0 n) as Hn0.
  { unfold nodes, empty_graph. cbn [adj]. rewrite <- list_fmap_compose.
    rewrite <- (list_fmap_id (seq 0 n)) at 2. by apply list_fmap_ext. }
  match goal with |- context [for_eachM groups ?body] =>
    destruct (for_eachM_inv Q groups body (empty_graph n d, r)) as ([g1 r1] & Hrun1 & Hn1 & HQ1)
  end.
  { split; [done |]. by intros P _ HP. }
  { intros [g r0] grp (i & -> & Hi)%list_elem_of_fmap [Hn HQ]. simpl in *.
    apply elem_of_seq in Hi.
    destruct (group_body_keeps n
                (λ g, ∀ P, add_stable n P → P (empty_graph n d) → P g)
                c (pair i <$> seq (S i) (n - S i)) g r0)
      as (g' & r' & Hrun & Hn' & HQ').
    - intros g0 u v Hg0 Hu Hv Huv HQ0 P HP HP0. apply HP; try done. by apply HQ0.
    - done.
    - destruct (n - S i)%nat eqn:Hk; [lia | done].
    - intros e (j & -> & Hj)%list_elem_of_fmap. apply elem_of_seq in Hj. simpl. lia.
    - done.
    - by exists (g', r'). }
  unfold mbind at 1. unfold M_bind at 1. rewrite Hrun1.
  unfold mbind at 1. unfold M_bind at 1. cbn [on_graph nx_edges fst snd].
  simpl in Hn1, HQ1.
  destruct (for_eachM_inv (λ _, True) (edges g1) weight_body (g1, r1))
    as ([g2 r2] & Hrun2 & _); [done | |].
  { intros [g r0] e _ _. eexists (_, _). by split. }
  exists g1, r1, g2, r2.
  change (for_eachM (edges g1) weight_body (g1, r1) = (g2, r2, Ok tt)) in Hrun2.
  split_and!; [| done | done | done].
  match goal with |- context [for_eachM (edges g1) ?body] =>
    change (for_eachM (edges g1) body) with (for_eachM (edges g1) weight_body)
  end.
  by rewrite Hrun2.
Qed.

(** ** The adjacency without the attributes *)

Lemma nodes_skeleton {A} (g : Graph A) : nodes g = (skeleton g).*1.
Proof.
  unfold nodes, skeleton. rewrite <- list_fmap_compose. by apply list_fmap_ext.
Qed.

Lemma has_edge_skeleton {A} (g : Graph A) x y :
  has_edge g x y ↔ ∃ ks, (x, ks) ∈ skeleton g ∧ y ∈ ks.
Proof.
  unfold has_edge, has_adj, skeleton. split.
  - intros (nbrs & Hin & Hy). exists (nbrs.*1). split; [| done].
    apply list_elem_of_fmap. by exists (x, nbrs).
  - intros (ks & Hin & Hy). apply list_elem_of_fmap in Hin as ([n nbrs] & [= -> ->] & Hin).
    by exists nbrs.
Qed.

Lemma entry_has_edge {A} (g : Graph A) x y a : entry g x y a → has_edge g x y.
Proof.
  intros (nbrs & Hin & Hy). exists nbrs. split; [done |].
  by apply (list_elem_of_fmap_2' fst _ (y, a)).
Qed.

Lemma wf_graph_skeleton {A} (g : Graph A) :
  wf_graph g ↔
  NoDup (skeleton g).*1 ∧
  Forall (λ nk : nat * list nat,
            NoDup nk.2 ∧ Forall (λ y, y ∈ (skeleton g).*1) nk.2) (skeleton g).
Proof.
  unfold wf_graph. rewrite <- !nodes_skeleton. unfold skeleton.
  rewrite Forall_fmap. apply and_iff_compat_l.
  apply Forall_proper; [| done]. intros [n nbrs]. simpl.
  apply and_iff_compat_l. by rewrite Forall_fmap.
Qed.

Lemma wf_graph_ext {A B} (g : Graph A) (g' : Graph B) :
  skeleton g = skeleton g' → wf_graph g → wf_graph g'.
Proof. rewrite !wf_graph_skeleton. by intros ->. Qed.

Lemma filter_keys {A} (seen : list nat) (nbrs : list (nat * A)) :
  (filter (λ va : nat * A, va.1 ∉ seen) nbrs).*1
  = filter (λ y, y ∉ seen) (nbrs.*1).
Proof.
  induction nbrs as [|[y a] nbrs IH]; [done |].
  cbn [fmap list_fmap]. rewrite !filter_cons. simpl.
  destruct (decide (y ∉ seen)); cbn [fmap list_fmap fst]; by rewrite IH.
Qed.

Lemma out_edges_pairs {A} n (nbrs : list (nat * A)) :
  (out_edges n nbrs).*1 = pair n <$> nbrs.*1.
Proof.
  unfold out_edges. rewrite <- !list_fmap_compose. by apply list_fmap_ext.
Qed.

(** The pairs of nodes reported as edges depend on the adjacency only. *)
Lemma edges_pairs_ext {A B} (g : Graph A) (g' : Graph B) :
  directed g = directed g' → skeleton g = skeleton g' →
  (edges g).*1 = (edges g').*1.
Proof.
  unfold edges, skeleton. intros <-. generalize (adj g) (adj g'). intros l l' Hsk.
  destruct (directed g).
  - revert l' Hsk. induction l as [|[n nbrs] l IH]; intros [|[n' nbrs'] l'] Hsk;
      try done.
    cbn [fmap list_fmap] in Hsk. injection Hsk as -> Hk Hsk.
    cbn [flat_map]. rewrite !fmap_app, !out_edges_pairs. simpl.
    by rewrite Hk, (IH l' Hsk).
  - generalize (@nil nat). revert l' Hsk.
    induction l as [|[n nbrs] l IH]; intros [|[n' nbrs'] l'] Hsk seen; try done.
    cbn [fmap list_fmap] in Hsk. injection Hsk as -> Hk Hsk.
    cbn [edges_undirected]. rewrite !fmap_app, !out_edges_pairs, !filter_keys.
    by rewrite Hk, (IH l' Hsk).
Qed.

Lemma skeleton_set_attr {A} (g : Graph A) u v a :
  skeleton (set_attr g u v a) = skeleton g.
Proof.
  assert (∀ u v (l : list (nat * list (nat * A))),
            (λ na : nat * list (nat * A), (na.1, na.2.*1)) <$> adj_set u v a l
            = (λ na : nat * list (nat * A), (na.1, na.2.*1)) <$> l) as Hset.
  { intros u' v' l. unfold adj_set. rewrite <- list_fmap_compose.
    apply list_fmap_ext. intros i [n nbrs] _. simpl.
    case_decide; [| done]. simpl. by rewrite set_nbr_keys. }
  unfold skeleton, set_attr. cbn [adj]. destruct (directed g); by rewrite !Hset.
Qed.

(** ** Attributes *)

Lemma elem_of_set_nbr {A} v (a : A) nbrs y b :
  (y, b) ∈ set_nbr v a nbrs →
  ∃ b0, (y, b0) ∈ nbrs ∧ b = if decide (y = v) then a else b0.
Proof.
  unfold set_nbr. intros ([y0 b0] & Heq & Hin)%list_elem_of_fmap. simpl in Heq.
  case_decide as Hy.
  - injection Heq as -> ->. exists b0. subst. by rewrite decide_True.
  - injection Heq as -> ->. exists b0. by rewrite decide_False.
Qed.

Lemma entry_adj_set {A} u v (a : A) (l : list (nat * list (nat * A))) x y b :
  (∃ nbrs, (x, nbrs) ∈ adj_set u v a l ∧ (y, b) ∈ nbrs) →
  ∃ b0, (∃ nbrs, (x, nbrs) ∈ l ∧ (y, b0) ∈ nbrs) ∧
        b = if decide (x = u ∧ y = v) then a else b0.
Proof.
  unfold adj_set. intros (nbrs' & Hin & Hy).
  apply list_elem_of_fmap in Hin as ([n nbrs] & Heq & Hin). simpl in Heq.
  case_decide as Hn.
  - injection Heq as -> ->. subst n.
    apply elem_of_set_nbr in Hy as (b0 & Hy & ->).
    exists b0. split; [by exists nbrs |].
    destruct (decide (y = v)) as [-> | Hyv].
    + by rewrite decide_True.
    + rewrite decide_False; [done | tauto].
  - injection Heq as -> ->. exists b. split; [by exists nbrs |].
    rewrite decide_False; [done | tauto].
Qed.

(** After [w['weight'] = ...] on the edge (u, v) the entry of [adj[u][v]]
    and, in an undirected graph, of [adj[v][u]] is the new attribute; the
    other entries are as before. *)
Lemma entry_set_attr {A} (g : Graph A) u v a x y b :
  entry (set_attr g u v a) x y b →
  ∃ b0, entry g x y b0 ∧
        b = if decide ((x = u ∧ y = v) ∨ (directed g = false ∧ x = v ∧ y = u))
            then a else b0.
Proof.
  unfold entry, set_attr. cbn [adj]. destruct (directed g).
  - intros H. apply entry_adj_set in H as (b0 & H & ->). exists b0. split; [done |].
    destruct (decide (x = u ∧ y = v)).
    + by rewrite decide_True by tauto.
    + rewrite decide_False; [done |]. intros [? | [? _]]; done.
  - intros H. apply entry_adj_set in H as (b1 & H & ->).
    apply entry_adj_set in H as (b0 & H & ->). exists b0. split; [done |].
    destruct (decide (x = v ∧ y = u)).
    + by rewrite decide_True by tauto.
    + destruct (decide (x = u ∧ y = v)).
      * by rewrite decide_True by tauto.
      * rewrite decide_False; [done | tauto].
Qed.

Lemma randint_range (raw : N) :
  -5 ≤ -5 + Z.of_N raw mod (20 - -5 + 1) ≤ 20.
Proof.
  pose proof (Z.mod_pos_bound (Z.of_N raw) (20 - -5 + 1)). lia.
Qed.

(** The loop of lines 100-101 keeps the adjacency and leaves a weight
    between -5 and 20 on every edge it has visited. *)
Lemma weight_loop_spec g1 r1 g2 r2 :
  for_eachM (edges g1) weight_body (g1, r1) = ((g2, r2), Ok tt) →
  directed g2 = directed g1 ∧ skeleton g2 = skeleton g1 ∧
  ∀ u v a b, (u, v, a) ∈ edges g1 →
             entry g2 u v b ∨ (directed g1 = false ∧ entry g2 v u b) →
             ∃ w, b = Some w ∧ -5 ≤ w ≤ 20.
Proof.
  intros Hrun.
  pose (P := λ (pre : list (nat * nat * option Z)) (st : Graph (option Z) * rng),
          directed st.1 = directed g1 ∧ skeleton st.1 = skeleton g1 ∧
          ∀ u v a b, (u, v, a) ∈ pre →
                     entry st.1 u v b ∨ (directed g1 = false ∧ entry st.1 v u b) →
                     ∃ w, b = Some w ∧ -5 ≤ w ≤ 20).
  destruct (for_eachM_inv_prefix P (edges g1) weight_body (g1, r1))
    as ([g r] & Hrun' & HP).
  - split_and!; [done | done |]. intros u v a b Hin. by apply elem_of_nil in Hin.
  - intros pre [[u v] a] post [g r] _ (Hd & Hsk & Hpre). simpl in *.
    eexists (_, _). split; [done |]. unfold P. cbn [fst]. split_and!.
    + done.
    + by rewrite skeleton_set_attr.
    + set (w := -5 + Z.of_N (r 0%nat) mod (20 - -5 + 1)).
      assert (-5 ≤ w ≤ 20) as Hw by apply randint_range.
      intros u' v' a' b Hin Hb.
      apply elem_of_app in Hin as [Hin | Hin].
      * destruct Hb as [Hb | [Hu Hb]].
        -- apply entry_set_attr in Hb as (b0 & Hb0 & ->).
           case_decide; [by exists w |]. apply (Hpre u' v' a' b0 Hin). by left.
        -- apply entry_set_attr in Hb as (b0 & Hb0 & ->).
           case_decide; [by exists w |]. apply (Hpre u' v' a' b0 Hin). by right.
      * apply list_elem_of_singleton in Hin. injection Hin as -> -> ->.
        destruct Hb as [Hb | [Hu Hb]].
        -- apply entry_set_attr in Hb as (b0 & Hb0 & ->).
           rewrite decide_True by tauto. by exists w.
        -- apply entry_set_attr in Hb as (b0 & Hb0 & ->).
           rewrite decide_True; [by exists w |]. right. rewrite Hd. tauto.
  - rewrite Hrun in Hrun'. injection Hrun' as <- <-. done.
Qed.

(** ** What the generator builds *)

Lemma wf_adj_put {A} (ns : list nat) u v (a : A) (l : list (nat * list (nat * A))) :
  v ∈ ns →
  Forall (λ na : nat * list (nat * A),
            NoDup (na.2.*1) ∧ Forall (λ va : nat * A, va.1 ∈ ns) na.2) l →
  Forall (λ na : nat * list (nat * A),
            NoDup (na.2.*1) ∧ Forall (λ va : nat * A, va.1 ∈ ns) na.2)
         (adj_put u v a l).
Proof.
  intros Hv Hall. unfold adj_put. apply Forall_fmap.
  eapply Forall_impl; [done |]. intros [n nbrs] [Hnd Hin]. simpl in *.
  case_decide; [| done]. simpl. unfold put_nbr. case_decide as Hpresent; [done |].
  split.
  - rewrite fmap_app. apply NoDup_app. split_and!; [done | | apply NoDup_singleton].
    intros x Hx Hx'. apply list_elem_of_singleton in Hx'. by subst.
  - apply Forall_app. split; [done |]. by repeat constructor.
Qed.

Lemma wf_add_edge {A} (g : Graph A) u v a :
  wf_graph g → u ∈ nodes g → v ∈ nodes g → wf_graph (add_edge g u v a).
Proof.
  intros [Hnd Hall] Hu Hv. unfold wf_graph. rewrite add_edge_nodes by done.
  split; [done |]. unfold add_edge. rewrite !add_node_in by (by rewrite ?add_node_in).
  cbn [adj]. destruct (directed g); repeat apply wf_adj_put; done.
Qed.

Lemma ginv_empty n d : ginv n d (empty_graph n d).
Proof.
  destruct (@ginv_add_nodes (option Z) n d) as [H _].
  rewrite add_nodes_from_seq in H by done. done.
Qed.

Lemma wf_empty n d : wf_graph (empty_graph n d).
Proof.
  destruct (ginv_empty n d) as (_ & Hn & _). split.
  - rewrite Hn. apply NoDup_seq.
  - unfold empty_graph. cbn [adj]. apply Forall_fmap, Forall_forall.
    intros i _. simpl. split; [apply NoDup_nil_2 | done].
Qed.

Lemma empty_graph_no_edge n d x y : ¬ has_edge (empty_graph n d) x y.
Proof.
  intros (nbrs & Hin & Hy). cbn in Hin.
  apply list_elem_of_fmap in Hin as (i & [= -> ->] & _). by apply elem_of_nil in Hy.
Qed.

Lemma generated_stable n d :
  add_stable n (λ g, ginv n d g ∧ wf_graph g ∧ loop_free n g).
Proof.
  intros g u v Hn Hu Hv Huv (Hg & Hwf & Hlf).
  assert (u ∈ nodes g) as Hu' by (rewrite Hn; apply elem_of_seq; lia).
  assert (v ∈ nodes g) as Hv' by (rewrite Hn; apply elem_of_seq; lia).
  split_and!.
  - by apply ginv_add_edge.
  - by apply wf_add_edge.
  - intros x y. rewrite add_edge_has_edge by done.
    intros [H | [[-> ->] | (_ & -> & ->)]]; [by apply Hlf | done | done].
Qed.

(** The outcome of the generator: it raises nothing; the graph returned is
    of the kind asked for, on the nodes 0 .. n-1, well formed, symmetric when
    undirected, without self-loop, and every entry of its adjacency holds a
    weight between -5 and 20. *)
Lemma gnp_outcome n c d r :
  ∃ g r', gnp_random_connected_graph n c d r = (r', Ok g) ∧
          ginv n d g ∧ wf_graph g ∧ loop_free n g ∧
          ∀ x y b, entry g x y b → ∃ w, b = Some w ∧ -5 ≤ w ≤ 20.
Proof.
  destruct (gnp_phases n c d r) as (g1 & r1 & g2 & r2 & Hrun & Hw & Hn1 & HP).
  destruct (HP _ (generated_stable n d)) as ((Hd1 & _ & Hsym1) & Hwf1 & Hlf1).
  { split_and!; [apply ginv_empty | apply wf_empty |].
    intros x y H. by destruct (empty_graph_no_edge n d x y). }
  destruct (weight_loop_spec g1 r1 g2 r2 Hw) as (Hd2 & Hsk & Hset).
  assert (∀ x y, has_edge g2 x y ↔ has_edge g1 x y) as Hedge.
  { intros x y. by rewrite !has_edge_skeleton, Hsk. }
  assert (nodes g2 = seq 0 n) as Hn2 by (by rewrite nodes_skeleton, Hsk, <- nodes_skeleton).
  assert ((edges g2).*1 = (edges g1).*1) as Hpairs by (by apply edges_pairs_ext).
  exists g2, r2. split; [done |]. split_and!.
  - split_and!; [congruence | done |].
    intros Hf x y. rewrite !Hedge. by apply Hsym1.
  - by apply (wf_graph_ext g1).
  - intros x y. rewrite Hedge. apply Hlf1.
  - intros x y b Hb. pose proof (entry_has_edge g2 x y b Hb) as Hxy.
    assert (∀ u v, (u, v) ∈ (edges g2).*1 → ∃ a, (u, v, a) ∈ edges g1) as Hrep.
    { intros u v. rewrite Hpairs. intros ([[u' v'] a] & [= -> ->] & Hin)%list_elem_of_fmap.
      by exists a. }
    destruct d.
    + apply has_edge_directed in Hxy; [| congruence].
      destruct (Hrep x y Hxy) as [a Ha]. apply (Hset x y a b Ha). by left.
    + destruct (has_edge_undirected g2 x y) as [Hr | Hr].
      * congruence.
      * rewrite Hn2. apply NoDup_seq.
      * done.
      * apply Hedge, Hsym1, Hedge; done.
      * destruct (Hrep x y Hr) as [a Ha]. apply (Hset x y a b Ha). by left.
      * destruct (Hrep y x Hr) as [a Ha]. apply (Hset y x a b Ha). right.
        split; [congruence | done].
Qed.

(** X11.  For every number of nodes, completeness, kind and state of the
    random generator, [gnp_random_connected_graph] raises nothing and
    returns a graph of the kind asked for whose nodes are 0 .. n-1 in this
    order; no edge is a self-loop, and distinct neighbours and neighbours
    that are nodes make the graph well formed.  With fewer than two nodes
    there is no edge. *)
Theorem gnp_shape (n : nat) (c : Q) (d : bool) (r : rng) :
  ∃ g r', gnp_random_connected_graph n c d r = (r', Ok g) ∧
          directed g = d ∧ nodes g = seq 0 n ∧ wf_graph g ∧
          (∀ u v a, (u, v, a) ∈ edges g → u ≠ v ∧ (u < n)%nat ∧ (v < n)%nat) ∧
          ((n ≤ 1)%nat → edges g = []).
Proof.
  destruct (gnp_outcome n c d r) as (g & r' & Hrun & (Hd & Hn & _) & Hwf & Hlf & _).
  exists g, r'. split_and!; [done | done | done | done | |].
  - intros u v a Hin. by apply Hlf, (edges_has_edge g u v a).
  - intros Hn1. destruct (edges g) as [|[[u v] a] es] eqn:He; [done |].
    destruct (Hlf u v) as (? & ? & ?); [| lia].
    apply (edges_has_edge g u v a). rewrite He. left.
Qed.

(** X12.  Every edge of the graph returned by the generator carries an
    integer weight between -5 and 20. *)
Theorem gnp_weights (n : nat) (c : Q) (d : bool) (r : rng) :
  ∃ g r', gnp_random_connected_graph n c d r = (r', Ok g) ∧
          ∀ u v a, (u, v, a) ∈ edges g → ∃ w, a = Some w ∧ -5 ≤ w ≤ 20.
Proof.
  destruct (gnp_outcome n c d r) as (g & r' & Hrun & _ & _ & _ & Hattr).
  exists g, r'. split; [done |]. intros u v a Hin.
  apply (Hattr u v a). by apply elem_of_edges.
Qed.

(** X13.  The directed graph returned by the generator is connected as
    well when its orientations are ignored: for every [n >= 1] any two nodes
    are joined by a chain of edges, each taken in one direction or the
    other. *)
Theorem gnp_directed_connected (n : nat) (c : Q) (r : rng) :
  (1 ≤ n)%nat →
  ∃ g r', gnp_random_connected_graph n c true r = (r', Ok g) ∧
          directed g = true ∧ connected g.
Proof.
  intros Hn.
  destruct (gnp_random_connected_graph_spec n c true r)
    as (g & r' & Hrun & (Hd & Hnodes & _) & Hup & _).
  exists g, r'. split_and!; [done | done |].
  assert (∀ i j, has_edge g i j ∨ has_edge g j i → linked g i j) as Hlink.
  { intros i j [Hij | Hij]; [left | right]; by apply has_edge_directed. }
  assert (∀ k i, (i + k = n - 1)%nat → rtc (linked g) i (n - 1)%nat) as Htop.
  { induction k as [k IH] using lt_wf_ind. intros i Hi.
    destruct (decide (k = 0)%nat) as [-> | Hk].
    - replace i with (n - 1)%nat by lia. done.
    - destruct (Hup i) as (j & Hj & Hedge); [lia |].
      eapply rtc_l; [by apply Hlink |].
      apply (IH (n - 1 - j)%nat); lia. }
  split.
  - rewrite Hnodes. destruct n; [lia | done].
  - intros u v. rewrite Hnodes, !elem_of_seq. intros Hu Hv.
    eapply rtc_trans.
    + apply (Htop (n - 1 - u)%nat). lia.
    + apply rtc_linked_sym. apply (Htop (n - 1 - v)%nat). lia.
Qed.

Lemma gnp_directed_connected_witness :
  ∃ g r', gnp_random_connected_graph 4 (Qmake 1 2) true (λ _, 7%N) = (r', Ok g) ∧
          directed g = true ∧ connected g.
Proof. apply (gnp_directed_connected 4 (Qmake 1 2) (λ _, 7%N)). lia. Defined.

(** X14.  With a completeness of 1 or more every pair is accepted: the
    graph returned joins every two nodes, and a directed one holds the edge
    i -> j for every i < j. *)
Theorem gnp_complete (n : nat) (c : Q) (d : bool) (r : rng) :
  Qle 1 c →
  ∃ g r', gnp_random_connected_graph n c d r = (r', Ok g) ∧
          ∀ i j, (i < j < n)%nat →
                 linked g i j ∧ (d = true → (i, j) ∈ (edges g).*1).
Proof.
  intros Hc.
  destruct (gnp_random_connected_graph_spec n c d r)
    as (g & r' & Hrun & (Hd & Hnodes & Hsym) & _ & Hfull).
  exists g, r'. split; [done |]. intros i j Hij.
  specialize (Hfull Hc i j Hij). destruct d.
  - split; [left |]; intros; by apply has_edge_directed.
  - split; [| done]. apply has_edge_undirected; [done | | done | by apply Hsym].
    rewrite Hnodes. apply NoDup_seq.
Qed.

Lemma gnp_complete_witness :
  ∃ g r', gnp_random_connected_graph 3 (Qmake 1 1) true (λ _, 0%N) = (r', Ok g) ∧
          ∀ i j, (i < j < 3)%nat →
                 linked g i j ∧ (true = true → (i, j) ∈ (edges g).*1).
Proof. apply (gnp_complete 3 (Qmake 1 1) true (λ _, 0%N)). apply Qle_refl. Defined.

(** ** Generated graphs as the engines read them *)

Lemma weighted_nbrs_Some (nbrs : list (nat * option Z)) :
  Forall (λ va : nat * option Z, is_Some va.2) nbrs →
  ∃ nz, weighted_nbrs nbrs = Some nz ∧ nz.*1 = nbrs.*1.
Proof.
  unfold weighted_nbrs. induction 1 as [|[y b] nbrs [w Hb] _ (nz & Hnz & Hk)].
  - by exists [].
  - simpl in Hb. subst b. exists ((y, w) :: nz). cbn. rewrite Hnz. simpl.
    by rewrite Hk.
Qed.

Lemma weighted_Some (g : Graph (option Z)) :
  (∀ x y b, entry g x y b → is_Some b) →
  ∃ gz, weighted g = Some gz ∧ directed gz = directed g ∧ skeleton gz = skeleton g.
Proof.
  intros Hall. unfold weighted, entry, skeleton in *. revert Hall.
  generalize (adj g) (directed g). intros l d Hall.
  cut (∃ lz, mapM (λ na : nat * list (nat * option Z),
                     nbrs ← weighted_nbrs na.2; Some (na.1, nbrs)) l = Some lz ∧
             (λ na : nat * list (nat * Z), (na.1, na.2.*1)) <$> lz
             = (λ na : nat * list (nat * option Z), (na.1, na.2.*1)) <$> l).
  { intros (lz & -> & Hsk). by exists (mkGraph d lz). }
  induction l as [|[n nbrs] l IH].
  - by exists [].
  - destruct IH as (lz & Hlz & Hsk).
    { intros x y b (nb & Hin & Hy). apply (Hall x y b). exists nb. split; [by right | done]. }
    destruct (weighted_nbrs_Some nbrs) as (nz & Hnz & Hk).
    { apply Forall_forall. intros [y b] Hy. simpl. apply (Hall n y b).
      exists nbrs. split; [left | done]. }
    exists ((n, nz) :: lz). split.
    + apply mapM_Some_2. constructor; [| by apply mapM_Some_1].
      cbn [snd fst]. by rewrite Hnz.
    + cbn [fmap list_fmap fst snd]. by rewrite Hk, Hsk.
Qed.

Lemma weighted_nbrs_elem (nbrs : list (nat * option Z)) nz v w :
  weighted_nbrs nbrs = Some nz → (v, w) ∈ nz → (v, Some w) ∈ nbrs.
Proof.
  unfold weighted_nbrs. intros H%mapM_Some_1.
  induction H as [|[y b] [y' w'] l k Hf HF IH]; intros Hin;
    [by apply elem_of_nil in Hin |].
  apply elem_of_cons in Hin as [Heq | Hin]; [| right; by apply IH].
  simpl in Hf. destruct b as [w0|]; simpl in Hf; [| done].
  injection Hf as <- <-. injection Heq as -> ->. left.
Qed.

(** The weights read by the engines are the attributes of the graph. *)
Lemma weighted_entry (g : Graph (option Z)) gz u v w :
  weighted g = Some gz → entry gz u v w → entry g u v (Some w).
Proof.
  unfold weighted. intros H (nbrs & Hin & Hv).
  destruct (mapM _ (adj g)) as [lz|] eqn:Hl; [| done].
  simpl in H. injection H as <-. cbn [adj] in Hin.
  apply mapM_Some_1 in Hl.
  apply list_elem_of_lookup in Hin as [i Hi].
  destruct (Forall2_lookup_r _ _ _ _ _ Hl Hi) as ([n0 nb0] & Hx & Hf).
  simpl in Hf. destruct (weighted_nbrs nb0) as [nz|] eqn:Hnz; [| done].
  simpl in Hf. injection Hf as -> ->.
  exists nb0. split; [by eapply list_elem_of_lookup_2 | by eapply weighted_nbrs_elem].
Qed.

(** A generated graph is read by the engines as a well-formed graph on the
    nodes 0 .. n-1 without self-loop, with weights between -5 and 20. *)
Lemma gnp_weighted n c d r :
  ∃ g r' gz, gnp_random_connected_graph n c d r = (r', Ok g) ∧
             weighted g = Some gz ∧ directed gz = d ∧ nodes gz = seq 0 n ∧
             wf_graph gz ∧ (∀ x w, (x, x, w) ∉ edges gz) ∧
             ∀ u v w, (u, v, w) ∈ edges gz → -5 ≤ w ≤ 20.
Proof.
  destruct (gnp_outcome n c d r) as (g & r' & Hrun & (Hd & Hn & _) & Hwf & Hlf & Hattr).
  destruct (weighted_Some g) as (gz & Hgz & Hdz & Hsk).
  { intros x y b Hb. destruct (Hattr x y b Hb) as (w & -> & _). by eexists. }
  exists g, r', gz. split_and!; [done | done | congruence | | | |].
  - by rewrite nodes_skeleton, Hsk, <- nodes_skeleton.
  - by apply (wf_graph_ext g).
  - intros x w Hin. apply edges_has_edge in Hin.
    apply has_edge_skeleton in Hin. rewrite Hsk in Hin. apply has_edge_skeleton in Hin.
    by destruct (Hlf x x Hin).
  - intros u v w Hin. apply elem_of_edges in Hin.
    destruct (Hattr u v (Some w)) as (w' & [= <-] & Hw); [| done].
    by apply (weighted_entry g gz).
Qed.

(** X15.  [floyd_warshall] applied to a graph returned by the generator, as
    the benchmark does, finds every node label within the matrix, whatever
    the number of nodes, the completeness, the kind and the state of the
    random generator: it raises no [IndexError]; it returns an n x n matrix
    or raises [OverflowError]. *)
Theorem floyd_warshall_generated (n : nat) (c : Q) (d : bool) (r : rng) :
  ∃ g r' gz,
    gnp_random_connected_graph n c d r = (r', Ok g) ∧ weighted g = Some gz ∧
    ((∃ m, (floyd_warshall gz).2 = Ok m ∧
           length m = n ∧ Forall (λ row, length row = n) m) ∨
     (floyd_warshall gz).2 = Raise OverflowError).
Proof.
  destruct (gnp_weighted n c d r) as (g & r' & gz & Hrun & Hgz & _ & Hn & Hwf & _).
  assert (length (nodes gz) = n) as Hlen by (by rewrite Hn, length_seq).
  assert (nodes_range gz) as Hr.
  { apply nodes_range_seq. by rewrite Hlen. }
  exists g, r', gz. rewrite floyd_warshall_run. cbn [snd].
  split_and!; [done | done |].
  destruct (floyd_warshall_in_range gz Hwf Hr) as [(m & Hm & Hm1 & Hm2) | Hov];
    [left | by right].
  exists m. rewrite Hlen in *. by split_and!.
Qed.

(** X16.  [bellman_ford] applied to an undirected graph returned by the
    generator never raises, from whatever source, although the weights may
    be negative: the graph has no self-loop and each edge is relaxed in one
    direction only. *)
Theorem bellman_ford_generated (n : nat) (c : Q) (r : rng) (source : nat) :
  ∃ g r' gz dist,
    gnp_random_connected_graph n c false r = (r', Ok g) ∧ weighted g = Some gz ∧
    (bellman_ford source gz).2 = Ok dist.
Proof.
  destruct (gnp_weighted n c false r)
    as (g & r' & gz & Hrun & Hgz & Hd & _ & Hwf & Hloop & Hw).
  assert (weights_convert gz) as Hconv.
  { intros u v w Hin. apply small_converts. pose proof (Hw u v w Hin). lia. }
  destruct (ideal_bellman_ford_outcome gz source Hwf)
    as (dist & _ & _ & _ & _ & [(_ & Hneg & _) | (Hres & _)]).
  - exfalso. destruct Hneg as (u & _ & l & w & Hcyc & Hlt).
    pose proof (undirected_no_negative_cycle gz Hd Hwf Hloop u l w Hcyc). lia.
  - exists g, r', gz, dist. rewrite bellman_ford_run. cbn [snd].
    rewrite bellman_ford_bounded by done. by split_and!.
Qed.

(** X17.  In a matrix that [floyd_warshall] returns for an undirected graph
    of the generator, every cell below the diagonal is +infinity: the
    benchmark computes distances from smaller to larger nodes only.  A
    matrix is returned when 20 times the number of nodes converts to a
    float. *)
Theorem floyd_warshall_generated_triangular (n : nat) (c : Q) (r : rng) :
  ∃ g r' gz,
    gnp_random_connected_graph n c false r = (r', Ok g) ∧ weighted g = Some gz ∧
    (∀ m, (floyd_warshall gz).2 = Ok m →
       ∀ i j, (j < i < n)%nat → cell m i j = Some Inf) ∧
    (Z.of_nat n * 20 < float_limit → ∃ m, (floyd_warshall gz).2 = Ok m).
Proof.
  destruct (gnp_weighted n c false r)
    as (g & r' & gz & Hrun & Hgz & Hd & Hn & Hwf & Hloop & Hw).
  assert (length (nodes gz) = n) as Hlen by (by rewrite Hn, length_seq).
  assert (nodes gz = seq 0 (length (nodes gz))) as Hseq by (by rewrite Hlen).
  exists g, r', gz. rewrite floyd_warshall_run. cbn [snd].
  destruct (undirected_lower_cells gz 20 Hd Hwf Hseq) as [Htri Hret].
  split_and!; [done | done | |].
  - intros m Hm i j Hij. apply (Htri m Hm). by rewrite Hlen.
  - intros Hlim. apply Hret; [done |]. split; [| by rewrite Hlen].
    intros u v w Hin. pose proof (Hw u v w Hin). lia.
Qed.

Lemma floyd_warshall_generated_triangular_witness :
  ∃ g r' gz m,
    gnp_random_connected_graph 3 (Qmake 1 2) false (λ _, 7%N) = (r', Ok g) ∧
    weighted g = Some gz ∧ (floyd_warshall gz).2 = Ok m ∧
    ∀ i j, (j < i < 3)%nat → cell m i j = Some Inf.
Proof.
  destruct (floyd_warshall_generated_triangular 3 (Qmake 1 2) (λ _, 7%N))
    as (g & r' & gz & Hrun & Hgz & Htri & Hret).
  destruct Hret as [m Hm]; [by vm_compute |].
  exists g, r', gz, m. split_and!; [done | done | done |]. by apply Htri.
Defined.

(** ** Completeness 0 *)

Lemma accepted_none c l r : Qle c 0 → accepted c l r = [].
Proof.
  intros Hc. revert r. induction l as [|e l IH]; intros r; [done |].
  cbn [accepted]. rewrite IH.
  assert (Qltb (Qmake (Z.of_N ((draw r).1 mod 2 ^ 53)) (2 ^ 53)) c = false) as ->; [| done].
  unfold Qltb. apply negb_false_iff, Qle_bool_iff.
  apply (Qle_trans _ 0); [done |]. unfold Qle. simpl.
  rewrite Z.mul_1_r. apply N2Z.is_nonneg.
Qed.

(** The body of the loop over the groups, once the edge is chosen. *)
Lemma group_body_eq c (l : list (nat * nat)) g r e :
  random_choice l (g, r) = ((g, (draw r).2), Ok e) →
  group_body c l (g, r)
  = completeness_loop c l
      (if Qltb (Qmake (Z.of_N (r 1%nat mod 2 ^ 53)) (2 ^ 53)) (Qmake 1 2)
       then add_edge g e.2 e.1 None else add_edge g e.1 e.2 None,
       λ i, r (S (S i))).
Proof.
  intros Hch. unfold group_body.
  unfold mbind at 1. unfold M_bind at 1. rewrite Hch.
  unfold mbind at 1. unfold M_bind at 1. unfold random_random. cbn [draw fst snd].
  unfold mbind at 1. unfold M_bind at 1.
  by destruct (Qltb _ (Qmake 1 2)).
Qed.

(** With a completeness of 0 or less the body of the loop over the groups
    adds one edge of the group, in one direction or the other, and nothing
    else. *)
Lemma group_body_sparse c (l : list (nat * nat)) g r :
  Qle c 0 → l ≠ [] →
  ∃ e r', e ∈ l ∧
          (group_body c l (g, r) = ((add_edge g e.1 e.2 None, r'), Ok tt) ∨
           group_body c l (g, r) = ((add_edge g e.2 e.1 None, r'), Ok tt)).
Proof.
  intros Hc Hne.
  destruct (random_choice_elem l g r Hne) as (e & Hch & He).
  rewrite (group_body_eq c l g r e Hch), completeness_loop_eq.
  rewrite (accepted_none c) by done. cbn [foldl].
  exists e. eexists. split; [done |].
  destruct (Qltb _ (Qmake 1 2)); [by right | by left].
Qed.

Lemma fmap_seq_split {B} (f : nat → B) k pre x post :
  f <$> seq 0 k = pre ++ x :: post → x = f (length pre) ∧ (length pre < k)%nat.
Proof.
  intros H.
  assert ((f <$> seq 0 k) !! length pre = Some x) as Hx.
  { rewrite H. by rewrite list_lookup_middle. }
  rewrite list_lookup_fmap in Hx.
  destruct (seq 0 k !! length pre) as [i|] eqn:Hi; [| done].
  apply lookup_seq in Hi as [-> Hlt]. simpl in Hx. by injection Hx as <-.
Qed.

Lemma gnp_decompose n c d r :
  ∃ g1 r1 g2 r2,
    for_eachM ((λ i, (i, pair i <$> seq (S i) (n - S i))) <$> seq 0 (n - 1))
      (λ grp : nat * list (nat * nat), group_body c grp.2) (empty_graph n d, r)
    = ((g1, r1), Ok tt) ∧
    for_eachM (edges g1) weight_body (g1, r1) = ((g2, r2), Ok tt) ∧
    gnp_random_connected_graph n c d r = (r2, Ok g2).
Proof.
  destruct (gnp_phases n c d r) as (g1' & r1' & g2 & r2 & Hrun & _).
  unfold gnp_random_connected_graph, gnp_body in *. rewrite groups_of_range in *.
  set (groups := (λ i, (i, pair i <$> seq (S i) (n - S i))) <$> seq 0 (n - 1)) in *.
  unfold mbind at 1 in Hrun. unfold M_bind at 1 in Hrun.
  cbn [on_graph nx_add_nodes_from fst snd] in Hrun.
  rewrite add_nodes_from_seq in Hrun by done. cbn [app] in Hrun.
  fold (empty_graph n d) in Hrun.
  unfold mbind at 1 in Hrun. unfold M_bind at 1 in Hrun.
  destruct (for_eachM groups _ (empty_graph n d, r)) as [[g1 r1] [[]|e]] eqn:Hrun1;
    [| done].
  unfold mbind at 1 in Hrun. unfold M_bind at 1 in Hrun.
  cbn [on_graph nx_edges fst snd] in Hrun.
  change (match for_eachM (edges g1) weight_body (g1, r1) with
          | (g, r', Ok _) => (r', Ok g)
          | (_, r', Raise e) => (r', Raise e)
          end = (r2, Ok g2)) in Hrun.
  destruct (for_eachM (edges g1) weight_body (g1, r1)) as [[g2' r2'] [[]|e]] eqn:Hrun2;
    [| done].
  injection Hrun as -> ->. exists g1, r1, g2, r2. split_and!; [done | done |].
  unfold mbind at 1. unfold M_bind at 1. cbn [on_graph nx_add_nodes_from fst snd].
  rewrite add_nodes_from_seq by done. cbn [app]. fold (empty_graph n d).
  unfold mbind at 1. unfold M_bind at 1. rewrite Hrun1.
  unfold mbind at 1. unfold M_bind at 1. cbn [on_graph nx_edges fst snd].
  change (match for_eachM (edges g1) weight_body (g1, r1) with
          | (g, r', Ok _) => (r', Ok g)
          | (_, r', Raise e) => (r', Raise e)
          end = (r2, Ok g2)).
  by rewrite Hrun2.
Qed.

Lemma tree_upto_add_edge n t (g : Graph (option Z)) a b j :
  tree_upto n t g → (t < j < n)%nat →
  (a = t ∧ b = j) ∨ (a = j ∧ b = t) →
  tree_upto n (S t) (add_edge g a b None).
Proof.
  intros [Hn Ht] Hj Hab.
  assert (a ∈ nodes g ∧ b ∈ nodes g) as [Ha Hb].
  { rewrite Hn, !elem_of_seq. lia. }
  assert (∀ x y, adjacent (add_edge g a b None) x y →
                 adjacent g x y ∨ (x = t ∧ y = j) ∨ (x = j ∧ y = t)) as Hadj.
  { intros x y. unfold adjacent. rewrite !add_edge_has_edge by done.
    destruct Hab as [[-> ->] | [-> ->]]; intuition auto. }
  split; [by rewrite add_edge_nodes |].
  intros x y Hxy Hlt. apply Hadj in Hxy as [Hxy | [[-> ->] | [-> ->]]]; [| | lia].
  - destruct (Ht x y Hxy Hlt) as (Hx & Hy & Huniq). split_and!; [lia | done |].
    intros y' Hxy' Hlt'. apply Hadj in Hxy' as [Hxy' | [[-> ->] | [-> ->]]]; [| lia | lia].
    by apply Huniq.
  - split_and!; [lia | lia |].
    intros y' Hxy' Hlt'. apply Hadj in Hxy' as [Hxy' | [[_ ->] | [-> ->]]]; [| done | lia].
    destruct (Ht t y' Hxy' Hlt') as (Hx & _). lia.
Qed.

(** X18.  With a completeness of 0 or less the generator adds the
    mandatory edges only: in the graph returned every node below n-1 is
    joined to exactly one higher node, so that the edges, one per node below
    n-1, form a spanning tree. *)
Theorem gnp_sparse (n : nat) (c : Q) (d : bool) (r : rng) :
  Qle c 0 →
  ∃ g r', gnp_random_connected_graph n c d r = (r', Ok g) ∧
          (∀ i, (i < n - 1)%nat →
                ∃ j, (i < j < n)%nat ∧ linked g i j ∧
                     ∀ j', (i < j')%nat → linked g i j' → j' = j) ∧
          (∀ i j, linked g i j → (i < j)%nat → (i < n - 1)%nat).
Proof.
  intros Hc.
  destruct (gnp_decompose n c d r) as (g1 & r1 & g2 & r2 & Hrun1 & Hrun2 & Hrun).
  destruct (gnp_random_connected_graph_spec n c d r)
    as (g & r' & Hrun' & (Hd & Hnodes & Hsym) & Hup & _).
  rewrite Hrun in Hrun'. injection Hrun' as <- <-.
  exists g2, r2. split; [done |].
  (* the loop over the groups *)
  destruct (for_eachM_inv_prefix
              (λ pre (st : Graph (option Z) * rng), tree_upto n (length pre) st.1)
              ((λ i, (i, pair i <$> seq (S i) (n - S i))) <$> seq 0 (n - 1))
              (λ grp : nat * list (nat * nat), group_body c grp.2)
              (empty_graph n d, r)) as ([g1' r1'] & Hrun1' & Htree).
  { split; [by destruct (ginv_empty n d) as (_ & ? & _) |].
    intros x y [H | H]; by destruct (empty_graph_no_edge n d _ _ H). }
  { intros pre grp post [g r0] Hsplit Ht. simpl in *.
    apply fmap_seq_split in Hsplit as [-> Hlen]. simpl.
    destruct (group_body_sparse c (pair (length pre) <$> seq (S (length pre))
                                     (n - S (length pre))) g r0 Hc)
      as (e & r0' & He & Hbody).
    { destruct (n - S (length pre))%nat eqn:Hk; [lia | done]. }
    apply list_elem_of_fmap in He as (j & -> & Hj). apply elem_of_seq in Hj.
    simpl in Hbody. rewrite length_app. simpl. rewrite Nat.add_1_r.
    destruct Hbody as [-> | ->]; eexists (_, _); (split; [done |]); simpl;
      apply (tree_upto_add_edge n (length pre) g _ _ j); try done; try lia; auto. }
  rewrite Hrun1 in Hrun1'. injection Hrun1' as <- <-. simpl in Htree.
  rewrite length_fmap, length_seq in Htree. destruct Htree as [_ Htree].
  destruct (weight_loop_spec g1 r1 g2 r2 Hrun2) as (_ & Hsk & _).
  assert (∀ x y, linked g2 x y → adjacent g1 x y) as Hadj.
  { intros x y [([[x' y'] a] & [= -> ->] & Hin)%list_elem_of_fmap
               | ([[x' y'] a] & [= -> ->] & Hin)%list_elem_of_fmap];
      apply edges_has_edge, has_edge_skeleton in Hin; rewrite Hsk in Hin;
      apply has_edge_skeleton in Hin; [by left | by right]. }
  assert (∀ i j, has_edge g2 i j ∨ has_edge g2 j i → linked g2 i j) as Hlink.
  { intros i j Hij. destruct d.
    - destruct Hij; [left | right]; by apply has_edge_directed.
    - apply has_edge_undirected; [done | | |].
      + rewrite Hnodes. apply NoDup_seq.
      + destruct Hij; [done | by apply Hsym].
      + destruct Hij; [by apply Hsym | done]. }
  split.
  - intros i Hi. destruct (Hup i Hi) as (j & Hj & Hedge).
    exists j. split; [done |]. split; [by apply Hlink |].
    intros j' Hlt Hl'.
    destruct (Htree i j) as (_ & _ & Huniq); [by apply Hadj, Hlink | lia |].
    apply Huniq; [by apply Hadj | done].
  - intros i j Hl Hlt. by destruct (Htree i j (Hadj i j Hl) Hlt) as (? & _).
Qed.

Lemma gnp_sparse_witness :
  ∃ g r', gnp_random_connected_graph 4 (Qmake 0 1) false (λ _, 7%N) = (r', Ok g) ∧
          (∀ i, (i < 4 - 1)%nat →
                ∃ j, (i < j < 4)%nat ∧ linked g i j ∧
                     ∀ j', (i < j')%nat → linked g i j' → j' = j) ∧
          (∀ i j, linked g i j → (i < j)%nat → (i < 4 - 1)%nat).
Proof. apply (gnp_sparse 4 (Qmake 0 1) false (λ _, 7%N)). apply Qle_refl. Defined.

